(** * Distance Vector Routing on a simulated router network

    A model of [dvr.py]: routers that keep a distance vector (a Python
    [dict] from node names to a cost and a next hop), discover their
    neighbours through their outgoing links, and relax their table on
    every advertisement a neighbour sends them.

    Layout of the development:
    - [Dict]: Python's insertion-ordered dictionary with string keys;
    - [Link], [Router]: the two classes, with [Router.dvr_start] and
      [Router.receive] as functions from a router to the router they leave
      behind and the effects they perform (lines printed, threads started);
    - [Network]: construction of the routers and links from a cost list;
    - [Sim]: the threads of a running network as labelled steps over the
      shared router objects;
    - [Offline]: Bellman-Ford on the construction input;
    - [Page21], [Pair], [Triangle], [Line4], [Cut]: the network at the end
      of [dvr.py] and three small ones, with the schedules the statements
      use;
    - the properties of the specification: dictionaries, [Router.receive],
      [Network.__init__], the running network;
    - further properties of the code: neighbour discovery, the keys and
      the next hops of a table, the graph [Network.__init__] builds, the
      lock of a router, [Network.dvr_start], the invariants of a running
      network under any schedule, and what a call of [receive] leaves when
      it returns and when its iterator raises, among the other threads. *)

From stdpp Require Import base list strings pretty.

(** ** Python dictionaries keyed by strings

    A [dict] keeps its items in insertion order; assigning to a key that is
    present replaces the value in place, assigning to a new key appends an
    item.  The program never deletes an item. *)
Module Dict.
Section Dict.
Context {V : Type}.

(** [d[k]], with [None] for [KeyError]. *)
Fixpoint get (k : string) (d : list (string * V)) : option V :=
  match d with
  | [] => None
  | (k', v) :: d' => if String.eqb k k' then Some v else get k d'
  end.

(** [k in d] *)
Definition mem (k : string) (d : list (string * V)) : bool :=
  match get k d with Some _ => true | None => false end.

(** [d[k] = v] *)
Fixpoint set (k : string) (v : V) (d : list (string * V)) : list (string * V) :=
  match d with
  | [] => [(k, v)]
  | (k', v') :: d' =>
      if String.eqb k k' then (k', v) :: d' else (k', v') :: set k v d'
  end.

Definition keys (d : list (string * V)) : list string := map fst d.

(** What the type [dict] guarantees: no key occurs twice. *)
Definition wf (d : list (string * V)) : Prop := NoDup (keys d).

End Dict.
End Dict.

(** ** The data of the program *)

(** One entry of a distance vector: the cost of the best known path and
    its next hop, [None] on the path from a node to itself. *)
Definition Entry : Type := Z * option string.

(** [DistanceVector: TypeAlias = dict[str, tuple[int, str | None]]] *)
Definition DistanceVector : Type := list (string * Entry).

(** A reference to a [Router] object: the identity of the object together
    with its [_name], which [__init__] assigns and nothing rebinds. *)
Record RouterRef := { oid : nat; ref_name : string }.

(** [Datagram: TypeAlias = tuple[str, DistanceVector]].  The second
    component is the [dict] object itself, not its contents: every router
    owns exactly one dictionary, created by [__init__] and never rebound, so
    the object is named by the identity of its owner. *)
Definition Datagram : Type := string * nat.

Inductive exn :=
  | KeyError (key : string)
  | RuntimeError (msg : string)
  | ValueError (msg : string).

(** How a call ends: it returns, it raises, or it is left waiting on a
    condition variable. *)
Inductive outcome (A : Type) :=
  | Returned (a : A)
  | Raised (e : exn)
  | Blocked.
Arguments Returned {A} a.
Arguments Raised {A} e.
Arguments Blocked {A}.

Record Link := { _cost : Z; _destination : RouterRef }.

(** What a method does besides updating the router it runs on: it writes a
    line to the standard output, starts a thread ([Link.send]), or notifies
    the threads waiting on the router's condition. *)
Inductive event :=
  | Stdout (line : string)
  | Spawn (link : Link) (data : Datagram)
  | NotifyAll.

(** The lines a sequence of effects writes. *)
Definition printed (evs : list event) : list string :=
  omap (λ ev, match ev with Stdout line => Some line | _ => None end) evs.

Module Link.

(** [Link.get_info] *)
Definition get_info (l : Link) : Z * string :=
  (_cost l, ref_name (_destination l)).

(** [Link.send]: a thread is started that will run [_send(data)]. *)
Definition send (l : Link) (data : Datagram) : event := Spawn l data.

End Link.

(** [log_dv]: the lines one call writes while it holds the console lock. *)
Definition show_next_hop (next_hop : option string) : string :=
  match next_hop with
  | None => "None"
  | Some n => n
  end.

Definition log_line (item : string * Entry) : string :=
  let '(node_name, (cost, next_hop)) := item in
  "Node: " +:+ node_name +:+ ", Cost: " +:+ pretty cost
    +:+ ", Next hop: " +:+ show_next_hop next_hop.

Definition log_dv (source_name : string) (dv : DistanceVector) : list string :=
  ("DV of router " +:+ source_name +:+ ":") :: map log_line dv ++ [""].

Record Router := {
  self : RouterRef;
  _links : list Link;
  _dv : DistanceVector
}.

Definition _name (r : Router) : string := ref_name (self r).

Module Router.

(** [Router.__init__] *)
Definition init (id : nat) (name : string) : Router :=
  {| self := {| oid := id; ref_name := name |}; _links := []; _dv := [] |}.

(** [Router.connect] *)
Definition connect (link : Link) (r : Router) : Router :=
  {| self := self r; _links := _links r ++ [link]; _dv := _dv r |}.

Definition with_dv (r : Router) (dv : DistanceVector) : Router :=
  {| self := self r; _links := _links r; _dv := dv |}.

(** [Router._find_neighbors] *)
Definition discover (dv : DistanceVector) (link : Link) : DistanceVector :=
  let '(cost, neighbor_name) := Link.get_info link in
  Dict.set neighbor_name (cost, Some neighbor_name) dv.

Definition _find_neighbors (r : Router) : Router :=
  with_dv r (foldl discover (_dv r) (_links r)).

(** [Router._broadcast_dv]: every link is handed the tuple of the name
    and the router's own dictionary object. *)
Definition _broadcast_dv (r : Router) : list event :=
  map (λ link, Link.send link (_name r, oid (self r))) (_links r).

(** [Router.dvr_start], which runs holding the router's condition. *)
Definition dvr_start (r : Router) : Router * list event :=
  let r1 := with_dv r (Dict.set (_name r) (0%Z, None) (_dv r)) in
  let out := log_dv (_name r1) (_dv r1) in
  let r2 := _find_neighbors r1 in
  (r2, map Stdout out ++ _broadcast_dv r2 ++ [NotifyAll]).

(** The body of the loop of [Router.receive], on one item of the received
    table. *)
Definition relax (link_cost : Z) (sender : string)
    (st : DistanceVector * bool) (item : string * Entry) : DistanceVector * bool :=
  let '(dv, changed) := st in
  let '(node_name, (cost, next_hop)) := item in
  match Dict.get node_name dv with
  | None => (Dict.set node_name ((link_cost + cost)%Z, Some sender) dv, true)
  | Some (known, _) =>
      if (link_cost + cost <? known)%Z
      then (Dict.set node_name ((link_cost + cost)%Z, Some sender) dv, true)
      else (dv, changed)
  end.

(** What follows the loop: [if changed: log_dv(...); self._broadcast_dv()]. *)
Definition after_loop (r : Router) (changed : bool) : list event :=
  if changed then map Stdout (log_dv (_name r) (_dv r)) ++ _broadcast_dv r
  else [].

(** [Router.receive], for a call whose loop runs to its end:
    [received_dv] is the list of the items the iterator of the received
    dictionary yields.  The dictionary is the sender's own, and the sender
    may write to it while the loop runs; the iterator then raises, and the
    call ends where it stands.  That is a matter of the threads, which
    [Sim] models turn by turn of the loop; this function is what a call
    does when nothing is written to the dictionary meanwhile, and, on the
    list of the items read, what any call that returns has done (the last
    section of the file). *)
Definition receive (r : Router) (data : string * DistanceVector)
    : outcome (Router * list event) :=
  if negb (Dict.mem (_name r) (_dv r)) then Blocked
  else
    let '(sender, received_dv) := data in
    match Dict.get sender (_dv r) with
    | None => Raised (KeyError sender)
    | Some (link_cost, _) =>
        let '(dv, changed) :=
          foldl (relax link_cost sender) (_dv r, false) received_dv in
        let r' := with_dv r dv in
        Returned (r', after_loop r' changed)
    end.

(** The router a delivery leaves behind.  A delivery that raises dies in
    its own thread, one that waits has not touched the table. *)
Definition deliver (r : Router) (data : string * DistanceVector) : Router :=
  match receive r data with
  | Returned (r', _) => r'
  | _ => r
  end.

End Router.

(** ** Construction of a network *)
Module Network.

(** [itertools.combinations(l, 2)] *)
Fixpoint combinations {A : Type} (l : list A) : list (A * A) :=
  match l with
  | [] => []
  | x :: l' => map (pair x) l' ++ combinations l'
  end.

(** The truth value of an [int | None]: [None] and [0] are false. *)
Definition truthy (cost : option Z) : option Z :=
  match cost with
  | Some c => if (c =? 0)%Z then None else Some c
  | None => None
  end.

(** [Network._connect] *)
Definition _connect (a b : RouterRef) (cost : Z) (nodes : list Router) : list Router :=
  let nodes := alter (Router.connect {| _cost := cost; _destination := b |}) (oid a) nodes in
  alter (Router.connect {| _cost := cost; _destination := a |}) (oid b) nodes.

Definition connect_if (nodes : list Router) (item : RouterRef * RouterRef * option Z) : list Router :=
  let '((a, b), cost) := item in
  match truthy cost with
  | Some c => _connect a b c nodes
  | None => nodes
  end.

(** [Network.__init__]: the value of [self._nodes] when it returns. *)
Definition init (node_names : list string) (costs : list (option Z)) : list Router :=
  let nodes := imap Router.init node_names in
  foldl connect_if nodes (zip (combinations (map self nodes)) costs).

(** The call [Network(node_names, costs)].  None of its statements raises
    on a list of strings and a list of [int | None]. *)
Definition new (node_names : list string) (costs : list (option Z))
    : outcome (list Router) :=
  Returned (init node_names costs).

(** Notions the statements about construction use: the references to the
    routers [__init__] creates, in order, and the links that one cost zipped
    with one pair of routers adds to the router of identity [i]. *)
Definition refs (node_names : list string) : list RouterRef :=
  imap (λ i name, {| oid := i; ref_name := name |}) node_names.

Definition links_of (i : nat) (item : RouterRef * RouterRef * option Z) : list Link :=
  let '((a, b), cost) := item in
  match truthy cost with
  | Some c =>
      (if decide (oid a = i) then [{| _cost := c; _destination := b |}] else [])
      ++ (if decide (oid b = i) then [{| _cost := c; _destination := a |}] else [])
  | None => []
  end.

End Network.

(** ** A running network

    The main thread runs [Network.dvr_start]; every [Link.send] starts a
    thread that sleeps, then calls [receive] on the link's destination.  The
    routers are shared objects: a datagram refers to the dictionary of its
    sender, and the loop of [receive] reads that dictionary item by item
    while holding the lock of the receiver only.

    Threads are preemptive, so the state moves by steps of single threads in
    any order.  A step groups statements that no other thread can tell
    apart: [dvr_start] as a whole (it holds the lock of its router, whose
    dictionary no datagram refers to before the broadcast that ends it), the
    end of a sleep, the entry into [receive] up to the creation of the
    iterator, and one turn of the loop. *)
Module Sim.

(** Where a thread started by [Link.send] stands: in [time.sleep]; about to
    take the lock of the destination; inside [self._dv_cond.wait()]; in the
    loop of [receive] with its local variables, the position of the iterator
    and the size of the dictionary when the iterator was created; returned;
    ended by an exception. *)
Inductive phase :=
  | Sleeping
  | Arrived
  | Waiting
  | Iterating (link_cost : Z) (changed : bool) (pos used : nat)
  | Finished
  | Died (e : exn).

(** A thread runs [link._send(data)]; [t_due] is the time at which its
    sleep ends, in the unit of the costs. *)
Record thread := {
  t_link : Link;
  t_data : Datagram;
  t_due : Z;
  t_phase : phase
}.

(** The router objects by identity, the threads in the order of their
    creation, the lines written so far, the number of nodes on which the
    main thread has run [dvr_start], and the time. *)
Record state := {
  nodes : list Router;
  threads : list thread;
  console : list string;
  started : nat;
  clock : Z
}.

(** The main thread starts the next node; thread [t] wakes, enters
    [receive], goes through one turn of its loop. *)
Inductive action :=
  | Start
  | Wake (t : nat)
  | Enter (t : nat)
  | Iter (t : nat).

Definition dest (th : thread) : nat := oid (_destination (t_link th)).

Definition with_phase (p : phase) (th : thread) : thread :=
  {| t_link := t_link th; t_data := t_data th; t_due := t_due th; t_phase := p |}.

Definition set_phase (st : state) (t : nat) (p : phase) : state :=
  {| nodes := nodes st; threads := alter (with_phase p) t (threads st);
     console := console st; started := started st; clock := clock st |}.

Definition set_node (st : state) (i : nat) (r : Router) : state :=
  {| nodes := <[i := r]> (nodes st); threads := threads st;
     console := console st; started := started st; clock := clock st |}.

Definition iterating (th : thread) : bool :=
  match t_phase th with Iterating _ _ _ _ => true | _ => false end.

(** The lock of router [i] is held by a thread inside its [receive]. *)
Definition held (st : state) (i : nat) : bool :=
  existsb (λ th, iterating th && (dest th =? i)) (threads st).

(** [notify_all] on the condition of router [i]. *)
Definition notify (i : nat) (th : thread) : thread :=
  match t_phase th with
  | Waiting => if dest th =? i then with_phase Arrived th else th
  | _ => th
  end.

(** One effect of a method that runs on router [i]. *)
Definition perform (i : nat) (st : state) (ev : event) : state :=
  match ev with
  | Stdout line =>
      {| nodes := nodes st; threads := threads st;
         console := console st ++ [line]; started := started st; clock := clock st |}
  | Spawn link data =>
      let th := {| t_link := link; t_data := data;
                   t_due := (clock st + _cost link)%Z; t_phase := Sleeping |} in
      {| nodes := nodes st; threads := threads st ++ [th];
         console := console st; started := started st; clock := clock st |}
  | NotifyAll =>
      {| nodes := nodes st; threads := map (notify i) (threads st);
         console := console st; started := started st; clock := clock st |}
  end.

(** [Network.dvr_start]: the main thread runs [dvr_start] on the next node. *)
Definition start (st : state) : option state :=
  let i := started st in
  match nodes st !! i with
  | None => None
  | Some r =>
      if held st i then None
      else
        let '(r', evs) := Router.dvr_start r in
        let st' := {| nodes := <[i := r']> (nodes st); threads := threads st;
                      console := console st; started := S i; clock := clock st |} in
        Some (foldl (perform i) st' evs)
  end.

(** [time.sleep(self._cost)] returns, or raises at once on a negative
    argument. *)
Definition wake (st : state) (t : nat) : option state :=
  match threads st !! t with
  | None => None
  | Some th =>
      match t_phase th with
      | Sleeping =>
          if (_cost (t_link th) <? 0)%Z
          then Some (set_phase st t (Died (ValueError "sleep length must be non-negative")))
          else
            let st' := set_phase st t Arrived in
            Some {| nodes := nodes st'; threads := threads st';
                    console := console st'; started := started st';
                    clock := Z.max (clock st) (t_due th) |}
      | _ => None
      end
  end.

(** [receive] up to the loop: the lock is taken, the thread waits if the
    router has no entry for itself, else it reads [link_cost] and creates
    the iterator on the items of the received dictionary. *)
Definition enter (st : state) (t : nat) : option state :=
  match threads st !! t with
  | None => None
  | Some th =>
      match t_phase th with
      | Arrived =>
          let i := dest th in
          match nodes st !! i with
          | None => None
          | Some r =>
              if held st i then None
              else if negb (Dict.mem (_name r) (_dv r)) then Some (set_phase st t Waiting)
              else
                let '(sender, received) := t_data th in
                match Dict.get sender (_dv r), nodes st !! received with
                | None, _ => Some (set_phase st t (Died (KeyError sender)))
                | Some (link_cost, _), Some src =>
                    Some (set_phase st t (Iterating link_cost false 0 (length (_dv src))))
                | Some _, None => None
                end
          end
      | _ => None
      end
  end.

(** One turn of the loop of [receive]: the iterator raises if the size of
    the dictionary has changed since it was created, ends the loop past the
    last item, and yields the item at its position otherwise. *)
Definition iter (st : state) (t : nat) : option state :=
  match threads st !! t with
  | None => None
  | Some th =>
      match t_phase th with
      | Iterating link_cost changed pos used =>
          let i := dest th in
          let '(sender, received) := t_data th in
          match nodes st !! i, nodes st !! received with
          | Some r, Some src =>
              if negb (length (_dv src) =? used)
              then Some (set_phase st t
                     (Died (RuntimeError "dictionary changed size during iteration")))
              else
                match _dv src !! pos with
                | Some item =>
                    let '(dv, changed') :=
                      Router.relax link_cost sender (_dv r, changed) item in
                    Some (set_phase (set_node st i (Router.with_dv r dv)) t
                            (Iterating link_cost changed' (S pos) used))
                | None =>
                    Some (foldl (perform i) (set_phase st t Finished)
                            (Router.after_loop r changed))
                end
          | _, _ => None
          end
      | _ => None
      end
  end.

Definition step (st : state) (a : action) : option state :=
  match a with
  | Start => start st
  | Wake t => wake st t
  | Enter t => enter st t
  | Iter t => iter st t
  end.

Fixpoint run (st : state) (schedule : list action) : option state :=
  match schedule with
  | [] => Some st
  | a :: schedule' =>
      match step st a with
      | Some st' => run st' schedule'
      | None => None
      end
  end.

(** The state in which [Network(...).dvr_start()] is called. *)
Definition boot (nodes : list Router) : state :=
  {| nodes := nodes; threads := []; console := []; started := 0; clock := 0 |}.

(** The state a schedule leads to from there (the initial state, if the
    schedule asks for a step that cannot be taken). *)
Definition after (nodes : list Router) (schedule : list action) : state :=
  default (boot nodes) (run (boot nodes) schedule).

(** A thread runs [receive] from the entry to the end of a loop over [n]
    items without another thread running in between. *)
Definition whole (t n : nat) : list action := Enter t :: replicate (S n) (Iter t).

Inductive reachable (nodes0 : list Router) : state → Prop :=
  | reachable_boot : reachable nodes0 (boot nodes0)
  | reachable_step st a st' :
      reachable nodes0 st → step st a = Some st' → reachable nodes0 st'.

(** What the condition of a router guards: a thread inside the loop of
    [receive] runs on a router the main thread has started, a thread that
    waits does so on a router that has not been started. *)
Definition gated (started : nat) (th : thread) : Prop :=
  match t_phase th with
  | Iterating _ _ _ _ => dest th < started
  | Waiting => started ≤ dest th
  | _ => True
  end.

Definition inv (st : state) : Prop :=
  started st ≤ length (nodes st) ∧
  (∀ i r, started st ≤ i → nodes st !! i = Some r → _dv r = []) ∧
  (∀ i r, i < started st → nodes st !! i = Some r → Dict.mem (_name r) (_dv r) = true) ∧
  Forall (gated (started st)) (threads st).

(** Nothing is left to run: the main thread has started every node and
    every thread has returned or died. *)
Definition over (th : thread) : bool :=
  match t_phase th with Finished | Died _ => true | _ => false end.

Definition quiescent (st : state) : bool :=
  (started st =? length (nodes st)) && forallb over (threads st).

(** The dictionary a datagram refers to, as it is now. *)
Definition payload (st : state) (d : Datagram) : option DistanceVector :=
  _dv <$> nodes st !! d.2.

(** Schedules in which every sleep lasts exactly its cost and the work
    between two sleeps takes no time: a thread wakes only once the main
    thread is done, no earlier than any thread due before it, and the clock
    moves only when no thread is at work. *)
Definition asleep (th : thread) : bool :=
  match t_phase th with Sleeping => true | _ => false end.

Definition busy (th : thread) : bool :=
  match t_phase th with Arrived | Iterating _ _ _ _ => true | _ => false end.

Definition punctual (st : state) (a : action) : bool :=
  match a with
  | Wake t =>
      match threads st !! t with
      | Some th =>
          (started st =? length (nodes st))
          && forallb (λ o, negb (asleep o) || (t_due th <=? t_due o)%Z) (threads st)
          && ((t_due th <=? clock st)%Z || negb (existsb busy (threads st)))
      | None => false
      end
  | _ => true
  end.

Fixpoint run_punctual (st : state) (schedule : list action) : option state :=
  match schedule with
  | [] => Some st
  | a :: schedule' =>
      if punctual st a then
        match step st a with
        | Some st' => run_punctual st' schedule'
        | None => None
        end
      else None
  end.

(** The schedule in which threads are not interleaved: the main thread
    starts every node, then the thread at work runs on, and when none is at
    work the thread that is due first wakes. *)
Fixpoint find_index {A : Type} (p : A → bool) (l : list A) : option nat :=
  match l with
  | [] => None
  | x :: l' => if p x then Some 0 else S <$> find_index p l'
  end.

Definition first_due (ths : list thread) : option nat :=
  find_index
    (λ th, asleep th && forallb (λ o, negb (asleep o) || (t_due th <=? t_due o)%Z) ths)
    ths.

Definition next (st : state) : option action :=
  if started st <? length (nodes st) then Some Start
  else
    match find_index iterating (threads st) with
    | Some t => Some (Iter t)
    | None =>
        match find_index busy (threads st) with
        | Some t => Some (Enter t)
        | None => Wake <$> first_due (threads st)
        end
    end.

Fixpoint serial (fuel : nat) (st : state) : list action :=
  match fuel with
  | 0 => []
  | S fuel' =>
      match next st with
      | Some a =>
          match step st a with
          | Some st' => a :: serial fuel' st'
          | None => []
          end
      | None => []
      end
  end.

End Sim.

(** ** Shortest paths, computed offline from the construction input *)
Module Offline.

Definition edges (node_names : list string) (costs : list (option Z))
    : list (string * string * Z) :=
  flat_map (λ '((a, b), cost),
      match Network.truthy cost with
      | Some c => [(a, b, c); (b, a, c)]
      | None => []
      end)
    (zip (Network.combinations node_names) costs).

Definition relax_edge (dist : list (string * Z)) (e : string * string * Z)
    : list (string * Z) :=
  let '(a, b, c) := e in
  match Dict.get a dist with
  | None => dist
  | Some da =>
      match Dict.get b dist with
      | None => Dict.set b (da + c)%Z dist
      | Some db => if (da + c <? db)%Z then Dict.set b (da + c)%Z dist else dist
      end
  end.

(** Bellman-Ford from [source]: as many rounds over all edges as there are
    nodes. *)
Definition shortest (node_names : list string) (costs : list (option Z))
    (source : string) : list (string * Z) :=
  Nat.iter (length node_names)
    (λ dist, foldl relax_edge dist (edges node_names costs)) [(source, 0%Z)].

End Offline.

(** ** The network at the end of [dvr.py] (page 21 of the course notes) *)
Module Page21.

Definition node_names : list string := ["A"; "B"; "C"; "D"; "E"].

Definition costs : list (option Z) :=
  [Some 1; Some 6; None; None; Some 2; Some 1; None; Some 3; Some 7; Some 2]%Z.

Definition network : list Router := Network.init node_names costs.

(** The [i]-th router as constructed, and once its [dvr_start] has run. *)
Definition node (i : nat) : Router := default (Router.init i "") (network !! i).

Definition router (i : nat) : Router := (Router.dvr_start (node i)).1.

End Page21.

(** ** Two routers and one link of cost 5 *)
Module Pair.

Definition network : list Router := Network.init ["A"; "B"] [Some 5%Z].

(** Both routers start, both datagrams arrive and are read to the end. *)
Definition schedule : list Sim.action :=
  [Sim.Start; Sim.Start; Sim.Wake 0; Sim.Wake 1;
   Sim.Enter 0; Sim.Iter 0; Sim.Iter 0; Sim.Iter 0;
   Sim.Enter 1; Sim.Iter 1; Sim.Iter 1; Sim.Iter 1].

End Pair.

(** ** Three routers: A-B and B-C of cost 1, A-C of cost 5 *)
Module Triangle.

Definition node_names : list string := ["A"; "B"; "C"].

Definition costs : list (option Z) := [Some 1; Some 5; Some 1]%Z.

Definition network : list Router := Network.init node_names costs.

(** The three routers have started and broadcast.  Thread 1 carries the
    datagram of A to C, thread 2 the datagram of B to A. *)
Definition sent : list Sim.action := [Sim.Start; Sim.Start; Sim.Start].

(** One unit of time later the datagram of B has reached A, which has read
    its three items. *)
Definition later : list Sim.action :=
  sent ++ [Sim.Wake 2; Sim.Enter 2; Sim.Iter 2; Sim.Iter 2; Sim.Iter 2].

End Triangle.

(** ** Four routers in a line, every link of cost 1 *)
Module Line4.

Definition node_names : list string := ["Q"; "R"; "S"; "T"].

Definition costs : list (option Z) := [Some 1; None; None; Some 1; None; Some 1]%Z.

Definition network : list Router := Network.init node_names costs.

(** The four routers start; their six datagrams (threads 0 to 5: Q to R,
    R to Q, R to S, S to R, S to T, T to S) arrive together.  Q reads the
    table of R.  R reads the three items of the table of S and learns T;
    before it asks the iterator for more, S reads the table of R, learns Q
    and broadcasts.  The iterator of R then finds the table of S grown.
    The other datagrams, and the four sent meanwhile (threads 6 to 9), are
    read to the end. *)
Definition schedule : list Sim.action :=
  [Sim.Start; Sim.Start; Sim.Start; Sim.Start]
  ++ map Sim.Wake [0; 1; 2; 3; 4; 5]
  ++ Sim.whole 1 3
  ++ Sim.Enter 3 :: replicate 3 (Sim.Iter 3)
  ++ Sim.whole 2 4
  ++ [Sim.Iter 3]
  ++ Sim.whole 0 3 ++ Sim.whole 5 2 ++ Sim.whole 4 4
  ++ map Sim.Wake [6; 7; 8; 9]
  ++ Sim.whole 6 3 ++ Sim.whole 7 4 ++ Sim.whole 8 4 ++ Sim.whole 9 4.

End Line4.

(** ** The line of four routers, with one [receive] cut short *)
Module Cut.

(** The four routers start and their six datagrams arrive together. *)
Definition arrived : list Sim.action :=
  [Sim.Start; Sim.Start; Sim.Start; Sim.Start] ++ map Sim.Wake [0; 1; 2; 3; 4; 5].

(** R takes the datagram of S (thread 3): it enters [receive], passes
    the wait and creates the iterator on the dictionary of S. *)
Definition entered : list Sim.action := arrived ++ [Sim.Enter 3].

(** R reads the first item; S reads the datagram of R (thread 2) to the
    end and stores a route to Q; R asks the iterator for the next item. *)
Definition schedule : list Sim.action :=
  entered ++ [Sim.Iter 3] ++ Sim.whole 2 3 ++ [Sim.Iter 3].

End Cut.

(** ** The lock of a router

    [receive] and [dvr_start] run their bodies under [with self._dv_cond]:
    of all the threads sent to one router, at most one is inside the loop of
    [receive]. *)
Definition exclusive (ths : list Sim.thread) : Prop :=
  ∀ t1 t2 th1 th2,
    ths !! t1 = Some th1 → ths !! t2 = Some th2 →
    Sim.iterating th1 = true → Sim.iterating th2 = true →
    Sim.dest th1 = Sim.dest th2 → t1 = t2.

(** ** A call of [receive] in the middle of its loop

    Thread [t], which came to [receive] as [th] and found the router as
    [r], has read the items [items] so far: its position in the received
    dictionary is their number, the table of the router is what the loop
    body makes of the table of [r] on these items, one after the other, and
    [changed] is set accordingly.  Each of the items was in the dictionary
    of the sender when it was read, and their keys are the first keys of
    that dictionary. *)
Definition reading (nodes0 : list Router) (st : Sim.state) (t : nat)
    (th : Sim.thread) (r : Router) (items : list (string * Entry)) : Prop :=
  ∃ link_cost hop changed used src dv,
    Sim.threads st !! t
      = Some (Sim.with_phase (Sim.Iterating link_cost changed (length items) used) th) ∧
    Dict.mem (_name r) (_dv r) = true ∧
    Dict.get (Sim.t_data th).1 (_dv r) = Some (link_cost, hop) ∧
    foldl (Router.relax link_cost (Sim.t_data th).1) (_dv r, false) items = (dv, changed) ∧
    Sim.nodes st !! Sim.dest th = Some (Router.with_dv r dv) ∧
    Sim.nodes st !! (Sim.t_data th).2 = Some src ∧
    map fst items = take (length items) (Dict.keys (_dv src)) ∧
    Forall (λ item, ∃ st0 src0, Sim.reachable nodes0 st0 ∧
                      Sim.nodes st0 !! (Sim.t_data th).2 = Some src0 ∧ item ∈ _dv src0)
      items.

(** * Properties *)

(** ** Dictionaries *)
Section DictFacts.
Context {V : Type}.
Implicit Types (k : string) (v : V) (d : list (string * V)).

Lemma get_set_eq k v d : Dict.get k (Dict.set k v d) = Some v.
Proof.
  induction d as [|[k' v'] d IH]; simpl.
  - by rewrite String.eqb_refl.
  - destruct (String.eqb_spec k k') as [->|Hne]; simpl.
    + by rewrite String.eqb_refl.
    + destruct (String.eqb_spec k k'); [done|exact IH].
Qed.

Lemma get_set_ne k k' v d : k ≠ k' → Dict.get k' (Dict.set k v d) = Dict.get k' d.
Proof.
  intros Hne. induction d as [|[k0 v0] d IH]; simpl.
  - destruct (String.eqb_spec k' k); [congruence|done].
  - destruct (String.eqb_spec k k0) as [->|Hk]; simpl.
    + destruct (String.eqb_spec k' k0); [congruence|done].
    + destruct (String.eqb_spec k' k0); [done|exact IH].
Qed.

Lemma get_None_keys k d : Dict.get k d = None ↔ k ∉ Dict.keys d.
Proof.
  induction d as [|[k' v'] d IH]; simpl.
  - split; [intros _; apply not_elem_of_nil|done].
  - rewrite not_elem_of_cons. destruct (String.eqb_spec k k') as [->|Hne].
    + split; [done|intros [? _]; done].
    + rewrite IH. tauto.
Qed.

Lemma get_Some_elem k v d : Dict.get k d = Some v → (k, v) ∈ d.
Proof.
  induction d as [|[k' v'] d IH]; simpl; [done|].
  destruct (String.eqb_spec k k') as [->|Hne].
  - intros [= ->]. apply list_elem_of_here.
  - intros H. apply list_elem_of_further, IH, H.
Qed.

Lemma mem_true k d : Dict.mem k d = true ↔ ∃ v, Dict.get k d = Some v.
Proof.
  unfold Dict.mem. destruct (Dict.get k d); split; eauto; [done|intros [? ?]; done].
Qed.

Lemma mem_set k k' v d : Dict.mem k' d = true → Dict.mem k' (Dict.set k v d) = true.
Proof.
  rewrite !mem_true. intros [v' Hv'].
  destruct (decide (k = k')) as [->|Hne].
  - exists v. apply get_set_eq.
  - exists v'. by rewrite get_set_ne.
Qed.

Lemma keys_set_present k v d :
  Dict.mem k d = true → Dict.keys (Dict.set k v d) = Dict.keys d.
Proof.
  unfold Dict.mem. induction d as [|[k' v'] d IH]; simpl; [done|].
  destruct (String.eqb_spec k k') as [->|Hne]; simpl; [done|].
  intros H. by rewrite IH.
Qed.

Lemma keys_set_absent k v d :
  Dict.get k d = None → Dict.keys (Dict.set k v d) = Dict.keys d ++ [k].
Proof.
  induction d as [|[k' v'] d IH]; simpl; [done|].
  destruct (String.eqb_spec k k') as [->|Hne]; simpl; [done|].
  intros H. by rewrite IH.
Qed.

Lemma wf_set k v d : Dict.wf d → Dict.wf (Dict.set k v d).
Proof.
  unfold Dict.wf. intros Hd. destruct (Dict.get k d) as [v0|] eqn:Hg.
  - rewrite keys_set_present; [done|]. unfold Dict.mem. by rewrite Hg.
  - rewrite keys_set_absent by done.
    apply NoDup_app. split_and!; [done| |apply NoDup_singleton].
    intros x Hx ->%list_elem_of_singleton. by apply get_None_keys in Hg.
Qed.

(** A property of the values that holds of every item and of [v] holds of
    every item after [d[k] = v]. *)
Lemma Forall_set (P : V → Prop) k v d :
  Forall (λ item, P item.2) d → P v → Forall (λ item, P item.2) (Dict.set k v d).
Proof.
  intros Hd Hv. induction Hd as [|[k' v'] d Hx Hd IH]; simpl.
  - by repeat constructor.
  - destruct (String.eqb k k'); constructor; done.
Qed.

Lemma set_changes k v d : Dict.get k d ≠ Some v → Dict.set k v d ≠ d.
Proof.
  intros Hg Heq. apply Hg. rewrite <- Heq. apply get_set_eq.
Qed.

End DictFacts.

(** ** The relaxation loop of [Router.receive] *)
Section Relaxation.
Variables (link_cost : Z) (sender : string).
Implicit Types (dv : DistanceVector) (changed : bool) (item : string * Entry).

(** The entry the loop body leaves for the destination of the item it is
    given, from the entry it found. *)
Lemma relax_get_same dv changed node_name cost next_hop :
  Dict.get node_name (Router.relax link_cost sender (dv, changed) (node_name, (cost, next_hop))).1 =
    match Dict.get node_name dv with
    | None => Some ((link_cost + cost)%Z, Some sender)
    | Some (known, hop) =>
        if (link_cost + cost <? known)%Z then Some ((link_cost + cost)%Z, Some sender)
        else Some (known, hop)
    end.
Proof.
  simpl. destruct (Dict.get node_name dv) as [[known hop]|] eqn:Hg; simpl.
  - destruct (link_cost + cost <? known)%Z; simpl; [apply get_set_eq|done].
  - apply get_set_eq.
Qed.

Lemma relax_get_other dv changed item destination :
  item.1 ≠ destination →
  Dict.get destination (Router.relax link_cost sender (dv, changed) item).1 = Dict.get destination dv.
Proof.
  destruct item as [node_name [cost next_hop]]. simpl. intros Hne.
  destruct (Dict.get node_name dv) as [[known hop]|]; simpl.
  - destruct (link_cost + cost <? known)%Z; simpl; [by apply get_set_ne|done].
  - by apply get_set_ne.
Qed.

Lemma loop_get_absent items : ∀ dv changed destination,
  destination ∉ Dict.keys items →
  Dict.get destination (foldl (Router.relax link_cost sender) (dv, changed) items).1
  = Dict.get destination dv.
Proof.
  induction items as [|item items IH]; intros dv changed destination Hd; [done|].
  simpl in Hd. apply not_elem_of_cons in Hd as [Hne Hd]. cbn [foldl].
  destruct (Router.relax link_cost sender (dv, changed) item) as [dv1 ch1] eqn:Hr.
  rewrite IH by done. replace dv1 with (Router.relax link_cost sender (dv, changed) item).1
    by (by rewrite Hr).
  by apply relax_get_other.
Qed.

Lemma loop_get_present items : Dict.wf items → ∀ dv changed destination cost next_hop,
  (destination, (cost, next_hop)) ∈ items →
  Dict.get destination (foldl (Router.relax link_cost sender) (dv, changed) items).1 =
    match Dict.get destination dv with
    | None => Some ((link_cost + cost)%Z, Some sender)
    | Some (known, hop) =>
        if (link_cost + cost <? known)%Z then Some ((link_cost + cost)%Z, Some sender)
        else Some (known, hop)
    end.
Proof.
  unfold Dict.wf. induction items as [|item items IH]; intros Hwf dv changed destination cost next_hop Hin.
  - by apply elem_of_nil in Hin.
  - simpl in Hwf. apply NoDup_cons in Hwf as [Hhd Hwf]. cbn [foldl].
    destruct (Router.relax link_cost sender (dv, changed) item) as [dv1 ch1] eqn:Hr.
    assert (dv1 = (Router.relax link_cost sender (dv, changed) item).1) as Hdv1 by (by rewrite Hr).
    apply elem_of_cons in Hin as [<-|Hin].
    + rewrite loop_get_absent by done. rewrite Hdv1. apply relax_get_same.
    + rewrite (IH Hwf _ _ _ _ _ Hin). rewrite Hdv1, relax_get_other; [done|].
      intros <-. apply Hhd. unfold Dict.keys.
      change item.1 with (fst (item.1, (cost, next_hop))). by apply list_elem_of_fmap_2.
Qed.
End Relaxation.

(** ** [Router.receive] *)
Section Receive.
Implicit Types (r : Router) (dv received_dv : DistanceVector).

Lemma receive_returns r sender received_dv link_cost hop :
  Dict.mem (_name r) (_dv r) = true →
  Dict.get sender (_dv r) = Some (link_cost, hop) →
  Router.receive r (sender, received_dv) =
    let st := foldl (Router.relax link_cost sender) (_dv r, false) received_dv in
    Returned (Router.with_dv r st.1, Router.after_loop (Router.with_dv r st.1) st.2).
Proof.
  intros Hself Hsender. unfold Router.receive. rewrite Hself, Hsender. simpl.
  by destruct (foldl _ _ _).
Qed.

Lemma receive_inv r data r' evs :
  Router.receive r data = Returned (r', evs) →
  ∃ link_cost hop,
    Dict.mem (_name r) (_dv r) = true ∧
    Dict.get data.1 (_dv r) = Some (link_cost, hop) ∧
    let st := foldl (Router.relax link_cost data.1) (_dv r, false) data.2 in
    r' = Router.with_dv r st.1 ∧ evs = Router.after_loop r' st.2.
Proof.
  destruct data as [sender received_dv]. unfold Router.receive.
  destruct (Dict.mem (_name r) (_dv r)); [|done]. simpl.
  destruct (Dict.get sender (_dv r)) as [[link_cost hop]|]; [|done].
  destruct (foldl _ _ _) as [dv changed] eqn:Hloop. intros [= <- <-].
  exists link_cost, hop. by rewrite Hloop.
Qed.

(** The tables stay dictionaries: no key comes to occur twice. *)
Lemma relax_wf link_cost sender dv changed item :
  Dict.wf dv → Dict.wf (Router.relax link_cost sender (dv, changed) item).1.
Proof.
  intros Hwf. destruct item as [node_name [cost next_hop]]. simpl.
  destruct (Dict.get node_name dv) as [[known hop]|]; simpl; [|by apply wf_set].
  destruct (link_cost + cost <? known)%Z; simpl; [by apply wf_set|done].
Qed.

Lemma deliver_wf r data : Dict.wf (_dv r) → Dict.wf (_dv (Router.deliver r data)).
Proof.
  intros Hwf. unfold Router.deliver.
  destruct (Router.receive r data) as [[r' evs]| |] eqn:Hrecv; [|done..].
  apply receive_inv in Hrecv as (link_cost & hop & _ & _ & -> & _). simpl.
  revert Hwf. generalize (_dv r) false.
  induction data.2 as [|item items IH]; intros dv changed Hwf; [done|]. cbn [foldl].
  pose proof (relax_wf link_cost data.1 dv changed item Hwf) as Hwf1.
  destruct (Router.relax link_cost data.1 (dv, changed) item) as [dv1 ch1]. by apply IH.
Qed.

Lemma dvr_start_wf r : Dict.wf (_dv r) → Dict.wf (_dv (Router.dvr_start r).1).
Proof.
  intros Hwf. simpl.
  assert (Dict.wf (Dict.set (_name r) (0%Z, None) (_dv r))) as Hwf1 by (by apply wf_set).
  revert Hwf1. generalize (Dict.set (_name r) (0%Z, None) (_dv r)).
  induction (_links r) as [|link links IH]; intros dv Hdv; [done|]. cbn [foldl].
  apply IH. unfold Router.discover. simpl. by apply wf_set.
Qed.

(** X22. A [receive] whose loop runs to its end applies the relaxation
    rule.  On a router that has its own entry and an entry for the sender,
    and a received table with unique keys that nothing writes to while it
    is read, [receive] returns, and for every item
    [(destination, (cost, _))] of the received table, the entry for
    [destination] becomes [(link_cost + cost, sender)] when the destination
    was unknown or [link_cost + cost] is strictly below the known cost, and
    is left as it was otherwise, a tie included; [link_cost] is the cost the
    receiver holds for the sender.  Entries for other destinations are not
    touched. *)
Theorem receive_relaxation_rule r sender received_dv link_cost hop :
  Dict.wf received_dv →
  Dict.mem (_name r) (_dv r) = true →
  Dict.get sender (_dv r) = Some (link_cost, hop) →
  ∃ r' evs,
    Router.receive r (sender, received_dv) = Returned (r', evs) ∧
    self r' = self r ∧ _links r' = _links r ∧
    (∀ destination cost next_hop,
       (destination, (cost, next_hop)) ∈ received_dv →
       (Dict.get destination (_dv r) = None ∨
        (∃ known h, Dict.get destination (_dv r) = Some (known, h)
                    ∧ (link_cost + cost < known)%Z) →
        Dict.get destination (_dv r') = Some ((link_cost + cost)%Z, Some sender)) ∧
       (∀ known h, Dict.get destination (_dv r) = Some (known, h) →
                   (known ≤ link_cost + cost)%Z →
        Dict.get destination (_dv r') = Some (known, h))) ∧
    (∀ destination, destination ∉ Dict.keys received_dv →
       Dict.get destination (_dv r') = Dict.get destination (_dv r)).
Proof.
  intros Hwf Hself Hsender.
  rewrite (receive_returns r sender received_dv link_cost hop Hself Hsender).
  cbn zeta. eexists _, _. split; [reflexivity|]. split_and!; [done|done| |].
  - intros destination cost next_hop Hin. simpl.
    rewrite (loop_get_present _ _ _ Hwf _ _ _ _ _ Hin). split.
    + intros [->|(known & h & -> & Hlt)]; [done|].
      by apply Z.ltb_lt in Hlt as ->.
    + intros known h -> Hle. by apply Z.ltb_ge in Hle as ->.
  - intros destination Hd. simpl. by apply loop_get_absent.
Qed.

(** The relaxation rule on the network of page 21: router A, started, is
    given the first table of B over the link of cost 1. *)
Lemma receive_relaxation_rule_witness :
  ∃ r' evs,
    Router.receive (Page21.router 0) ("B", (_dv (Page21.router 1))) = Returned (r', evs) ∧
    self r' = self (Page21.router 0) ∧ _links r' = _links (Page21.router 0) ∧
    (∀ destination cost next_hop,
       (destination, (cost, next_hop)) ∈ (_dv (Page21.router 1)) →
       (Dict.get destination (_dv (Page21.router 0)) = None ∨
        (∃ known h, Dict.get destination (_dv (Page21.router 0)) = Some (known, h)
                    ∧ (1 + cost < known)%Z) →
        Dict.get destination (_dv r') = Some ((1 + cost)%Z, Some "B")) ∧
       (∀ known h, Dict.get destination (_dv (Page21.router 0)) = Some (known, h) →
                   (known ≤ 1 + cost)%Z →
        Dict.get destination (_dv r') = Some (known, h))) ∧
    (∀ destination, destination ∉ Dict.keys (_dv (Page21.router 1)) →
       Dict.get destination (_dv r') = Dict.get destination (_dv (Page21.router 0))).
Proof.
  apply (receive_relaxation_rule (Page21.router 0) "B" (_dv (Page21.router 1)) 1 (Some "B")).
  - apply (bool_decide_unpack _). by vm_compute.
  - reflexivity.
  - reflexivity.
Defined.

(** Keys are never removed and costs never go up in one turn of the loop. *)
Lemma relax_cost_le link_cost sender dv changed item destination cost hop :
  Dict.get destination dv = Some (cost, hop) →
  ∃ cost' hop',
    Dict.get destination (Router.relax link_cost sender (dv, changed) item).1 = Some (cost', hop')
    ∧ (cost' ≤ cost)%Z.
Proof.
  intros Hd. destruct (decide (item.1 = destination)) as [<-|Hne].
  - destruct item as [node_name [c next_hop]]. rewrite relax_get_same. simpl in Hd.
    rewrite Hd. destruct (Z.ltb_spec (link_cost + c) cost); eexists _, _; split; try done; lia.
  - rewrite relax_get_other by done. eexists _, _. split; [done|lia].
Qed.

Lemma loop_cost_le link_cost sender items : ∀ dv changed destination cost hop,
  Dict.get destination dv = Some (cost, hop) →
  ∃ cost' hop',
    Dict.get destination (foldl (Router.relax link_cost sender) (dv, changed) items).1
      = Some (cost', hop')
    ∧ (cost' ≤ cost)%Z.
Proof.
  induction items as [|item items IH]; intros dv changed destination cost hop Hd.
  - eexists _, _. split; [done|lia].
  - cbn [foldl].
    destruct (relax_cost_le link_cost sender dv changed item _ _ _ Hd) as (c1 & h1 & Hg1 & Hle1).
    destruct (Router.relax link_cost sender (dv, changed) item) as [dv1 ch1].
    destruct (IH dv1 ch1 _ _ _ Hg1) as (c2 & h2 & Hg2 & Hle2).
    exists c2, h2. split; [done|lia].
Qed.

Lemma deliver_cost_le r data destination cost hop :
  Dict.get destination (_dv r) = Some (cost, hop) →
  ∃ cost' hop',
    Dict.get destination (_dv (Router.deliver r data)) = Some (cost', hop') ∧ (cost' ≤ cost)%Z.
Proof.
  intros Hd. unfold Router.deliver.
  destruct (Router.receive r data) as [[r' evs]| |] eqn:Hrecv;
    [|eexists _, _; split; [done|lia]..].
  apply receive_inv in Hrecv as (link_cost & h & _ & _ & -> & _). simpl.
  by eapply loop_cost_le.
Qed.

(** C6. Monotonicity: a cost recorded for a destination never increases
    through any sequence of deliveries to the router; the entry stays, and
    the cost it holds afterwards is at most the cost it held before. *)
Theorem receive_cost_monotone r (datagrams : list (string * DistanceVector))
    destination cost hop :
  Dict.get destination (_dv r) = Some (cost, hop) →
  ∃ cost' hop',
    Dict.get destination (_dv (foldl Router.deliver r datagrams)) = Some (cost', hop')
    ∧ (cost' ≤ cost)%Z.
Proof.
  revert r cost hop. induction datagrams as [|data datagrams IH]; intros r cost hop Hd.
  - eexists _, _. split; [done|lia].
  - cbn [foldl].
    destruct (deliver_cost_le r data _ _ _ Hd) as (c1 & h1 & Hg1 & Hle1).
    destruct (IH _ _ _ Hg1) as (c2 & h2 & Hg2 & Hle2).
    exists c2, h2. split; [done|lia].
Qed.

(** Router A of the network of page 21 holds C at cost 6 after its start; the
    first tables of B and C cannot raise that cost. *)
Lemma receive_cost_monotone_witness :
  ∃ cost' hop',
    Dict.get "C" (_dv (foldl Router.deliver (Page21.router 0)
                         [("B", _dv (Page21.router 1)); ("C", _dv (Page21.router 2))]))
      = Some (cost', hop')
    ∧ (cost' ≤ 6)%Z.
Proof.
  apply (receive_cost_monotone (Page21.router 0) _ "C" 6 (Some "C")). reflexivity.
Defined.

(** One turn of the loop either leaves table and flag alone, or raises the
    flag and leaves some destination with an entry it did not have, or with
    a strictly smaller cost. *)
Lemma relax_strict link_cost sender dv changed item :
  let st := Router.relax link_cost sender (dv, changed) item in
  st = (dv, changed) ∨
  (st.2 = true ∧ ∃ destination cost hop,
     Dict.get destination st.1 = Some (cost, hop) ∧
     (Dict.get destination dv = None ∨
      ∃ known h, Dict.get destination dv = Some (known, h) ∧ (cost < known)%Z)).
Proof.
  destruct item as [node_name [cost next_hop]]. simpl.
  destruct (Dict.get node_name dv) as [[known hop]|] eqn:Hg; simpl.
  - destruct (Z.ltb_spec (link_cost + cost) known); simpl; [|by left].
    right. split; [done|]. eexists node_name, _, _. split; [apply get_set_eq|].
    right. by exists known, hop.
  - right. split; [done|]. eexists node_name, _, _. split; [apply get_set_eq|]. by left.
Qed.

(** At the end of the loop [changed] tells whether the table differs from
    the one the loop started on. *)
Lemma loop_changed link_cost sender items : ∀ dv changed,
  let st := foldl (Router.relax link_cost sender) (dv, changed) items in
  st = (dv, changed) ∨ (st.1 ≠ dv ∧ st.2 = true).
Proof.
  induction items as [|item items IH]; intros dv changed; [by left|]. cbn [foldl].
  destruct (relax_strict link_cost sender dv changed item) as [->|[Hflag Hkey]]; [apply IH|].
  destruct (Router.relax link_cost sender (dv, changed) item) as [dv1 ch1].
  simpl in Hflag, Hkey. subst ch1. right. split.
  - destruct Hkey as (destination & cost & hop & Hg1 & Hold).
    destruct (loop_cost_le link_cost sender items dv1 true _ _ _ Hg1) as (c2 & h2 & Hg2 & Hle).
    intros Heq. rewrite Heq in Hg2.
    destruct Hold as [Hnone|(known & h & Hsome & Hlt)]; [congruence|].
    rewrite Hsome in Hg2. injection Hg2 as -> _. lia.
  - destruct (IH dv1 true) as [->|[_ ->]]; done.
Qed.

Lemma loop_no_improvement link_cost sender items dv changed :
  (∀ destination cost next_hop, (destination, (cost, next_hop)) ∈ items →
     ∃ known h, Dict.get destination dv = Some (known, h) ∧ (known ≤ link_cost + cost)%Z) →
  foldl (Router.relax link_cost sender) (dv, changed) items = (dv, changed).
Proof.
  induction items as [|[node_name [cost next_hop]] items IH]; intros Hno; [done|].
  cbn [foldl]. destruct (Hno node_name cost next_hop) as (known & h & Hg & Hle);
    [apply list_elem_of_here|].
  match goal with |- foldl _ ?st _ = _ => assert (st = (dv, changed)) as -> end.
  { simpl. rewrite Hg. by apply Z.ltb_ge in Hle as ->. }
  apply IH. intros d c n Hin. apply (Hno d c n). by apply list_elem_of_further.
Qed.

Lemma with_dv_id r : Router.with_dv r (_dv r) = r.
Proof. by destruct r. Qed.

(** X23. Quiescence of a [receive] that returns.  When [receive] returns,
    an advertisement none of whose entries is unknown to the router or
    strictly cheaper than what it knows has left the router as it was and
    has had no effect at all, neither a line of log nor a thread started on
    any link; and if the table has changed, the effects are the log of the
    updated table followed by one send per outgoing link, each carrying the
    router's name and its (updated) table. *)
Theorem receive_quiescence r sender received_dv link_cost hop r' evs :
  Dict.get sender (_dv r) = Some (link_cost, hop) →
  Router.receive r (sender, received_dv) = Returned (r', evs) →
  ((∀ destination cost next_hop, (destination, (cost, next_hop)) ∈ received_dv →
      ∃ known h, Dict.get destination (_dv r) = Some (known, h)
                 ∧ (known ≤ link_cost + cost)%Z) →
   r' = r ∧ evs = []) ∧
  (_dv r' ≠ _dv r →
   evs = map Stdout (log_dv (_name r') (_dv r'))
         ++ map (λ link, Spawn link (_name r', oid (self r'))) (_links r')).
Proof.
  intros Hsender Hrecv.
  apply receive_inv in Hrecv as (lc & h & _ & Hsender' & Hr' & Hevs). simpl in *.
  rewrite Hsender in Hsender'. injection Hsender' as <- <-. split.
  - intros Hno. rewrite (loop_no_improvement _ _ _ _ _ Hno) in Hr', Hevs. simpl in *.
    rewrite with_dv_id in Hr'. by subst.
  - intros Hne. rewrite Hevs, Hr' in *. simpl in Hne.
    destruct (loop_changed link_cost sender received_dv (_dv r) false) as [Heq|[_ ->]]; [|done].
    by rewrite Heq in Hne.
Qed.

(** On the network of page 21: router A is given the first table of B, which
    teaches it a route to D and a shorter one to C. *)
Lemma receive_quiescence_witness :
  let r' := Router.deliver (Page21.router 0) ("B", _dv (Page21.router 1)) in
  let evs := Router.after_loop r' true in
  ((∀ destination cost next_hop,
      (destination, (cost, next_hop)) ∈ _dv (Page21.router 1) →
      ∃ known h, Dict.get destination (_dv (Page21.router 0)) = Some (known, h)
                 ∧ (known ≤ 1 + cost)%Z) →
   r' = Page21.router 0 ∧ evs = []) ∧
  (_dv r' ≠ _dv (Page21.router 0) →
   evs = map Stdout (log_dv "A" (_dv r')) ++ map (λ link, Spawn link ("A", 0)) (_links r')).
Proof.
  apply (receive_quiescence (Page21.router 0) "B" (_dv (Page21.router 1))
           1%Z (Some "B") _ _ eq_refl eq_refl).
Defined.

(** Router B is given the first table of A, which teaches it nothing. *)
Example receive_nothing_new :
  Router.receive (Page21.router 1) ("A", _dv (Page21.router 0))
  = Returned (Page21.router 1, []).
Proof. reflexivity. Qed.

(** *** The entry of a router for itself *)

Local Abbreviation nonneg := (Forall (λ item : string * Entry, (0 ≤ item.2.1)%Z)).

Lemma discover_get_other dv link name :
  ref_name (_destination link) ≠ name →
  Dict.get name (Router.discover dv link) = Dict.get name dv.
Proof. intros Hne. unfold Router.discover. simpl. by apply get_set_ne. Qed.

Lemma find_neighbors_get_other links : ∀ dv name,
  Forall (λ link, ref_name (_destination link) ≠ name) links →
  Dict.get name (foldl Router.discover dv links) = Dict.get name dv.
Proof.
  induction links as [|link links IH]; intros dv name Hl; [done|].
  apply Forall_cons in Hl as [Hne Hl]. cbn [foldl].
  rewrite IH by done. by apply discover_get_other.
Qed.

Lemma find_neighbors_nonneg links : ∀ dv,
  Forall (λ link, (0 ≤ _cost link)%Z) links → nonneg dv →
  nonneg (foldl Router.discover dv links).
Proof.
  induction links as [|link links IH]; intros dv Hl Hdv; [done|].
  apply Forall_cons in Hl as [Hc Hl]. cbn [foldl]. apply IH; [done|].
  unfold Router.discover. simpl.
  by apply (Forall_set (λ e : Entry, (0 ≤ e.1)%Z)).
Qed.

Lemma relax_self name link_cost sender dv changed item :
  (0 ≤ link_cost)%Z → (0 ≤ item.2.1)%Z →
  Dict.get name dv = Some (0%Z, None) → nonneg dv →
  let st := Router.relax link_cost sender (dv, changed) item in
  Dict.get name st.1 = Some (0%Z, None) ∧ nonneg st.1.
Proof.
  intros Hlc Hc Hself Hdv. cbn zeta. split.
  - destruct (decide (item.1 = name)) as [<-|Hne].
    + destruct item as [node_name [cost next_hop]]. rewrite relax_get_same.
      simpl in *. rewrite Hself. destruct (Z.ltb_spec (link_cost + cost) 0); [lia|done].
    + by rewrite relax_get_other.
  - destruct item as [node_name [cost next_hop]]. simpl in *.
    assert (nonneg (Dict.set node_name ((link_cost + cost)%Z, Some sender) dv)).
    { apply (Forall_set (λ e : Entry, (0 ≤ e.1)%Z)); [done|simpl; lia]. }
    destruct (Dict.get node_name dv) as [[known hop]|]; [|done].
    by destruct (link_cost + cost <? known)%Z.
Qed.

Lemma loop_self name link_cost sender items : ∀ dv changed,
  (0 ≤ link_cost)%Z → nonneg items →
  Dict.get name dv = Some (0%Z, None) → nonneg dv →
  let st := foldl (Router.relax link_cost sender) (dv, changed) items in
  Dict.get name st.1 = Some (0%Z, None) ∧ nonneg st.1.
Proof.
  induction items as [|item items IH]; intros dv changed Hlc Hitems Hself Hdv; [done|].
  apply Forall_cons in Hitems as [Hc Hitems]. cbn [foldl].
  destruct (relax_self name link_cost sender dv changed item Hlc Hc Hself Hdv) as [Hself1 Hdv1].
  destruct (Router.relax link_cost sender (dv, changed) item) as [dv1 ch1].
  by apply IH.
Qed.

Lemma deliver_name r data : _name (Router.deliver r data) = _name r.
Proof.
  unfold Router.deliver. destruct (Router.receive r data) as [[r' evs]| |] eqn:Hrecv; [|done..].
  by apply receive_inv in Hrecv as (? & ? & _ & _ & -> & _).
Qed.

Lemma deliver_self r data :
  nonneg data.2 →
  Dict.get (_name r) (_dv r) = Some (0%Z, None) → nonneg (_dv r) →
  Dict.get (_name r) (_dv (Router.deliver r data)) = Some (0%Z, None)
  ∧ nonneg (_dv (Router.deliver r data)).
Proof.
  intros Hdata Hself Hdv. unfold Router.deliver.
  destruct (Router.receive r data) as [[r' evs]| |] eqn:Hrecv; [|done..].
  apply receive_inv in Hrecv as (link_cost & hop & _ & Hsender & -> & _). simpl.
  apply loop_self; [|done..].
  apply get_Some_elem in Hsender. by apply (proj1 (Forall_forall _ _) Hdv) in Hsender.
Qed.

Lemma deliveries_self (datagrams : list (string * DistanceVector)) : ∀ r,
  Forall (λ data, nonneg data.2) datagrams →
  Dict.get (_name r) (_dv r) = Some (0%Z, None) → nonneg (_dv r) →
  Dict.get (_name r) (_dv (foldl Router.deliver r datagrams)) = Some (0%Z, None).
Proof.
  induction datagrams as [|data datagrams IH]; intros r Hdata Hself Hnn; [done|].
  apply Forall_cons in Hdata as [Hd Hdata]. cbn [foldl].
  destruct (deliver_self r data Hd Hself Hnn) as [Hself' Hnn'].
  rewrite <- (deliver_name r data) in Hself' |- *. by apply IH.
Qed.

(** C5, as the program has it.  Take a router none of whose links leads to a
    router of its own name, whose link costs are not negative, and whose
    table holds no negative cost when [dvr_start] runs (it is empty then).
    When [dvr_start] has returned, the entry for the router's own name is
    [(0, None)], and it is still so after any sequence of deliveries of
    tables whose costs are not negative. *)
Theorem self_entry_invariant r (datagrams : list (string * DistanceVector)) :
  Forall (λ link, ref_name (_destination link) ≠ _name r) (_links r) →
  Forall (λ link, (0 ≤ _cost link)%Z) (_links r) →
  Forall (λ item, (0 ≤ item.2.1)%Z) (_dv r) →
  Forall (λ data, Forall (λ item, (0 ≤ item.2.1)%Z) data.2) datagrams →
  Dict.get (_name r) (_dv (Router.dvr_start r).1) = Some (0%Z, None) ∧
  Dict.get (_name r) (_dv (foldl Router.deliver (Router.dvr_start r).1 datagrams))
    = Some (0%Z, None).
Proof.
  intros Hnames Hcosts Hdv Hdata.
  assert (Dict.get (_name r) (_dv (Router.dvr_start r).1) = Some (0%Z, None)
          ∧ nonneg (_dv (Router.dvr_start r).1)) as [Hself Hnn].
  { simpl. split.
    - rewrite find_neighbors_get_other by done. apply get_set_eq.
    - apply find_neighbors_nonneg; [done|].
      by apply (Forall_set (λ e : Entry, (0 ≤ e.1)%Z)). }
  split; [done|].
  by apply (deliveries_self datagrams (Router.dvr_start r).1).
Qed.

(** *** What is logged, and when *)

Lemma printed_app evs1 evs2 : printed (evs1 ++ evs2) = printed evs1 ++ printed evs2.
Proof. apply omap_app. Qed.

Lemma printed_Stdout lines : printed (map Stdout lines) = lines.
Proof.
  induction lines as [|line lines IH]; [done|].
  change (line :: printed (map Stdout lines) = line :: lines). by rewrite IH.
Qed.

Lemma printed_broadcast r : printed (Router._broadcast_dv r) = [].
Proof.
  unfold Router._broadcast_dv. by induction (_links r) as [|link links IH].
Qed.

Lemma printed_after_loop r changed :
  printed (Router.after_loop r changed) = if changed then log_dv (_name r) (_dv r) else [].
Proof.
  destruct changed; [|done]. simpl.
  by rewrite printed_app, printed_Stdout, printed_broadcast, app_nil_r.
Qed.

(** C9, as the program has it.  [dvr_start] writes one log, of the table as
    it stands once the entry for the router itself is set and before the
    neighbours are discovered; a [receive] that returns writes the log of
    the table it leaves if that table differs from the one it found, and
    nothing otherwise.  A log has a line for every item of the table it is
    given, between a heading and an empty line. *)
Theorem log_after_self_seed_and_changes r data :
  printed (Router.dvr_start r).2
    = log_dv (_name r) (Dict.set (_name r) (0%Z, None) (_dv r)) ∧
  match Router.receive r data with
  | Returned (r', evs) =>
      (_dv r' = _dv r ∧ printed evs = []) ∨
      (_dv r' ≠ _dv r ∧ printed evs = log_dv (_name r) (_dv r'))
  | _ => True
  end ∧
  (∀ name dv,
     length (log_dv name dv) = length dv + 2 ∧
     ∀ item, item ∈ dv → log_line item ∈ log_dv name dv).
Proof.
  split_and!.
  - simpl. rewrite printed_app, printed_Stdout, printed_app, printed_broadcast. simpl.
    by rewrite app_nil_r.
  - destruct (Router.receive r data) as [[r' evs]| |] eqn:Hrecv; [|done..].
    apply receive_inv in Hrecv as (link_cost & hop & _ & _ & Hr' & ->). cbn zeta in Hr'.
    rewrite printed_after_loop, Hr'. simpl.
    destruct (loop_changed link_cost data.1 data.2 (_dv r) false) as [->|[Hne ->]]; [by left|].
    by right.
  - intros name dv. split.
    + unfold log_dv. simpl. rewrite length_app, length_map. simpl. lia.
    + intros item Hin. unfold log_dv. apply list_elem_of_further, elem_of_app. left.
      by apply list_elem_of_fmap_2.
Qed.

(** C9 as stated fails on the network of page 21: router A leaves [dvr_start]
    with entries for its neighbours B and C, and the only log it has written
    shows the entry for A alone.  With two routers and one link the entries
    for the neighbours are never logged: when every thread has returned the
    console holds the two logs written before the discovery, and both tables
    have two items. *)
Lemma start_log_misses_neighbors :
  _dv (Router.dvr_start (Page21.node 0)).1
    = [("A", (0%Z, None)); ("B", (1%Z, Some "B")); ("C", (6%Z, Some "C"))] ∧
  printed (Router.dvr_start (Page21.node 0)).2
    = ["DV of router A:"; "Node: A, Cost: 0, Next hop: None"; ""] ∧
  ∃ st, Sim.run (Sim.boot Pair.network) Pair.schedule = Some st ∧
        Sim.quiescent st = true ∧
        map _dv (Sim.nodes st)
          = [[("A", (0%Z, None)); ("B", (5%Z, Some "B"))];
             [("B", (0%Z, None)); ("A", (5%Z, Some "A"))]] ∧
        Sim.console st
          = ["DV of router A:"; "Node: A, Cost: 0, Next hop: None"; "";
             "DV of router B:"; "Node: B, Cost: 0, Next hop: None"; ""].
Proof.
  split_and!; [reflexivity..|].
  eexists. split; [by vm_compute|]. by split_and!.
Qed.

End Receive.

(** ** [Network.__init__] *)
Section Construction.
Implicit Types (nodes : list Router) (costs : list (option Z)) (node_names : list string).

Lemma connect_if_lookup nodes item i r :
  nodes !! i = Some r →
  Network.connect_if nodes item !! i
  = Some {| self := self r; _links := _links r ++ Network.links_of i item; _dv := _dv r |}.
Proof.
  intros Hi. destruct item as [[a b] cost]. unfold Network.connect_if, Network.links_of.
  destruct (Network.truthy cost) as [c|]; [|rewrite app_nil_r; by destruct r].
  unfold Network._connect.
  destruct (decide (oid a = i)) as [Ha|Ha], (decide (oid b = i)) as [Hb|Hb].
  - rewrite Ha, Hb, !list_lookup_alter_eq, Hi. simpl. unfold Router.connect. simpl.
    by rewrite <- app_assoc.
  - rewrite Ha, list_lookup_alter_ne, list_lookup_alter_eq, Hi by congruence.
    simpl. unfold Router.connect. by rewrite ?app_nil_r.
  - rewrite Hb, list_lookup_alter_eq, list_lookup_alter_ne, Hi by congruence. done.
  - rewrite !list_lookup_alter_ne by done. rewrite Hi. simpl. rewrite ?app_nil_r. by destruct r.
Qed.

Lemma connect_all_lookup items : ∀ nodes i r,
  nodes !! i = Some r →
  foldl Network.connect_if nodes items !! i
  = Some {| self := self r; _links := _links r ++ flat_map (Network.links_of i) items;
            _dv := _dv r |}.
Proof.
  induction items as [|item items IH]; intros nodes i r Hi; simpl.
  - rewrite app_nil_r. by destruct r.
  - erewrite IH by (by apply connect_if_lookup). simpl. by rewrite <- app_assoc.
Qed.

Lemma connect_if_length nodes item :
  length (Network.connect_if nodes item) = length nodes.
Proof.
  destruct item as [[a b] cost]. unfold Network.connect_if.
  destruct (Network.truthy cost); [|done]. unfold Network._connect.
  by rewrite !length_alter.
Qed.

Lemma connect_all_length items : ∀ nodes,
  length (foldl Network.connect_if nodes items) = length nodes.
Proof.
  induction items as [|item items IH]; intros nodes; [done|]. simpl.
  by rewrite IH, connect_if_length.
Qed.

Lemma self_init node_names : map self (imap Router.init node_names) = Network.refs node_names.
Proof.
  unfold Network.refs. generalize 0 as k. 
  assert (∀ (f : nat → nat), map self (imap (λ i, Router.init (f i)) node_names)
            = imap (λ i name, {| oid := f i; ref_name := name |}) node_names) as H.
  { induction node_names as [|name node_names IH]; intros f; [done|]. simpl.
    f_equal. apply (IH (f ∘ S)). }
  intros _. apply (H id).
Qed.

(** The network [__init__] builds, router by router. *)
Lemma init_lookup node_names costs i name :
  node_names !! i = Some name →
  Network.init node_names costs !! i
  = Some {| self := {| oid := i; ref_name := name |};
            _links := flat_map (Network.links_of i)
                        (zip (Network.combinations (Network.refs node_names)) costs);
            _dv := [] |}.
Proof.
  intros Hi. unfold Network.init. rewrite self_init.
  erewrite connect_all_lookup by (by rewrite list_lookup_imap, Hi). done.
Qed.

Lemma init_length node_names costs :
  length (Network.init node_names costs) = length node_names.
Proof. unfold Network.init. by rewrite connect_all_length, length_imap. Qed.
End Construction.

Section Combinations.
Context {A : Type}.
Implicit Types (l : list A).

Lemma combinations_elem l a b :
  (a, b) ∈ Network.combinations l →
  ∃ i j, i < j ∧ l !! i = Some a ∧ l !! j = Some b.
Proof.
  induction l as [|x l IH]; simpl; [by intros ?%elem_of_nil|].
  intros [Hin|Hin]%elem_of_app.
  - apply list_elem_of_fmap in Hin as (y & [= -> ->] & Hy).
    apply list_elem_of_lookup in Hy as [j Hj]. exists 0, (S j). split_and!; [lia|done..].
  - destruct (IH Hin) as (i & j & Hij & Hi & Hj).
    exists (S i), (S j). split_and!; [lia|done..].
Qed.

Lemma combinations_NoDup l : NoDup l → NoDup (Network.combinations l).
Proof.
  induction 1 as [|x l Hx Hl IH]; simpl; [constructor|].
  apply NoDup_app. split_and!; [|intros [a b] Hin1 Hin2|done].
  - apply (NoDup_fmap_2 _). done.
  - apply list_elem_of_fmap in Hin1 as (y & [= -> ->] & Hy).
    apply combinations_elem in Hin2 as (i & j & _ & Hi & _).
    apply Hx. apply list_elem_of_lookup. eauto.
Qed.
End Combinations.

Section Validation.
Implicit Types (nodes : list Router) (costs : list (option Z)) (node_names : list string).

Lemma refs_lookup node_names i ref :
  Network.refs node_names !! i = Some ref →
  oid ref = i ∧ node_names !! i = Some (ref_name ref).
Proof.
  unfold Network.refs. rewrite list_lookup_imap.
  destruct (node_names !! i) as [name|]; [|done]. simpl. by intros [= <-].
Qed.

Lemma refs_NoDup node_names : NoDup (Network.refs node_names).
Proof.
  apply NoDup_alt. intros i j ref Hi Hj.
  apply refs_lookup in Hi as [Hi _], Hj as [Hj _]. congruence.
Qed.

Lemma refs_pairs_ordered node_names a b :
  (a, b) ∈ Network.combinations (Network.refs node_names) → oid a < oid b.
Proof.
  intros (i & j & Hij & Hi & Hj)%combinations_elem.
  apply refs_lookup in Hi as [-> _], Hj as [-> _]. done.
Qed.

Lemma refs_pairs_oid node_names a b a' b' :
  (a, b) ∈ Network.combinations (Network.refs node_names) →
  (a', b') ∈ Network.combinations (Network.refs node_names) →
  oid a = oid a' → oid b = oid b' → (a, b) = (a', b').
Proof.
  intros (i & j & _ & Hi & Hj)%combinations_elem (i' & j' & _ & Hi' & Hj')%combinations_elem Ha Hb.
  pose proof (refs_lookup _ _ _ Hi) as [? _]. pose proof (refs_lookup _ _ _ Hi') as [? _].
  pose proof (refs_lookup _ _ _ Hj) as [? _]. pose proof (refs_lookup _ _ _ Hj') as [? _].
  assert (i = i') as <- by congruence. assert (j = j') as <- by congruence. congruence.
Qed.

(** A cost that is [None] or [0] leaves the network as it is, and so does a
    pair past the end of the cost list. *)
Lemma connect_all_falsy (pairs : list (RouterRef * RouterRef)) : ∀ costs costs' nodes,
  map Network.truthy costs = map Network.truthy costs' →
  foldl Network.connect_if nodes (zip pairs costs)
  = foldl Network.connect_if nodes (zip pairs costs').
Proof.
  induction pairs as [|[a b] pairs IH]; intros costs costs' nodes Heq; [done|].
  destruct costs as [|c costs], costs' as [|c' costs']; try done.
  injection Heq as Hc Heq. simpl. rewrite Hc. by apply IH.
Qed.

Lemma connect_all_padded (pairs : list (RouterRef * RouterRef)) : ∀ costs k nodes,
  foldl Network.connect_if nodes (zip pairs (costs ++ replicate k None))
  = foldl Network.connect_if nodes (zip pairs costs).
Proof.
  induction pairs as [|[a b] pairs IH]; intros costs k nodes; [done|].
  destruct costs as [|c costs]; [|simpl; apply IH].
  destruct k as [|k]; [done|]. simpl. rewrite (IH [] k). by destruct pairs.
Qed.

(** C4, as the program has it.  Construction validates nothing and never
    raises: whatever the names and the costs, it returns one router per
    name in the order given (equal names give distinct routers), with an
    empty table, and with the links of the costs that are neither [None]
    nor [0], as far as the shorter of the list of pairs and the list of
    costs reaches. *)
Theorem construction_never_fails node_names costs :
  ∃ nodes,
    Network.new node_names costs = Returned nodes ∧
    length nodes = length node_names ∧
    ∀ i name, node_names !! i = Some name →
      nodes !! i
      = Some {| self := {| oid := i; ref_name := name |};
                _links := flat_map (Network.links_of i)
                            (zip (Network.combinations (Network.refs node_names)) costs);
                _dv := [] |}.
Proof.
  exists (Network.init node_names costs). split_and!; [done|apply init_length|].
  intros i name. apply init_lookup.
Qed.

(** C4 as stated fails: a cost list that is too short, two routers of the
    same name, and a negative cost are all accepted, and a network is
    returned. *)
Lemma malformed_input_is_accepted :
  Network.new ["A"; "B"; "C"] [Some 1%Z]
  = Returned
      [{| self := {| oid := 0; ref_name := "A" |};
          _links := [{| _cost := 1; _destination := {| oid := 1; ref_name := "B" |} |}];
          _dv := [] |};
       {| self := {| oid := 1; ref_name := "B" |};
          _links := [{| _cost := 1; _destination := {| oid := 0; ref_name := "A" |} |}];
          _dv := [] |};
       {| self := {| oid := 2; ref_name := "C" |}; _links := []; _dv := [] |}] ∧
  Network.new ["A"; "A"] [Some 1%Z]
  = Returned
      [{| self := {| oid := 0; ref_name := "A" |};
          _links := [{| _cost := 1; _destination := {| oid := 1; ref_name := "A" |} |}];
          _dv := [] |};
       {| self := {| oid := 1; ref_name := "A" |};
          _links := [{| _cost := 1; _destination := {| oid := 0; ref_name := "A" |} |}];
          _dv := [] |}] ∧
  Network.new ["A"; "B"] [Some (-1)%Z]
  = Returned
      [{| self := {| oid := 0; ref_name := "A" |};
          _links := [{| _cost := -1; _destination := {| oid := 1; ref_name := "B" |} |}];
          _dv := [] |};
       {| self := {| oid := 1; ref_name := "B" |};
          _links := [{| _cost := -1; _destination := {| oid := 0; ref_name := "A" |} |}];
          _dv := [] |}].
Proof. by split_and!. Qed.

Lemma links_of_elem i item l :
  l ∈ Network.links_of i item →
  ∃ c, Network.truthy item.2 = Some c ∧
       ((oid item.1.1 = i ∧ l = {| _cost := c; _destination := item.1.2 |}) ∨
        (oid item.1.2 = i ∧ l = {| _cost := c; _destination := item.1.1 |})).
Proof.
  destruct item as [[a b] cost]. unfold Network.links_of. simpl.
  destruct (Network.truthy cost) as [c|]; [|by intros ?%elem_of_nil].
  intros [Hin|Hin]%elem_of_app; exists c; (split; [done|]).
  - left. destruct (decide (oid a = i)); [|by apply elem_of_nil in Hin].
    by apply list_elem_of_singleton in Hin.
  - right. destruct (decide (oid b = i)); [|by apply elem_of_nil in Hin].
    by apply list_elem_of_singleton in Hin.
Qed.

(** C10. A cost of [0] is treated as [None]: replacing every [0] of the
    cost list by [None] gives the same network, so the same links for every
    router; a cost list that stops early gives the network of the list
    filled up with [None]; nothing is raised; and a pair whose cost is [0],
    [None] or missing has no link in either direction. *)
Theorem zero_cost_is_no_link node_names costs :
  Network.new node_names costs
    = Network.new node_names (map (λ c, match c with Some 0%Z => None | _ => c end) costs) ∧
  (∀ k, Network.new node_names (costs ++ replicate k None) = Network.new node_names costs) ∧
  ∃ nodes,
    Network.new node_names costs = Returned nodes ∧
    ∀ p a b r l,
      Network.combinations (Network.refs node_names) !! p = Some (a, b) →
      costs !! p = Some (Some 0%Z) ∨ costs !! p = Some None ∨ costs !! p = None →
      r ∈ nodes → l ∈ _links r →
      ¬ (self r = a ∧ _destination l = b) ∧ ¬ (self r = b ∧ _destination l = a).
Proof.
  split_and!.
  - unfold Network.new, Network.init. f_equal. apply connect_all_falsy.
    rewrite <- list_fmap_compose. apply list_fmap_ext. intros _ [[| |]|] _; done.
  - intros k. unfold Network.new, Network.init. f_equal. apply connect_all_padded.
  - exists (Network.init node_names costs). split; [done|].
    intros p a b r l Hp Hcost Hr Hl.
    apply list_elem_of_lookup in Hr as [i Hi].
    assert (i < length node_names) as Hlt.
    { rewrite <- (init_length node_names costs). by eapply lookup_lt_Some. }
    apply lookup_lt_is_Some_2 in Hlt as [name Hname].
    rewrite (init_lookup _ costs _ _ Hname) in Hi. injection Hi as <-. simpl in *.
    apply list_elem_of_In, in_flat_map in Hl as (item & Hitem & Hl).
    apply list_elem_of_In in Hitem, Hl.
    apply list_elem_of_lookup in Hitem as [q Hq].
    apply lookup_zip_with_Some in Hq as (pair' & cost' & -> & Hq & Hcq).
    destruct pair' as [a' b'].
    apply links_of_elem in Hl as (c & Htruthy & Hl). simpl in *.
    assert ((a, b) ∈ Network.combinations (Network.refs node_names)) as Hab
      by (apply list_elem_of_lookup; eauto).
    assert ((a', b') ∈ Network.combinations (Network.refs node_names)) as Hab'
      by (apply list_elem_of_lookup; eauto).
    pose proof (refs_pairs_ordered _ _ _ Hab) as Hlt.
    pose proof (refs_pairs_ordered _ _ _ Hab') as Hlt'.
    assert (oid a = oid a' → oid b = oid b' → False) as Hsame.
    { intros Ha Hb. pose proof (refs_pairs_oid _ _ _ _ _ Hab Hab' Ha Hb) as Heq.
      rewrite Heq in Hp.
      pose proof (NoDup_lookup _ _ _ _
        (combinations_NoDup _ (refs_NoDup node_names)) Hp Hq) as ->.
      rewrite Hcq in Hcost. destruct Hcost as [[= ->]|[[= ->]|?]]; done. }
    split; intros [Hself Hdest]; subst a b || subst b a;
      destruct Hl as [[Ho ->]|[Ho ->]]; simpl in *; subst; simpl in *; try lia;
      by apply Hsame.
Qed.

Lemma truthy_Some cost c : Network.truthy cost = Some c → cost = Some c.
Proof.
  destruct cost as [c'|]; [|done]. simpl. destruct (c' =? 0)%Z; [done|]. by intros [= ->].
Qed.

(** The routers of a network constructed from unique names and costs that
    are positive or [None] are those of the data model: no link of a router
    leads to a router of the same name, every link has a positive cost, and
    the table is empty until [dvr_start] runs. *)
Lemma constructed_routers_well_formed node_names costs r :
  NoDup node_names →
  Forall (λ cost, match cost with Some c => (0 < c)%Z | None => True end) costs →
  r ∈ Network.init node_names costs →
  Forall (λ link, ref_name (_destination link) ≠ _name r) (_links r) ∧
  Forall (λ link, (0 < _cost link)%Z) (_links r) ∧
  _dv r = [].
Proof.
  intros Hnames Hcosts [i Hi]%list_elem_of_lookup.
  assert (i < length node_names) as Hlt.
  { rewrite <- (init_length node_names costs). by eapply lookup_lt_Some. }
  apply lookup_lt_is_Some_2 in Hlt as [name Hname].
  rewrite (init_lookup _ costs _ _ Hname) in Hi. injection Hi as <-.
  unfold _name. simpl.
  assert (∀ l, l ∈ flat_map (Network.links_of i)
                     (zip (Network.combinations (Network.refs node_names)) costs) →
               ref_name (_destination l) ≠ name ∧ (0 < _cost l)%Z) as Hlinks.
  { intros l (item & Hitem & Hl)%list_elem_of_In%in_flat_map.
    apply list_elem_of_In in Hitem, Hl.
    apply list_elem_of_lookup in Hitem as [q Hq].
    apply lookup_zip_with_Some in Hq as ([a b] & cost & -> & Hq & Hcq).
    apply links_of_elem in Hl as (c & Htruthy & Hl). simpl in *.
    apply truthy_Some in Htruthy as ->.
    assert (0 < c)%Z as Hc.
    { by apply (proj1 (Forall_lookup _ _) Hcosts q (Some c)). }
    assert ((a, b) ∈ Network.combinations (Network.refs node_names)) as Hab
      by (apply list_elem_of_lookup; eauto).
    apply combinations_elem in Hab as (ia & ib & Hiab & Ha & Hb).
    apply refs_lookup in Ha as [Hoa Hna], Hb as [Hob Hnb].
    destruct Hl as [[Ho ->]|[Ho ->]]; simpl; (split; [|done]); intros Heq.
    - rewrite Heq in Hnb. pose proof (NoDup_lookup _ _ _ _ Hnames Hname Hnb). lia.
    - rewrite Heq in Hna. pose proof (NoDup_lookup _ _ _ _ Hnames Hname Hna). lia. }
  split_and!; [| |done]; apply Forall_forall; intros l Hl; by apply Hlinks.
Qed.

(** The self-entry invariant on router A of the network of page 21, whose
    construction input is well formed, for the first tables of B and C. *)
Lemma self_entry_invariant_witness :
  Dict.get "A" (_dv (Router.dvr_start (Page21.node 0)).1) = Some (0%Z, None) ∧
  Dict.get "A" (_dv (foldl Router.deliver (Router.dvr_start (Page21.node 0)).1
                       [("B", _dv (Page21.router 1)); ("C", _dv (Page21.router 2))]))
    = Some (0%Z, None).
Proof.
  destruct (constructed_routers_well_formed Page21.node_names Page21.costs
              (Page21.node 0)) as (Hnames & Hcosts & Hdv).
  - apply (bool_decide_unpack _). by vm_compute.
  - unfold Page21.costs. by repeat constructor.
  - apply (list_elem_of_lookup_2 _ 0). by vm_compute.
  - apply (self_entry_invariant (Page21.node 0)
             [("B", _dv (Page21.router 1)); ("C", _dv (Page21.router 2))]).
    + exact Hnames.
    + eapply Forall_impl; [exact Hcosts|]. intros link. simpl. lia.
    + rewrite Hdv. constructor.
    + apply (bool_decide_unpack _). by vm_compute.
Defined.

(** C5 as stated fails for routers the construction accepts.  Two routers
    of the same name A and a link of cost 1: neighbour discovery stores the
    neighbour under the name of the router, and [dvr_start] leaves
    [(1, "A")] where the entry for the router itself should be.  Two routers
    A and B and a link of cost -3: A starts, and a table of B none of whose
    costs is negative, offering A at cost 1, overwrites the entry of A for
    itself with [(-2, "B")]. *)
Lemma self_entry_is_overwritten :
  (λ r, _dv (Router.dvr_start r).1) <$> Network.init ["A"; "A"] [Some 1%Z] !! 0
    = Some [("A", (1%Z, Some "A"))] ∧
  (λ r, _dv (Router.dvr_start r).1) <$> Network.init ["A"; "B"] [Some (-3)%Z] !! 0
    = Some [("A", (0%Z, None)); ("B", ((-3)%Z, Some "B"))] ∧
  (λ r, _dv (Router.deliver (Router.dvr_start r).1
               ("B", [("B", (0%Z, None)); ("A", (1%Z, Some "A"))])))
    <$> Network.init ["A"; "B"] [Some (-3)%Z] !! 0
    = Some [("A", ((-2)%Z, Some "B")); ("B", ((-3)%Z, Some "B"))].
Proof. by split_and!; vm_compute. Qed.

End Validation.

(** ** The running network *)
Section Running.
Import Sim.
Implicit Types (st : state) (th : thread) (ev : event) (evs : list event).

Lemma perform_nodes i st ev : nodes (perform i st ev) = nodes st.
Proof. by destruct ev. Qed.

Lemma perform_started i st ev : started (perform i st ev) = started st.
Proof. by destruct ev. Qed.

Lemma perform_all_nodes i evs : ∀ st, nodes (foldl (perform i) st evs) = nodes st.
Proof.
  induction evs as [|ev evs IH]; intros st; [done|]. simpl.
  by rewrite IH, perform_nodes.
Qed.

Lemma perform_all_started i evs : ∀ st, started (foldl (perform i) st evs) = started st.
Proof.
  induction evs as [|ev evs IH]; intros st; [done|]. simpl.
  by rewrite IH, perform_started.
Qed.

(** A property of threads that holds of a sleeping thread and that
    [notify_all] cannot break holds of all threads after an effect. *)
Lemma perform_threads (P : thread → Prop) i st ev :
  (∀ th, P th → P (notify i th)) →
  (∀ link data due, P {| t_link := link; t_data := data; t_due := due; t_phase := Sleeping |}) →
  Forall P (threads st) → Forall P (threads (perform i st ev)).
Proof.
  intros Hnotify Hnew Hths. destruct ev; simpl; [done| |].
  - apply Forall_app. split; [done|]. by repeat constructor.
  - apply Forall_fmap. eapply Forall_impl; [done|]. intros th. apply Hnotify.
Qed.

Lemma perform_all_threads (P : thread → Prop) i evs : ∀ st,
  (∀ th, P th → P (notify i th)) →
  (∀ link data due, P {| t_link := link; t_data := data; t_due := due; t_phase := Sleeping |}) →
  Forall P (threads st) → Forall P (threads (foldl (perform i) st evs)).
Proof.
  induction evs as [|ev evs IH]; intros st Hnotify Hnew Hths; [done|]. simpl.
  apply IH; [done..|]. by apply perform_threads.
Qed.

Lemma gated_notify n i th : gated n th → gated n (notify i th).
Proof.
  unfold gated, notify. destruct (t_phase th) eqn:Hp; simpl; rewrite ?Hp; try done.
  by destruct (dest th =? i); simpl; rewrite ?Hp.
Qed.

(** After [notify_all] on router [i] no thread waits for it. *)
Lemma gated_notified i th : gated i th → gated (S i) (notify i th).
Proof.
  unfold gated, notify. destruct (t_phase th) eqn:Hp; simpl; rewrite ?Hp; try done; [|lia].
  destruct (Nat.eqb_spec (dest th) i); simpl; rewrite ?Hp; [done|lia].
Qed.

Lemma gated_with_phase n p th :
  match p with Iterating _ _ _ _ => dest th < n | Waiting => n ≤ dest th | _ => True end →
  gated n (with_phase p th).
Proof. done. Qed.

Lemma set_phase_gated st t p n :
  Forall (gated n) (threads st) →
  (∀ th, threads st !! t = Some th →
     match p with Iterating _ _ _ _ => dest th < n | Waiting => n ≤ dest th | _ => True end) →
  Forall (gated n) (threads (set_phase st t p)).
Proof.
  intros Hths Hp. simpl. apply Forall_alter; [done|].
  intros th Ht _. apply gated_with_phase. by apply Hp.
Qed.

Lemma relax_mem link_cost sender dv changed item name :
  Dict.mem name dv = true →
  Dict.mem name (Router.relax link_cost sender (dv, changed) item).1 = true.
Proof.
  intros Hm. destruct item as [node_name [cost next_hop]]. simpl.
  destruct (Dict.get node_name dv) as [[known hop]|]; simpl; [|by apply mem_set].
  destruct (link_cost + cost <? known)%Z; simpl; [by apply mem_set|done].
Qed.

Lemma discover_mem links : ∀ dv name,
  Dict.mem name dv = true → Dict.mem name (foldl Router.discover dv links) = true.
Proof.
  induction links as [|link links IH]; intros dv name Hm; [done|]. simpl.
  apply IH. unfold Router.discover. simpl. by apply mem_set.
Qed.

Lemma dvr_start_mem r : Dict.mem (_name r) (_dv (Router.dvr_start r).1) = true.
Proof.
  simpl. apply discover_mem. apply mem_true. eexists. apply get_set_eq.
Qed.

Lemma inv_boot nodes0 : Forall (λ r, _dv r = []) nodes0 → inv (boot nodes0).
Proof.
  intros Hfresh. unfold inv. simpl. split_and!; [lia| |lia|constructor].
  intros i r _ Hi. by apply (proj1 (Forall_lookup _ _) Hfresh i r).
Qed.

Lemma inv_start st st' : inv st → start st = Some st' → inv st'.
Proof.
  intros (Hlen & Hfresh & Hself & Hths). unfold start.
  destruct (nodes st !! started st) as [r|] eqn:Hr; [|done].
  destruct (held st (started st)); [done|].
  destruct (Router.dvr_start r) as [r' evs] eqn:Hstart. intros [= <-].
  pose proof (lookup_lt_Some _ _ _ Hr) as Hlt.
  assert (evs = (map Stdout (log_dv (_name r) (Dict.set (_name r) (0%Z, None) (_dv r)))
                 ++ Router._broadcast_dv r') ++ [NotifyAll]) as ->.
  { unfold Router.dvr_start in Hstart. injection Hstart as <- <-. by rewrite <- app_assoc. }
  assert (r' = (Router.dvr_start r).1) as Hr' by (by rewrite Hstart).
  unfold inv. rewrite !perform_all_nodes, !perform_all_started. simpl.
  rewrite length_insert. split_and!; [lia| | |].
  - intros i r0 Hi. rewrite list_lookup_insert_ne by lia. apply Hfresh. lia.
  - intros i r0 Hi. destruct (decide (i = started st)) as [->|Hne].
    + rewrite list_lookup_insert_eq by done. intros [= <-]. subst r'. exact (dvr_start_mem r).
    + rewrite list_lookup_insert_ne by done. apply Hself. lia.
  - rewrite foldl_app. cbn [foldl perform threads]. apply Forall_fmap.
    eapply Forall_impl; [|intros th; apply gated_notified].
    apply perform_all_threads; [intros th; apply gated_notify|done|done].
Qed.

Lemma inv_wake st t st' : inv st → wake st t = Some st' → inv st'.
Proof.
  intros (Hlen & Hfresh & Hself & Hths). unfold wake.
  destruct (threads st !! t) as [th|] eqn:Ht; [|done].
  destruct (t_phase th) eqn:Hp; try done.
  destruct (_cost (t_link th) <? 0)%Z; intros [= <-]; unfold inv; simpl;
    (split_and!; [done..|]); by apply Forall_alter.
Qed.

Lemma inv_enter st t st' : inv st → enter st t = Some st' → inv st'.
Proof.
  intros (Hlen & Hfresh & Hself & Hths). unfold enter.
  destruct (threads st !! t) as [th|] eqn:Ht; [|done].
  destruct (t_phase th) eqn:Hp; try done.
  destruct (nodes st !! dest th) as [r|] eqn:Hr; [|done].
  destruct (held st (dest th)); [done|].
  destruct (Dict.mem (_name r) (_dv r)) eqn:Hmem; simpl.
  - assert (dest th < started st) as Hlt.
    { destruct (decide (dest th < started st)) as [|Hge]; [done|].
      rewrite (Hfresh (dest th) r) in Hmem by (done || lia). done. }
    destruct (t_data th) as [sender received].
    destruct (Dict.get sender (_dv r)) as [[link_cost hop]|].
    + destruct (nodes st !! received) as [src|]; [|done]. intros [= <-].
      unfold inv. split_and!; [done..|]. apply set_phase_gated; [done|].
      intros th' Ht'. rewrite Ht in Ht'. by injection Ht' as <-.
    + intros [= <-]. unfold inv. split_and!; [done..|]. by apply set_phase_gated.
  - intros [= <-]. unfold inv. split_and!; [done..|]. apply set_phase_gated; [done|].
    intros th' Ht'. rewrite Ht in Ht'. injection Ht' as <-.
    destruct (decide (started st ≤ dest th)) as [|Hlt]; [done|].
    rewrite (Hself (dest th) r) in Hmem by (done || lia). done.
Qed.

Lemma inv_iter st t st' : inv st → iter st t = Some st' → inv st'.
Proof.
  intros (Hlen & Hfresh & Hself & Hths). unfold iter.
  destruct (threads st !! t) as [th|] eqn:Ht; [|done].
  destruct (t_phase th) eqn:Hp; try done.
  destruct (t_data th) as [sender received].
  destruct (nodes st !! dest th) as [r|] eqn:Hr; [|done].
  destruct (nodes st !! received) as [src|] eqn:Hsrc; [|done].
  assert (dest th < started st) as Hlt.
  { pose proof (proj1 (Forall_lookup _ _) Hths t th Ht) as Hg.
    unfold gated in Hg. by rewrite Hp in Hg. }
  destruct (negb (length (_dv src) =? used)).
  { intros [= <-]. unfold inv. split_and!; [done..|]. by apply set_phase_gated. }
  destruct (_dv src !! pos) as [item|].
  - destruct (Router.relax link_cost sender (_dv r, changed) item) as [dv changed'] eqn:Hrelax.
    intros [= <-]. unfold inv. simpl. rewrite length_insert. split_and!; [done| | |].
    + intros i r0 Hi. rewrite list_lookup_insert_ne by lia. by apply Hfresh.
    + intros i r0 Hi. destruct (decide (i = dest th)) as [->|Hne].
      * rewrite list_lookup_insert_eq by (by eapply lookup_lt_Some). intros [= <-].
        replace dv with (Router.relax link_cost sender (_dv r, changed) item).1
          by (by rewrite Hrelax).
        apply (relax_mem link_cost sender (_dv r) changed item (_name r)).
        by apply (Hself (dest th)).
      * rewrite list_lookup_insert_ne by done. by apply Hself.
    + apply Forall_alter; [done|]. intros th' Ht' _. rewrite Ht in Ht'. by injection Ht' as <-.
  - intros [= <-]. unfold inv. rewrite perform_all_nodes, perform_all_started.
    split_and!; [done..|].
    apply perform_all_threads; [intros th'; apply gated_notify|done|].
    by apply set_phase_gated.
Qed.

Lemma inv_reachable nodes0 st :
  Forall (λ r, _dv r = []) nodes0 → reachable nodes0 st → inv st.
Proof.
  intros Hfresh. induction 1 as [|st a st' _ IH Hstep]; [by apply inv_boot|].
  destruct a; simpl in Hstep;
    eauto using inv_start, inv_wake, inv_enter, inv_iter.
Qed.

Lemma run_reachable nodes0 schedule : ∀ st st',
  reachable nodes0 st → run st schedule = Some st' → reachable nodes0 st'.
Proof.
  induction schedule as [|a schedule IH]; intros st st' Hst; simpl; [by intros [= <-]|].
  destruct (step st a) as [st1|] eqn:Hstep; [|done].
  apply IH. by eapply reachable_step.
Qed.

Lemma after_reachable nodes0 schedule : reachable nodes0 (after nodes0 schedule).
Proof.
  unfold after. destruct (run (boot nodes0) schedule) as [st|] eqn:Hrun; simpl.
  - eapply run_reachable; [|done]. constructor.
  - constructor.
Qed.

(** Effects other than [notify_all] leave the threads that exist alone. *)
Lemma perform_all_lookup i evs : ∀ st t th,
  Forall (λ ev, ev ≠ NotifyAll) evs →
  threads st !! t = Some th → threads (foldl (perform i) st evs) !! t = Some th.
Proof.
  induction evs as [|ev evs IH]; intros st t th Hevs Ht; [done|].
  apply Forall_cons in Hevs as [Hev Hevs]. simpl. apply IH; [done|].
  destruct ev; simpl; [done| |done]. by apply lookup_app_l_Some.
Qed.

Lemma dvr_start_effects r :
  ∃ evs, (Router.dvr_start r).2 = evs ++ [NotifyAll] ∧ Forall (λ ev, ev ≠ NotifyAll) evs.
Proof.
  eexists. split; [unfold Router.dvr_start; cbn [snd]; by rewrite app_assoc|].
  apply Forall_app. split; apply Forall_fmap, Forall_true; done.
Qed.

(** C8. In every state the running network can reach from routers with
    empty tables: (a) a router has the entry for itself exactly when the
    main thread has completed its [dvr_start]; (b) a thread that is inside
    the loop of [receive] runs on a router whose [dvr_start] has completed,
    and a thread that waits does so on a router that has not been started;
    (c) a thread that enters [receive] on a router not yet started is left
    waiting and the tables are as they were; (d) a waiting thread takes no
    step of its own, it does not poll; (e) the [dvr_start] of its router,
    which ends with [notify_all], makes it runnable again. *)
Theorem receive_waits_for_start nodes0 st :
  Forall (λ r, _dv r = []) nodes0 →
  reachable nodes0 st →
  (∀ i r, nodes st !! i = Some r →
     (Dict.mem (_name r) (_dv r) = true ↔ i < started st)) ∧
  (∀ t th, threads st !! t = Some th →
     match t_phase th with
     | Iterating _ _ _ _ =>
         dest th < started st ∧
         ∃ r, nodes st !! dest th = Some r ∧ Dict.mem (_name r) (_dv r) = true
     | Waiting => started st ≤ dest th
     | _ => True
     end) ∧
  (∀ t th st', threads st !! t = Some th → started st ≤ dest th →
     step st (Enter t) = Some st' →
     t_phase <$> threads st' !! t = Some Waiting ∧ nodes st' = nodes st) ∧
  (∀ t th, threads st !! t = Some th → t_phase th = Waiting →
     step st (Wake t) = None ∧ step st (Enter t) = None ∧ step st (Iter t) = None) ∧
  (∀ t th st', threads st !! t = Some th → t_phase th = Waiting →
     dest th = started st → step st Start = Some st' →
     t_phase <$> threads st' !! t = Some Arrived).
Proof.
  intros Hempty Hreach.
  destruct (inv_reachable nodes0 st Hempty Hreach) as (Hlen & Hfresh & Hself & Hths).
  split_and!.
  - intros i r Hi. split; [|by intros; eapply Hself].
    intros Hmem. destruct (decide (i < started st)) as [|Hge]; [done|].
    rewrite (Hfresh i r) in Hmem by (done || lia). done.
  - intros t th Ht. pose proof (proj1 (Forall_lookup _ _) Hths t th Ht) as Hg.
    unfold gated in Hg. destruct (t_phase th); try done. split; [done|].
    destruct (lookup_lt_is_Some_2 (nodes st) (dest th)) as [r Hr]; [lia|].
    exists r. split; [done|]. by apply (Hself (dest th)).
  - intros t th st' Ht Hge. simpl. unfold enter. rewrite Ht.
    destruct (t_phase th); try done.
    destruct (nodes st !! dest th) as [r|] eqn:Hr; [|done].
    destruct (held st (dest th)); [done|].
    rewrite (Hfresh (dest th) r Hge Hr). simpl. intros [= <-]. simpl.
    by rewrite list_lookup_alter_eq, Ht.
  - intros t th Ht Hp. simpl. unfold wake, enter, iter. by rewrite Ht, Hp.
  - intros t th st' Ht Hp Hd. simpl. unfold start.
    destruct (nodes st !! started st) as [r|] eqn:Hr; [|done].
    destruct (held st (started st)); [done|].
    destruct (dvr_start_effects r) as (evs0 & Hevs & Hquiet).
    destruct (Router.dvr_start r) as [r' evs]. simpl in Hevs. subst evs.
    rewrite foldl_app. intros [= <-].
    cbn [foldl perform threads]. rewrite list_lookup_fmap.
    erewrite perform_all_lookup; [|exact Hquiet|exact Ht].
    simpl. unfold notify. rewrite Hp, Hd, Nat.eqb_refl. done.
Qed.

(** With two routers: the thread that carries the table of A wakes and
    enters [receive] on B before the main thread has started B. *)
Lemma receive_waits_for_start_witness :
  let st := after Pair.network [Start; Wake 0; Enter 0] in
  t_phase <$> threads st !! 0 = Some Waiting ∧
  step st (Iter 0) = None ∧
  t_phase <$> threads (after Pair.network [Start; Wake 0; Enter 0; Start]) !! 0
    = Some Arrived.
Proof.
  cbn zeta.
  destruct (receive_waits_for_start Pair.network
              (after Pair.network [Start; Wake 0; Enter 0]))
    as (_ & _ & _ & Hwaits & Hreleased).
  - apply (bool_decide_unpack _). by vm_compute.
  - apply after_reachable.
  - split_and!.
    + by vm_compute.
    + eapply Hwaits; by vm_compute.
    + eapply Hreleased; by vm_compute.
Defined.

Lemma quiescent_stuck st a : quiescent st = true → step st a = None.
Proof.
  unfold quiescent. intros [Hmain Hths]%andb_prop.
  apply Nat.eqb_eq in Hmain. rewrite forallb_forall in Hths.
  assert (∀ t th, threads st !! t = Some th → over th = true) as Hover.
  { intros t th Ht. apply Hths, list_elem_of_In, list_elem_of_lookup. eauto. }
  destruct a as [|t|t|t]; simpl.
  - unfold start. by rewrite Hmain, (lookup_ge_None_2 (nodes st)).
  - unfold wake. destruct (threads st !! t) as [th|] eqn:Ht; [|done].
    apply Hover in Ht. unfold over in Ht. by destruct (t_phase th).
  - unfold enter. destruct (threads st !! t) as [th|] eqn:Ht; [|done].
    apply Hover in Ht. unfold over in Ht. by destruct (t_phase th).
  - unfold iter. destruct (threads st !! t) as [th|] eqn:Ht; [|done].
    apply Hover in Ht. unfold over in Ht. by destruct (t_phase th).
Qed.

(** The network at the end of [dvr.py], run without interleaving its
    threads, comes to rest after 240 steps with every cost equal to the
    shortest-path cost computed offline. *)
Example serial_run_reaches_shortest_paths :
  ∃ st,
    run_punctual (boot Page21.network) (serial 300 (boot Page21.network)) = Some st ∧
    quiescent st = true ∧
    length (serial 300 (boot Page21.network)) = 240 ∧
    _dv <$> nodes st !! 0
      = Some [("A", (0%Z, None)); ("B", (1%Z, Some "B")); ("C", (3%Z, Some "B"));
              ("D", (2%Z, Some "B")); ("E", (4%Z, Some "B"))] ∧
    forallb (λ r,
        forallb (λ d,
            bool_decide (fst <$> Dict.get d (_dv r)
                         = Dict.get d (Offline.shortest Page21.node_names Page21.costs
                                         (_name r))))
          Page21.node_names)
      (nodes st) = true.
Proof. eexists. split; [by vm_compute|]. by split_and!; vm_compute. Qed.

(** C3 fails on the program.  A datagram holds the dictionary of its
    sender, not a copy: while the datagram of A to C is in flight (its
    thread sleeps from the broadcast of A to five units later), A reads the
    table of B and lowers its cost to C from 5 to 2, and the content of the
    datagram changes with it. *)
Theorem datagram_in_flight_follows_sender :
  let sent := after Triangle.network Triangle.sent in
  let later := after Triangle.network Triangle.later in
  run_punctual (boot Triangle.network) Triangle.later = Some later ∧
  ∃ th, threads sent !! 1 = Some th ∧ threads later !! 1 = Some th ∧
        t_phase th = Sleeping ∧ t_data th = ("A", 0) ∧ dest th = 2 ∧
        payload sent (t_data th)
          = Some [("A", (0%Z, None)); ("B", (1%Z, Some "B")); ("C", (5%Z, Some "C"))] ∧
        payload later (t_data th)
          = Some [("A", (0%Z, None)); ("B", (1%Z, Some "B")); ("C", (2%Z, Some "B"))].
Proof.
  cbn zeta. split; [by vm_compute|]. eexists. by split_and!; vm_compute.
Qed.

(** C2 fails on the program: the line Q-R-S-T, every link of cost 1, has a
    schedule, in which every sleep lasts its cost, that ends with nothing
    left to run while Q has no entry for T, which is 3 away.  The thread in
    which R learns T dies of the [RuntimeError] of an iterator over a
    dictionary that grew, between the update of the table of R and the
    broadcast that would have told Q. *)
Theorem line_of_four_misses_a_route :
  ∃ st,
    run_punctual (boot Line4.network) Line4.schedule = Some st ∧
    quiescent st = true ∧
    (∀ a, step st a = None) ∧
    t_phase <$> threads st !! 3
      = Some (Died (RuntimeError "dictionary changed size during iteration")) ∧
    map _dv (nodes st)
      = [[("Q", (0%Z, None)); ("R", (1%Z, Some "R")); ("S", (2%Z, Some "R"))];
         [("R", (0%Z, None)); ("Q", (1%Z, Some "Q")); ("S", (1%Z, Some "S"));
          ("T", (2%Z, Some "S"))];
         [("S", (0%Z, None)); ("R", (1%Z, Some "R")); ("T", (1%Z, Some "T"));
          ("Q", (2%Z, Some "R"))];
         [("T", (0%Z, None)); ("S", (1%Z, Some "S")); ("R", (2%Z, Some "S"));
          ("Q", (3%Z, Some "S"))]] ∧
    Offline.shortest Line4.node_names Line4.costs "Q"
      = [("Q", 0%Z); ("R", 1%Z); ("S", 2%Z); ("T", 3%Z)].
Proof.
  eexists. split; [by vm_compute|].
  split_and!; [by vm_compute|intros a; by apply quiescent_stuck|by vm_compute..].
Qed.

(** C1 fails on the program.  The datagram [receive] is given holds the
    dictionary of its sender, and the loop reads it while the sender writes
    to it.  On the line Q-R-S-T, every sleep lasting its cost: R enters
    [receive] on the datagram of S, with cost 1 to S and no entry for T, and
    reads the first item; S stores a route to Q; the iterator of R then
    raises [RuntimeError].  The dictionary of S holds the item
    [("T", (1, "T"))] from the entry of R into [receive] to its end, so that
    the rule asks for the entry [(2, "S")] for T, which is what
    [Router.receive] gives on the table of S; the call ends and R has no
    entry for T. *)
Theorem receive_cut_short_skips_an_item :
  let entered := after Line4.network Cut.entered in
  let ended := after Line4.network Cut.schedule in
  run_punctual (boot Line4.network) Cut.schedule = Some ended ∧
  (λ th, (t_data th, dest th, t_phase th)) <$> threads entered !! 3
    = Some (("S", 2), 1, Iterating 1 false 0 3) ∧
  payload entered ("S", 2)
    = Some [("S", (0%Z, None)); ("R", (1%Z, Some "R")); ("T", (1%Z, Some "T"))] ∧
  _dv <$> nodes entered !! 1
    = Some [("R", (0%Z, None)); ("Q", (1%Z, Some "Q")); ("S", (1%Z, Some "S"))] ∧
  (λ r, Dict.get "T"
          (_dv (Router.deliver r
                  ("S", [("S", (0%Z, None)); ("R", (1%Z, Some "R"));
                         ("T", (1%Z, Some "T"))]))))
    <$> nodes entered !! 1
    = Some (Some (2%Z, Some "S")) ∧
  payload ended ("S", 2)
    = Some [("S", (0%Z, None)); ("R", (1%Z, Some "R")); ("T", (1%Z, Some "T"));
            ("Q", (2%Z, Some "R"))] ∧
  t_phase <$> threads ended !! 3
    = Some (Died (RuntimeError "dictionary changed size during iteration")) ∧
  _dv <$> nodes ended !! 1
    = Some [("R", (0%Z, None)); ("Q", (1%Z, Some "Q")); ("S", (1%Z, Some "S"))].
Proof. cbn zeta. by split_and!; vm_compute. Qed.

(** C7 fails on the program: a table that has changed is not always
    broadcast.  On the line Q-R-S-T, in the run of [Line4.schedule], every
    sleep lasting its cost: the thread that carries the datagram of S to R
    stores the route to T in the table of R, and the iterator raises before
    the loop ends, so that [if changed:] is never reached.  When nothing is
    left to run, R holds the route to T; of the logs on the console only
    the one of its [dvr_start] is of R, and of the threads started since
    [Network.dvr_start] (the first six) none carries the table of R.
    [Router.receive], on the table of S as R found it, gives the log of the
    four entries and a send on each of the two links of R. *)
Theorem changed_table_is_not_broadcast :
  let before := after Line4.network (take 15 Line4.schedule) in
  let dead := after Line4.network (take 26 Line4.schedule) in
  let final := after Line4.network Line4.schedule in
  run_punctual (boot Line4.network) Line4.schedule = Some final ∧
  quiescent final = true ∧
  _dv <$> nodes before !! 1
    = Some [("R", (0%Z, None)); ("Q", (1%Z, Some "Q")); ("S", (1%Z, Some "S"))] ∧
  (λ th, (t_data th, dest th, t_phase th)) <$> threads before !! 3
    = Some (("S", 2), 1, Arrived) ∧
  payload before ("S", 2)
    = Some [("S", (0%Z, None)); ("R", (1%Z, Some "R")); ("T", (1%Z, Some "T"))] ∧
  _dv <$> nodes dead !! 1
    = Some [("R", (0%Z, None)); ("Q", (1%Z, Some "Q")); ("S", (1%Z, Some "S"));
            ("T", (2%Z, Some "S"))] ∧
  t_phase <$> threads dead !! 3
    = Some (Died (RuntimeError "dictionary changed size during iteration")) ∧
  _dv <$> nodes final !! 1
    = Some [("R", (0%Z, None)); ("Q", (1%Z, Some "Q")); ("S", (1%Z, Some "S"));
            ("T", (2%Z, Some "S"))] ∧
  filter (λ line, String.prefix "DV of router" line = true) (console final)
    = ["DV of router Q:"; "DV of router R:"; "DV of router S:"; "DV of router T:";
       "DV of router Q:"; "DV of router S:"; "DV of router T:"] ∧
  map (λ th, (t_data th).1) (threads final)
    = ["Q"; "R"; "R"; "S"; "S"; "T"; "Q"; "S"; "S"; "T"] ∧
  (λ r, Router.receive r
          ("S", [("S", (0%Z, None)); ("R", (1%Z, Some "R")); ("T", (1%Z, Some "T"))]))
    <$> nodes before !! 1
    = (λ r,
         let r' := Router.with_dv r
                     [("R", (0%Z, None)); ("Q", (1%Z, Some "Q"));
                      ("S", (1%Z, Some "S")); ("T", (2%Z, Some "S"))] in
         Returned (r', map Stdout (log_dv "R" (_dv r')) ++ Router._broadcast_dv r'))
      <$> nodes before !! 1.
Proof. cbn zeta. by split_and!; vm_compute. Qed.

(** *** A thread that is not interleaved runs [Router.receive] *)

(** The state of a thread of [receive] on router [i] that has been through
    [pos] items of a table, with what it has stored so far. *)
Lemma iter_item st t th i r src sender received link_cost changed pos dv item :
  threads st !! t = Some th → dest th = i → t_data th = (sender, received) →
  nodes st !! i = Some r → nodes st !! received = Some src → received ≠ i →
  _dv src !! pos = Some item →
  let used := length (_dv src) in
  iter (set_phase (set_node st i (Router.with_dv r dv)) t
          (Iterating link_cost changed pos used)) t
  = let st1 := Router.relax link_cost sender (dv, changed) item in
    Some (set_phase (set_node st i (Router.with_dv r st1.1)) t
            (Iterating link_cost st1.2 (S pos) used)).
Proof.
  intros Ht Hd Hdata Hr Hsrc Hne Hitem used. unfold iter. cbn [threads set_phase set_node].
  rewrite list_lookup_alter_eq, Ht. cbn [fmap option_fmap option_map with_phase t_phase t_data].
  change (dest (with_phase _ th)) with (dest th). rewrite Hd, Hdata.
  cbn [nodes set_node set_phase]. rewrite list_lookup_insert_eq by (by eapply lookup_lt_Some).
  rewrite list_lookup_insert_ne, Hsrc by done. fold used. rewrite Nat.eqb_refl. cbn [negb].
  rewrite Hitem. cbn [Router.with_dv _dv].
  destruct (Router.relax link_cost sender (dv, changed) item) as [dv1 ch1]. cbn zeta.
  f_equal. unfold set_phase, set_node. cbn [nodes threads console started clock].
  rewrite list_insert_insert_eq, list_alter_alter_eq. done.
Qed.

Lemma iter_end st t th i r src sender received link_cost changed dv :
  threads st !! t = Some th → dest th = i → t_data th = (sender, received) →
  nodes st !! i = Some r → nodes st !! received = Some src → received ≠ i →
  let used := length (_dv src) in
  iter (set_phase (set_node st i (Router.with_dv r dv)) t
          (Iterating link_cost changed used used)) t
  = Some (foldl (perform i)
            (set_phase (set_node st i (Router.with_dv r dv)) t Finished)
            (Router.after_loop (Router.with_dv r dv) changed)).
Proof.
  intros Ht Hd Hdata Hr Hsrc Hne used. unfold iter. cbn [threads set_phase set_node].
  rewrite list_lookup_alter_eq, Ht. cbn [fmap option_fmap option_map with_phase t_phase t_data].
  change (dest (with_phase _ th)) with (dest th). rewrite Hd, Hdata.
  cbn [nodes set_node set_phase]. rewrite list_lookup_insert_eq by (by eapply lookup_lt_Some).
  rewrite list_lookup_insert_ne, Hsrc by done. fold used. rewrite Nat.eqb_refl. cbn [negb].
  rewrite (lookup_ge_None_2 (_dv src)) by done.
  f_equal. f_equal. unfold set_phase, set_node. cbn [nodes threads console started clock].
  by rewrite list_alter_alter_eq.
Qed.

Lemma iter_loop st t th i r src sender received link_cost :
  threads st !! t = Some th → dest th = i → t_data th = (sender, received) →
  nodes st !! i = Some r → nodes st !! received = Some src → received ≠ i →
  ∀ rest done dv changed,
    _dv src = done ++ rest →
    run (set_phase (set_node st i (Router.with_dv r dv)) t
           (Iterating link_cost changed (length done) (length (_dv src))))
        (replicate (S (length rest)) (Iter t))
    = let st1 := foldl (Router.relax link_cost sender) (dv, changed) rest in
      Some (foldl (perform i)
              (set_phase (set_node st i (Router.with_dv r st1.1)) t Finished)
              (Router.after_loop (Router.with_dv r st1.1) st1.2)).
Proof.
  intros Ht Hd Hdata Hr Hsrc Hne.
  induction rest as [|item rest IH]; intros done dv changed Hsplit.
  - cbn [length replicate run step foldl]. rewrite app_nil_r in Hsplit. rewrite <- Hsplit.
    by erewrite iter_end.
  - cbn [length replicate run step foldl].
    erewrite iter_item; [|done..|rewrite Hsplit; by apply list_lookup_middle].
    cbn zeta. destruct (Router.relax link_cost sender (dv, changed) item) as [dv1 ch1].
    cbn [fst snd]. specialize (IH (done ++ [item]) dv1 ch1).
    rewrite length_app, Nat.add_1_r in IH. apply IH. by rewrite <- app_assoc.
Qed.

(** X21. A thread that has arrived at a router other than the sender, finds
    the lock free and runs [receive] to its end without any other thread
    taking a step, leaves the router and performs the effects that
    [Router.receive] gives on the table of the sender as it then is. *)
Lemma whole_is_receive st t th r src sender received r' evs :
  threads st !! t = Some th → t_phase th = Arrived → t_data th = (sender, received) →
  nodes st !! dest th = Some r → nodes st !! received = Some src →
  received ≠ dest th → held st (dest th) = false →
  Router.receive r (sender, _dv src) = Returned (r', evs) →
  run st (whole t (length (_dv src)))
  = Some (foldl (perform (dest th)) (set_phase (set_node st (dest th) r') t Finished) evs).
Proof.
  intros Ht Hp Hdata Hr Hsrc Hne Hfree Hrecv.
  apply receive_inv in Hrecv as (link_cost & hop & Hmem & Hsender & Hr' & Hevs).
  cbn [fst snd] in *. unfold whole. cbn [run step]. unfold enter.
  rewrite Ht, Hp, Hr, Hfree, Hmem, Hdata, Hsender, Hsrc. cbn [negb].
  pose proof (iter_loop st t th (dest th) r src sender received link_cost
                Ht eq_refl Hdata Hr Hsrc Hne (_dv src) [] (_dv r) false eq_refl) as Hloop.
  cbn [length] in Hloop. rewrite with_dv_id in Hloop.
  assert (set_node st (dest th) r = st) as Hst.
  { destruct st. unfold set_node. simpl in *. by rewrite list_insert_id. }
  rewrite Hst in Hloop. rewrite Hloop. cbn zeta in *. by rewrite Hevs, Hr'.
Qed.

End Running.

(** * Further properties of the code *)

(** ** [Router._find_neighbors] and [Router.dvr_start] *)
Section Discovery.
Implicit Types (r : Router) (dv : DistanceVector) (link : Link).

Lemma set_absent_app {V : Type} k (v : V) d :
  Dict.get k d = None → Dict.set k v d = d ++ [(k, v)].
Proof.
  induction d as [|[k' v'] d IH]; simpl; [done|].
  destruct (String.eqb_spec k k'); [done|]. intros H. by rewrite IH.
Qed.

(** X1. Neighbour discovery overwrites: whatever the table held, the entry
    for the name of a neighbour becomes the cost of the last link that leads
    to a router of that name, with that name as next hop; entries for names
    that no link leads to are left as they were, and neither the links nor
    the identity of the router change. *)
Theorem find_neighbors_entries r :
  self (Router._find_neighbors r) = self r ∧
  _links (Router._find_neighbors r) = _links r ∧
  (∀ name, Forall (λ link, ref_name (_destination link) ≠ name) (_links r) →
     Dict.get name (_dv (Router._find_neighbors r)) = Dict.get name (_dv r)) ∧
  (∀ before link after,
     _links r = before ++ link :: after →
     Forall (λ l, ref_name (_destination l) ≠ ref_name (_destination link)) after →
     Dict.get (ref_name (_destination link)) (_dv (Router._find_neighbors r))
     = Some (_cost link, Some (ref_name (_destination link)))).
Proof.
  split_and!; [done|done| |].
  - intros name Hname. simpl. by apply find_neighbors_get_other.
  - intros before link after Hsplit Hlast. simpl. rewrite Hsplit, foldl_app. cbn [foldl].
    rewrite find_neighbors_get_other by done. unfold Router.discover. simpl.
    apply get_set_eq.
Qed.

Lemma discover_fresh links : ∀ dv,
  NoDup (Dict.keys dv ++ map (λ link, ref_name (_destination link)) links) →
  foldl Router.discover dv links
  = dv ++ map (λ link, (ref_name (_destination link),
                        (_cost link, Some (ref_name (_destination link))))) links.
Proof.
  induction links as [|link links IH]; intros dv Hnd; simpl; [by rewrite app_nil_r|].
  assert (Dict.get (ref_name (_destination link)) dv = None) as Hnew.
  { apply get_None_keys. apply NoDup_app in Hnd as (_ & Hdis & _).
    intros Hin. apply (Hdis _ Hin). apply list_elem_of_here. }
  unfold Router.discover at 2. simpl. rewrite (set_absent_app _ _ _ Hnew).
  rewrite IH; [by rewrite <- app_assoc|].
  unfold Dict.keys in *. rewrite map_app. simpl. by rewrite <- app_assoc.
Qed.

(** X2. On a router whose table is empty, and whose name and neighbours'
    names are all different, [dvr_start] leaves the table with the entry
    [(0, None)] for the router first, then one entry per link in the order
    of the links, each with the cost of the link and the neighbour as its
    own next hop. *)
Theorem dvr_start_fresh_table r :
  _dv r = [] →
  NoDup (_name r :: map (λ link, ref_name (_destination link)) (_links r)) →
  _dv (Router.dvr_start r).1
  = (_name r, (0%Z, None))
    :: map (λ link, (ref_name (_destination link),
                     (_cost link, Some (ref_name (_destination link))))) (_links r).
Proof.
  intros Hempty Hnd. simpl. rewrite Hempty. simpl. by rewrite discover_fresh.
Qed.

(** Router B of the network of page 21, with its links to A, C and D. *)
Lemma dvr_start_fresh_table_witness :
  _dv (Router.dvr_start (Page21.node 1)).1
  = [("B", (0%Z, None)); ("A", (1%Z, Some "A")); ("C", (2%Z, Some "C"));
     ("D", (1%Z, Some "D"))].
Proof.
  apply (dvr_start_fresh_table (Page21.node 1)).
  - reflexivity.
  - apply (bool_decide_unpack _). by vm_compute.
Defined.

End Discovery.

(** ** More on [Router.receive] *)
Section ReceiveMore.
Implicit Types (r : Router) (dv received_dv : DistanceVector).

Lemma relax_keys link_cost sender dv changed item :
  Dict.keys (Router.relax link_cost sender (dv, changed) item).1
  = Dict.keys dv ++ filter (λ k, k ∉ Dict.keys dv) [item.1].
Proof.
  destruct item as [node_name [cost next_hop]]. simpl.
  destruct (Dict.get node_name dv) as [[known hop]|] eqn:Hg; simpl.
  - assert (node_name ∈ Dict.keys dv) as Hin.
    { destruct (decide (node_name ∈ Dict.keys dv)) as [|Hn]; [done|].
      apply get_None_keys in Hn. congruence. }
    rewrite (filter_singleton_False _ _ []) by (intros Hn; by apply Hn).
    rewrite app_nil_r. destruct (link_cost + cost <? known)%Z; simpl; [|done].
    apply keys_set_present. unfold Dict.mem. by rewrite Hg.
  - rewrite (filter_singleton_True _ _ []) by (by apply get_None_keys).
    by apply keys_set_absent.
Qed.

Lemma filter_ext_elem {A : Type} (P Q : A → Prop)
    `{!∀ x, Decision (P x), !∀ x, Decision (Q x)} (l : list A) :
  (∀ x, x ∈ l → P x ↔ Q x) → filter P l = filter Q l.
Proof.
  induction l as [|x l IH]; intros Hext; [done|]. rewrite !filter_cons.
  rewrite IH by (intros y Hy; apply Hext; by apply list_elem_of_further).
  pose proof (Hext x (list_elem_of_here _ _)) as Hx.
  destruct (decide (P x)), (decide (Q x)); tauto || done.
Qed.

Lemma loop_keys link_cost sender items : Dict.wf items → ∀ dv changed,
  Dict.keys (foldl (Router.relax link_cost sender) (dv, changed) items).1
  = Dict.keys dv ++ filter (λ k, k ∉ Dict.keys dv) (Dict.keys items).
Proof.
  unfold Dict.wf. induction items as [|item items IH]; intros Hwf dv changed.
  - simpl. by rewrite app_nil_r.
  - simpl in Hwf. apply NoDup_cons in Hwf as [Hhd Hwf]. cbn [foldl].
    pose proof (relax_keys link_cost sender dv changed item) as Hk.
    destruct (Router.relax link_cost sender (dv, changed) item) as [dv1 ch1].
    rewrite (IH Hwf). cbn [fst] in Hk.
    change (Dict.keys (item :: items)) with (item.1 :: Dict.keys items).
    destruct (decide (item.1 ∉ Dict.keys dv)) as [Hnew|Hold].
    + rewrite (filter_singleton_True _ _ []) in Hk by done.
      rewrite Hk, filter_cons_True, <- app_assoc by done. simpl. do 2 f_equal.
      apply filter_ext_elem. intros k Hin. rewrite not_elem_of_app, list_elem_of_singleton.
      split; [tauto|]. intros Hk'. split; [done|]. intros ->. by apply Hhd.
    + rewrite (filter_singleton_False _ _ []) in Hk by done.
      rewrite app_nil_r in Hk. by rewrite Hk, filter_cons_False.
Qed.

(** X3. When [receive] returns, it has removed and reordered no key: the
    keys of the table it leaves are the keys it found, in the same order,
    followed by the keys of the received table that were unknown, in the
    order of the received table. *)
Theorem receive_keys_order r sender received_dv r' evs :
  Dict.wf received_dv →
  Router.receive r (sender, received_dv) = Returned (r', evs) →
  Dict.keys (_dv r')
  = Dict.keys (_dv r) ++ filter (λ k, k ∉ Dict.keys (_dv r)) (Dict.keys received_dv).
Proof.
  intros Hwf Hrecv. apply receive_inv in Hrecv as (link_cost & hop & _ & _ & -> & _).
  simpl. by apply loop_keys.
Qed.

(** Router A of page 21 is given the first table of B: D is new. *)
Lemma receive_keys_order_witness :
  Dict.keys (_dv (Router.deliver (Page21.router 0) ("B", _dv (Page21.router 1))))
  = ["A"; "B"; "C"] ++ filter (λ k, k ∉ ["A"; "B"; "C"]) ["B"; "A"; "C"; "D"].
Proof.
  apply (receive_keys_order (Page21.router 0) "B" (_dv (Page21.router 1)) _
           (Router.after_loop
              (Router.deliver (Page21.router 0) ("B", _dv (Page21.router 1))) true)).
  - apply (bool_decide_unpack _). by vm_compute.
  - by vm_compute.
Defined.

(** X4. Delivering the same table twice is delivering it once: when no
    received item advertises the sender itself at a negative cost, a second
    [receive] of a datagram right after the first returns the same router
    and has no effect, neither a log nor a broadcast. *)
Theorem receive_twice r sender received_dv r1 evs :
  Dict.wf received_dv →
  (∀ cost hop, (sender, (cost, hop)) ∈ received_dv → (0 ≤ cost)%Z) →
  Router.receive r (sender, received_dv) = Returned (r1, evs) →
  Router.receive r1 (sender, received_dv) = Returned (r1, []).
Proof.
  intros Hwf Hsender Hrecv.
  apply receive_inv in Hrecv as (link_cost & hop & Hmem & Hget & Hr1 & _).
  cbn [fst snd] in *. cbn zeta in Hr1.
  assert (∀ d, Dict.get d (_dv r1)
               = Dict.get d (foldl (Router.relax link_cost sender) (_dv r, false)
                               received_dv).1) as Hdv by (by rewrite Hr1).
  assert (Dict.get sender (_dv r1) = Some (link_cost, hop)) as Hget1.
  { rewrite Hdv. destruct (decide (sender ∈ Dict.keys received_dv)) as [Hin|Hout].
    - apply list_elem_of_fmap in Hin as ([k [cost h]] & Hk & Hin). simpl in Hk. subst k.
      rewrite (loop_get_present _ _ _ Hwf _ _ _ _ _ Hin), Hget.
      pose proof (Hsender _ _ Hin). by destruct (Z.ltb_spec (link_cost + cost) link_cost); [lia|].
    - by rewrite loop_get_absent. }
  assert (Dict.mem (_name r1) (_dv r1) = true) as Hmem1.
  { apply mem_true. rewrite Hdv. apply mem_true in Hmem as [[c h] Hself].
    destruct (loop_cost_le link_cost sender received_dv (_dv r) false _ _ _ Hself)
      as (c' & h' & Hc' & _).
    rewrite Hr1. simpl. eauto. }
  rewrite (receive_returns _ _ _ _ _ Hmem1 Hget1). cbn zeta.
  rewrite loop_no_improvement; [simpl; by rewrite with_dv_id|].
  intros d cost next_hop Hin. rewrite Hdv, (loop_get_present _ _ _ Hwf _ _ _ _ _ Hin).
  destruct (Dict.get d (_dv r)) as [[known h]|]; [|eexists _, _; split; [done|lia]].
  destruct (Z.ltb_spec (link_cost + cost) known); eexists _, _; split; try done; lia.
Qed.

(** Router A of page 21 is given the first table of B twice. *)
Lemma receive_twice_witness :
  Router.receive (Router.deliver (Page21.router 0) ("B", _dv (Page21.router 1)))
    ("B", _dv (Page21.router 1))
  = Returned (Router.deliver (Page21.router 0) ("B", _dv (Page21.router 1)), []).
Proof.
  apply (receive_twice (Page21.router 0) "B" (_dv (Page21.router 1)) _
           (Router.after_loop
              (Router.deliver (Page21.router 0) ("B", _dv (Page21.router 1))) true)).
  - apply (bool_decide_unpack _). by vm_compute.
  - intros cost hop Hin. apply list_elem_of_In in Hin. vm_compute in Hin.
    destruct Hin as [[= <- <-]|[[=]|[[=]|[[=]|[]]]]]. done.
  - by vm_compute.
Defined.

(** A table whose every next hop is one of its keys stays so when an entry
    is assigned whose next hop is absent, a key, or the key assigned. *)
Lemma set_hops_known k cost hop (dv : DistanceVector) :
  (∀ d c h, Dict.get d dv = Some (c, Some h) → Dict.mem h dv = true) →
  match hop with Some h => h = k ∨ Dict.mem h dv = true | None => True end →
  ∀ d c h, Dict.get d (Dict.set k (cost, hop) dv) = Some (c, Some h) →
           Dict.mem h (Dict.set k (cost, hop) dv) = true.
Proof.
  intros Hdv Hhop d c h. destruct (decide (k = d)) as [->|Hne].
  - rewrite get_set_eq. intros [= -> ->]. destruct Hhop as [->|Hh].
    + apply mem_true. eexists. apply get_set_eq.
    + by apply mem_set.
  - rewrite get_set_ne by done. intros Hd. apply mem_set. by eapply Hdv.
Qed.

Lemma deliver_hops_known r data :
  (∀ d c h, Dict.get d (_dv r) = Some (c, Some h) → Dict.mem h (_dv r) = true) →
  ∀ d c h, Dict.get d (_dv (Router.deliver r data)) = Some (c, Some h) →
           Dict.mem h (_dv (Router.deliver r data)) = true.
Proof.
  intros Hdv. unfold Router.deliver.
  destruct (Router.receive r data) as [[r' evs]| |] eqn:Hrecv; [|done..].
  apply receive_inv in Hrecv as (link_cost & hop & _ & Hsender & -> & _). simpl.
  assert (Dict.mem data.1 (_dv r) = true) as Hmem by (apply mem_true; eauto).
  revert Hdv Hmem. generalize (_dv r) false. clear Hsender.
  induction data.2 as [|item items IH]; intros dv changed Hdv Hmem; [done|]. cbn [foldl].
  assert (let st := Router.relax link_cost data.1 (dv, changed) item in
          (∀ d c h, Dict.get d st.1 = Some (c, Some h) → Dict.mem h st.1 = true)
          ∧ Dict.mem data.1 st.1 = true) as [Hdv1 Hmem1].
  { split; [|by apply relax_mem]. destruct item as [node_name [cost next_hop]]. simpl.
    destruct (Dict.get node_name dv) as [[known h0]|]; simpl;
      [destruct (link_cost + cost <? known)%Z; simpl; [|done]|];
      apply set_hops_known; auto. }
  destruct (Router.relax link_cost data.1 (dv, changed) item) as [dv1 ch1]. by apply IH.
Qed.

(** X5. Every next hop is a known node.  If every next hop named in the
    table of a router is a key of that table when [dvr_start] runs (it is so
    of the empty table), then it is so when [dvr_start] has returned and
    after any sequence of deliveries: the table never names a next hop for
    which it holds no entry. *)
Theorem next_hops_are_known r (datagrams : list (string * DistanceVector)) :
  (∀ d c h, Dict.get d (_dv r) = Some (c, Some h) → Dict.mem h (_dv r) = true) →
  ∀ d c h,
    Dict.get d (_dv (foldl Router.deliver (Router.dvr_start r).1 datagrams))
      = Some (c, Some h) →
    Dict.mem h (_dv (foldl Router.deliver (Router.dvr_start r).1 datagrams)) = true.
Proof.
  intros Hdv.
  assert (∀ d c h, Dict.get d (_dv (Router.dvr_start r).1) = Some (c, Some h) →
                   Dict.mem h (_dv (Router.dvr_start r).1) = true) as Hstart.
  { simpl.
    assert (∀ d c h, Dict.get d (Dict.set (_name r) (0%Z, None) (_dv r)) = Some (c, Some h) →
                     Dict.mem h (Dict.set (_name r) (0%Z, None) (_dv r)) = true) as H0
      by (by apply set_hops_known).
    revert H0. generalize (Dict.set (_name r) (0%Z, None) (_dv r)).
    induction (_links r) as [|link links IH]; intros dv H0; [done|]. cbn [foldl].
    apply IH. unfold Router.discover. simpl. apply set_hops_known; auto. }
  revert Hstart. generalize (Router.dvr_start r).1.
  induction datagrams as [|data datagrams IH]; intros r1 Hr1; [done|]. cbn [foldl].
  apply IH. by apply deliver_hops_known.
Qed.

(** Router A of page 21 after its start and the first tables of B and C:
    its entry for D names B, for which it has an entry. *)
Lemma next_hops_are_known_witness :
  Dict.mem "B"
    (_dv (foldl Router.deliver (Router.dvr_start (Page21.node 0)).1
            [("B", _dv (Page21.router 1)); ("C", _dv (Page21.router 2))])) = true.
Proof.
  apply (next_hops_are_known (Page21.node 0)
           [("B", _dv (Page21.router 1)); ("C", _dv (Page21.router 2))]) with "D" 2%Z.
  - intros d c h Hd. by vm_compute in Hd.
  - by vm_compute.
Defined.

End ReceiveMore.

(** ** More on [Network.__init__] and [Network._connect] *)
Section Topology.
Implicit Types (nodes : list Router) (costs : list (option Z)) (node_names : list string).

Lemma refs_eta node_names i ref :
  Network.refs node_names !! i = Some ref →
  ∃ name, node_names !! i = Some name ∧ ref = {| oid := i; ref_name := name |}.
Proof.
  intros [Hoid Hname]%refs_lookup. exists (ref_name ref). destruct ref. simpl in *.
  by subst.
Qed.

(** What the links of a constructed router come from. *)
Lemma init_links_elem node_names costs i r l :
  Network.init node_names costs !! i = Some r → l ∈ _links r →
  ∃ name, node_names !! i = Some name ∧ self r = {| oid := i; ref_name := name |} ∧
  ∃ q a b c,
    Network.combinations (Network.refs node_names) !! q = Some (a, b) ∧
    costs !! q = Some (Some c) ∧ c ≠ 0%Z ∧
    ((a = self r ∧ l = {| _cost := c; _destination := b |}) ∨
     (b = self r ∧ l = {| _cost := c; _destination := a |})).
Proof.
  intros Hi Hl.
  assert (i < length node_names) as Hlt.
  { rewrite <- (init_length node_names costs). by eapply lookup_lt_Some. }
  apply lookup_lt_is_Some_2 in Hlt as [name Hname].
  rewrite (init_lookup _ costs _ _ Hname) in Hi. injection Hi as <-. simpl in *.
  exists name. split_and!; [done..|].
  apply list_elem_of_In, in_flat_map in Hl as (item & Hitem & Hl).
  apply list_elem_of_In in Hitem, Hl. apply list_elem_of_lookup in Hitem as [q Hq].
  apply lookup_zip_with_Some in Hq as ([a b] & cost & -> & Hq & Hcq).
  apply links_of_elem in Hl as (c & Htruthy & Hl). simpl in *.
  assert (c ≠ 0%Z) as Hc.
  { destruct cost as [c'|]; [|done]. simpl in Htruthy.
    destruct (Z.eqb_spec c' 0); [done|]. by injection Htruthy as <-. }
  apply truthy_Some in Htruthy as ->.
  assert ((a, b) ∈ Network.combinations (Network.refs node_names)) as Hab
    by (apply list_elem_of_lookup; eauto).
  apply combinations_elem in Hab as (ia & ib & _ & Ha & Hb).
  apply refs_eta in Ha as (na & Hna & ->), Hb as (nb & Hnb & ->). simpl in *.
  exists q, {| oid := ia; ref_name := na |}, {| oid := ib; ref_name := nb |}, c.
  split_and!; [done..|].
  destruct Hl as [[<- ->]|[<- ->]]; [left|right]; (split; [|done]); congruence.
Qed.

Lemma init_links_intro node_names costs q a b c :
  Network.combinations (Network.refs node_names) !! q = Some (a, b) →
  costs !! q = Some (Some c) → c ≠ 0%Z →
  ∃ ra rb,
    Network.init node_names costs !! oid a = Some ra ∧ self ra = a ∧
    Network.init node_names costs !! oid b = Some rb ∧ self rb = b ∧
    {| _cost := c; _destination := b |} ∈ _links ra ∧
    {| _cost := c; _destination := a |} ∈ _links rb.
Proof.
  intros Hq Hcq Hc.
  assert ((a, b) ∈ Network.combinations (Network.refs node_names)) as Hab
    by (apply list_elem_of_lookup; eauto).
  apply combinations_elem in Hab as (ia & ib & _ & Ha & Hb).
  apply refs_eta in Ha as (na & Hna & ->), Hb as (nb & Hnb & ->). simpl.
  assert (((({| oid := ia; ref_name := na |}, {| oid := ib; ref_name := nb |}), Some c)
           : RouterRef * RouterRef * option Z)
          ∈ zip (Network.combinations (Network.refs node_names)) costs) as Hitem.
  { apply list_elem_of_lookup. exists q. apply lookup_zip_with_Some. eauto 6. }
  assert (Network.truthy (Some c) = Some c) as Htruthy.
  { simpl. by destruct (Z.eqb_spec c 0). }
  eexists _, _. rewrite (init_lookup _ costs _ _ Hna), (init_lookup _ costs _ _ Hnb).
  split_and!; [done..| |]; simpl; apply list_elem_of_In, in_flat_map;
    eexists; (split; [apply list_elem_of_In, Hitem|]); apply list_elem_of_In;
    unfold Network.links_of; rewrite Htruthy; simpl; apply elem_of_app.
  - left. rewrite decide_True by done. apply list_elem_of_here.
  - right. rewrite decide_True by done. apply list_elem_of_here.
Qed.

(** X6. Links come in pairs: whatever the names and the costs, every link
    of a constructed router leads to a router of the network, and that
    router has a link of the same cost back to the first. *)
Theorem links_are_full_duplex node_names costs :
  Forall (λ r,
    Forall (λ l,
      ∃ r', Network.init node_names costs !! oid (_destination l) = Some r' ∧
            self r' = _destination l ∧
            {| _cost := _cost l; _destination := self r |} ∈ _links r')
      (_links r))
    (Network.init node_names costs).
Proof.
  apply Forall_lookup. intros i r Hi. apply Forall_forall. intros l Hl.
  destruct (init_links_elem _ _ _ _ _ Hi Hl)
    as (name & _ & _ & q & a & b & c & Hq & Hcq & Hc & Hcase).
  destruct (init_links_intro _ _ _ _ _ _ Hq Hcq Hc)
    as (ra & rb & Hra & Hsa & Hrb & Hsb & Hab & Hba).
  destruct Hcase as [[-> ->]|[-> ->]]; simpl; eauto.
Qed.

(** X7. A cost that is present and not zero gives the two routers of its
    pair a link to each other, of that cost. *)
Theorem present_cost_links_both_ways node_names costs q a b c :
  Network.combinations (Network.refs node_names) !! q = Some (a, b) →
  costs !! q = Some (Some c) → c ≠ 0%Z →
  ∃ ra rb,
    Network.init node_names costs !! oid a = Some ra ∧ self ra = a ∧
    Network.init node_names costs !! oid b = Some rb ∧ self rb = b ∧
    {| _cost := c; _destination := b |} ∈ _links ra ∧
    {| _cost := c; _destination := a |} ∈ _links rb.
Proof. apply init_links_intro. Qed.

(** The link of cost 7 between C and E on page 21, the ninth cost. *)
Lemma present_cost_links_both_ways_witness :
  ∃ ra rb,
    Page21.network !! 2 = Some ra ∧ self ra = {| oid := 2; ref_name := "C" |} ∧
    Page21.network !! 4 = Some rb ∧ self rb = {| oid := 4; ref_name := "E" |} ∧
    {| _cost := 7; _destination := {| oid := 4; ref_name := "E" |} |} ∈ _links ra ∧
    {| _cost := 7; _destination := {| oid := 2; ref_name := "C" |} |} ∈ _links rb.
Proof.
  apply (present_cost_links_both_ways Page21.node_names Page21.costs 8
           {| oid := 2; ref_name := "C" |} {| oid := 4; ref_name := "E" |} 7%Z);
    by vm_compute.
Defined.

Lemma zip_pairs_NoDup node_names costs :
  NoDup (zip (Network.combinations (Network.refs node_names)) costs).
Proof.
  apply NoDup_alt. intros q1 q2 [pair cost] H1 H2.
  apply lookup_zip_with_Some in H1 as (p1 & c1 & [= -> ->] & H1 & _).
  apply lookup_zip_with_Some in H2 as (p2 & c2 & [= -> ->] & H2 & _).
  exact (NoDup_lookup _ _ _ _ (combinations_NoDup _ (refs_NoDup node_names)) H1 H2).
Qed.

Lemma links_of_ordered i a b cost :
  oid a < oid b →
  Network.links_of i ((a, b), cost) =
    match Network.truthy cost with
    | Some c =>
        if decide (oid a = i) then [{| _cost := c; _destination := b |}]
        else if decide (oid b = i) then [{| _cost := c; _destination := a |}]
        else []
    | None => []
    end.
Proof.
  intros Hlt. unfold Network.links_of. destruct (Network.truthy cost); [|done].
  destruct (decide (oid a = i)), (decide (oid b = i)); simpl; try done. lia.
Qed.

(** X8. The constructed network is a simple graph: no router has a link to
    itself, no router has two links to the same router, and no link has
    cost zero. *)
Theorem links_are_simple node_names costs :
  Forall (λ r,
    NoDup (map (λ l, oid (_destination l)) (_links r)) ∧
    Forall (λ l, oid (_destination l) ≠ oid (self r) ∧ _cost l ≠ 0%Z) (_links r))
    (Network.init node_names costs).
Proof.
  apply Forall_lookup. intros i r Hi. split.
  - assert (i < length node_names) as Hlt.
    { rewrite <- (init_length node_names costs). by eapply lookup_lt_Some. }
    apply lookup_lt_is_Some_2 in Hlt as [name Hname].
    rewrite (init_lookup _ costs _ _ Hname) in Hi. injection Hi as <-. simpl.
    assert (∀ items : list (RouterRef * RouterRef * option Z),
              map (λ l, oid (_destination l)) (flat_map (Network.links_of i) items)
              = items ≫= (λ item, map (λ l, oid (_destination l)) (Network.links_of i item)))
      as ->.
    { induction items as [|item items IH]; [done|]. simpl. by rewrite map_app, IH. }
    assert (∀ item, item ∈ zip (Network.combinations (Network.refs node_names)) costs →
              (item.1.1, item.1.2) ∈ Network.combinations (Network.refs node_names)
              ∧ oid item.1.1 < oid item.1.2) as Hitems.
    { intros [[a b] cost] [q Hq]%list_elem_of_lookup.
      apply lookup_zip_with_Some in Hq as (p & c & [= <- <-] & Hq & _).
      assert ((a, b) ∈ Network.combinations (Network.refs node_names)) as Hp
        by (apply list_elem_of_lookup; eauto).
      split; [done|]. by eapply refs_pairs_ordered. }
    apply NoDup_bind; [| |apply zip_pairs_NoDup].
    + intros [[a1 b1] cost1] [[a2 b2] cost2] j Hin1 Hin2.
      destruct (Hitems _ Hin1) as [Hp1 Hlt1], (Hitems _ Hin2) as [Hp2 Hlt2].
      cbn [fst snd] in Hp1, Hp2, Hlt1, Hlt2.
      rewrite !links_of_ordered by done. intros Hj1 Hj2.
      assert ((a1, b1) = (a2, b2)) as [= <- <-].
      { destruct (Network.truthy cost1), (Network.truthy cost2);
          try (by apply elem_of_nil in Hj1); try (by apply elem_of_nil in Hj2).
        destruct (decide (oid a1 = i)), (decide (oid b1 = i)),
                 (decide (oid a2 = i)), (decide (oid b2 = i));
          simpl in *; try (by apply elem_of_nil in Hj1); try (by apply elem_of_nil in Hj2);
          apply list_elem_of_singleton in Hj1, Hj2;
          try lia; eapply refs_pairs_oid; (done || lia). }
      apply list_elem_of_lookup in Hin1 as [q1 Hq1], Hin2 as [q2 Hq2].
      apply lookup_zip_with_Some in Hq1 as (p1 & c1 & [= <- <-] & Hq1 & Hc1).
      apply lookup_zip_with_Some in Hq2 as (p2 & c2 & [= <- <-] & Hq2 & Hc2).
      pose proof (NoDup_lookup _ _ _ _
        (combinations_NoDup _ (refs_NoDup node_names)) Hq1 Hq2) as <-. congruence.
    + intros [[a b] cost] Hin. destruct (Hitems _ Hin) as [_ Hlt]. cbn [fst snd] in Hlt.
      rewrite links_of_ordered by done. destruct (Network.truthy cost); [|constructor].
      destruct (decide (oid a = i)); [apply NoDup_singleton|].
      destruct (decide (oid b = i)); [apply NoDup_singleton|constructor].
  - apply Forall_forall. intros l Hl.
    destruct (init_links_elem _ _ _ _ _ Hi Hl)
      as (name & _ & Hself & q & a & b & c & Hq & Hcq & Hc & Hcase).
    assert (oid a < oid b) as Hlt.
    { apply (refs_pairs_ordered node_names). apply list_elem_of_lookup. eauto. }
    destruct Hcase as [[-> ->]|[-> ->]]; simpl; split; (done || lia).
Qed.

Lemma combinations_length {A : Type} (l : list A) :
  length (Network.combinations l) = length l * (length l - 1) / 2.
Proof.
  apply Nat.div_unique_exact; [done|].
  induction l as [|x l IH]; [done|]. simpl.
  rewrite length_app, length_map, Nat.sub_0_r. destruct l as [|y l]; [done|].
  simpl in *. lia.
Qed.

(** X9. Costs past the number of pairs are ignored: with [n] names, only
    the first [n * (n - 1) / 2] costs are read. *)
Theorem excess_costs_ignored node_names costs :
  Network.new node_names costs
  = Network.new node_names
      (take (length node_names * (length node_names - 1) / 2) costs).
Proof.
  unfold Network.new, Network.init. cbn zeta.
  assert (length (Network.combinations (map self (imap Router.init node_names)))
          = length node_names * (length node_names - 1) / 2) as <-.
  { by rewrite combinations_length, length_map, length_imap. }
  do 2 f_equal. symmetry. apply (zip_with_take_r pair).
Qed.

End Topology.

(** ** Threads, the lock of a router and the shared tables *)
Section Scheduling.
Import Sim.
Implicit Types (st : state) (th : thread) (ev : event) (evs : list event).

Lemma held_false st i t th :
  held st i = false → threads st !! t = Some th → iterating th = true → dest th ≠ i.
Proof.
  unfold held. intros Hheld Ht Hit Hd.
  assert (existsb (λ th, iterating th && (dest th =? i)) (threads st) = true) as Hex;
    [|congruence].
  apply existsb_exists. exists th.
  split; [apply list_elem_of_In, list_elem_of_lookup; eauto|].
  rewrite Hit. simpl. by apply Nat.eqb_eq.
Qed.

Lemma exclusive_snoc ths th :
  exclusive ths → iterating th = false → exclusive (ths ++ [th]).
Proof.
  intros Hex Hth t1 t2 th1 th2 H1 H2 Hi1 Hi2 Hd.
  apply lookup_app_Some in H1 as [H1|[_ H1]]; last first.
  { apply list_lookup_singleton_Some in H1 as [_ <-]. congruence. }
  apply lookup_app_Some in H2 as [H2|[_ H2]]; last first.
  { apply list_lookup_singleton_Some in H2 as [_ <-]. congruence. }
  by eapply Hex.
Qed.

Lemma notify_iterating i th : iterating (notify i th) = iterating th.
Proof.
  unfold notify, iterating. destruct (t_phase th) eqn:Hp; rewrite ?Hp; try done.
  destruct (dest th =? i); simpl; by rewrite ?Hp.
Qed.

Lemma notify_dest i th : dest (notify i th) = dest th.
Proof.
  unfold notify. destruct (t_phase th); try done. by destruct (dest th =? i).
Qed.

Lemma exclusive_notify i ths : exclusive ths → exclusive (map (notify i) ths).
Proof.
  intros Hex t1 t2 th1 th2 H1 H2 Hi1 Hi2 Hd.
  change (map (notify i) ths) with (notify i <$> ths) in H1, H2.
  rewrite list_lookup_fmap in H1, H2.
  destruct (ths !! t1) as [o1|] eqn:Ho1; [|done].
  destruct (ths !! t2) as [o2|] eqn:Ho2; [|done].
  injection H1 as <-. injection H2 as <-.
  rewrite notify_iterating in Hi1, Hi2. rewrite !notify_dest in Hd.
  by eapply Hex.
Qed.

Lemma exclusive_alter ths t p :
  exclusive ths →
  (∀ th, ths !! t = Some th → iterating (with_phase p th) = true →
     iterating th = true ∨
     ∀ t' th', ths !! t' = Some th' → iterating th' = true → dest th' ≠ dest th) →
  exclusive (alter (with_phase p) t ths).
Proof.
  intros Hex Hp t1 t2 th1 th2 H1 H2 Hi1 Hi2 Hd.
  destruct (decide (t1 = t2)) as [|Hne]; [done|]. exfalso.
  destruct (decide (t1 = t)) as [->|Hn1], (decide (t2 = t)) as [->|Hn2]; [done|..].
  - rewrite list_lookup_alter_eq in H1. rewrite list_lookup_alter_ne in H2 by done.
    destruct (ths !! t) as [o1|] eqn:Ho1; [|done]. injection H1 as <-.
    destruct (Hp o1 eq_refl Hi1) as [Ho|Ho].
    + apply Hne. by eapply Hex.
    + by apply (Ho t2 th2).
  - rewrite list_lookup_alter_eq in H2. rewrite list_lookup_alter_ne in H1 by done.
    destruct (ths !! t) as [o2|] eqn:Ho2; [|done]. injection H2 as <-.
    destruct (Hp o2 eq_refl Hi2) as [Ho|Ho].
    + apply Hne. by eapply Hex.
    + by apply (Ho t1 th1).
  - rewrite list_lookup_alter_ne in H1, H2 by done. apply Hne. by eapply Hex.
Qed.

Lemma exclusive_perform i st ev :
  exclusive (threads st) → exclusive (threads (perform i st ev)).
Proof.
  intros Hex. destruct ev; simpl; [done| |by apply exclusive_notify].
  by apply exclusive_snoc.
Qed.

Lemma exclusive_perform_all i evs : ∀ st,
  exclusive (threads st) → exclusive (threads (foldl (perform i) st evs)).
Proof.
  induction evs as [|ev evs IH]; intros st Hex; [done|]. simpl.
  by apply IH, exclusive_perform.
Qed.

Lemma exclusive_step st a st' :
  exclusive (threads st) → step st a = Some st' → exclusive (threads st').
Proof.
  intros Hex. destruct a as [|t|t|t]; simpl.
  - unfold start. destruct (nodes st !! started st) as [r|]; [|done].
    destruct (held st (started st)); [done|].
    destruct (Router.dvr_start r) as [r' evs]. intros [= <-].
    by apply exclusive_perform_all.
  - unfold wake. destruct (threads st !! t) as [th|] eqn:Ht; [|done].
    destruct (t_phase th) eqn:Hp; try done.
    destruct (_cost (t_link th) <? 0)%Z; intros [= <-]; simpl;
      apply exclusive_alter; try done; by intros.
  - unfold enter. destruct (threads st !! t) as [th|] eqn:Ht; [|done].
    destruct (t_phase th) eqn:Hp; try done.
    destruct (nodes st !! dest th) as [r|]; [|done].
    destruct (held st (dest th)) eqn:Hheld; [done|].
    destruct (negb (Dict.mem (_name r) (_dv r))).
    { intros [= <-]. simpl. apply exclusive_alter; [done|]. by intros. }
    destruct (t_data th) as [sender received].
    destruct (Dict.get sender (_dv r)) as [[link_cost hop]|].
    + destruct (nodes st !! received) as [src|]; [|done]. intros [= <-]. simpl.
      apply exclusive_alter; [done|]. intros th0 Ht0 _. right.
      intros t' th' Ht' Hit'. assert (th0 = th) as -> by congruence.
      by eapply held_false.
    + intros [= <-]. simpl. apply exclusive_alter; [done|]. by intros.
  - unfold iter. destruct (threads st !! t) as [th|] eqn:Ht; [|done].
    destruct (t_phase th) eqn:Hp; try done.
    destruct (t_data th) as [sender received].
    destruct (nodes st !! dest th) as [r|]; [|done].
    destruct (nodes st !! received) as [src|]; [|done].
    destruct (negb (length (_dv src) =? used)).
    { intros [= <-]. simpl. apply exclusive_alter; [done|]. by intros. }
    destruct (_dv src !! pos) as [item|].
    + destruct (Router.relax link_cost sender (_dv r, changed) item) as [dv changed'].
      intros [= <-]. simpl. apply exclusive_alter; [done|].
      intros th0 Ht0 _. left. assert (th0 = th) as -> by congruence.
      unfold iterating. by rewrite Hp.
    + intros [= <-]. apply exclusive_perform_all. simpl.
      apply exclusive_alter; [done|]. by intros.
Qed.

(** X10. Mutual exclusion: whatever the routers and however the threads
    are scheduled, no two threads are inside the loop of [receive] of the
    same router at the same time. *)
Theorem receive_is_exclusive nodes0 st : reachable nodes0 st → exclusive (threads st).
Proof.
  induction 1 as [|st a st' _ IH Hstep].
  - intros t1 t2 th1 th2 H1. done.
  - by eapply exclusive_step.
Qed.

(** On the line of four routers, R is inside [receive] on the table of S
    while S is inside [receive] on the table of R. *)
Lemma receive_is_exclusive_witness :
  let st := after Line4.network (take 20 Line4.schedule) in
  iterating <$> threads st !! 2 = Some true ∧ dest <$> threads st !! 2 = Some 2 ∧
  iterating <$> threads st !! 3 = Some true ∧ dest <$> threads st !! 3 = Some 1 ∧
  exclusive (threads st).
Proof.
  cbn zeta. split_and!; [by vm_compute..|].
  apply (receive_is_exclusive Line4.network), after_reachable.
Defined.

(** *** What a step leaves alone *)

Lemma insert_same_links nodes i r r' :
  nodes !! i = Some r → self r' = self r → _links r' = _links r →
  map self (<[i := r']> nodes) = map self nodes ∧
  map _links (<[i := r']> nodes) = map _links nodes.
Proof.
  intros Hi Hself Hlinks.
  change (self <$> <[i := r']> nodes = self <$> nodes ∧
          _links <$> <[i := r']> nodes = _links <$> nodes).
  rewrite !list_fmap_insert, Hself, Hlinks.
  split; apply list_insert_id; by rewrite list_lookup_fmap, Hi.
Qed.

Lemma step_topology st a st' :
  step st a = Some st' →
  map self (nodes st') = map self (nodes st) ∧
  map _links (nodes st') = map _links (nodes st).
Proof.
  destruct a as [|t|t|t]; simpl.
  - unfold start. destruct (nodes st !! started st) as [r|] eqn:Hr; [|done].
    destruct (held st (started st)); [done|].
    destruct (Router.dvr_start r) as [r' evs] eqn:Hstart. intros [= <-].
    rewrite perform_all_nodes. cbn [nodes].
    injection Hstart as <- _. by apply (insert_same_links _ _ r).
  - unfold wake. destruct (threads st !! t) as [th|]; [|done].
    destruct (t_phase th); try done.
    by destruct (_cost (t_link th) <? 0)%Z; intros [= <-].
  - unfold enter. destruct (threads st !! t) as [th|]; [|done].
    destruct (t_phase th); try done.
    destruct (nodes st !! dest th) as [r|]; [|done].
    destruct (held st (dest th)); [done|].
    destruct (negb (Dict.mem (_name r) (_dv r))); [by intros [= <-]|].
    destruct (t_data th) as [sender received].
    destruct (Dict.get sender (_dv r)) as [[link_cost hop]|]; [|by intros [= <-]].
    destruct (nodes st !! received); [|done]. by intros [= <-].
  - unfold iter. destruct (threads st !! t) as [th|]; [|done].
    destruct (t_phase th); try done.
    destruct (t_data th) as [sender received].
    destruct (nodes st !! dest th) as [r|] eqn:Hr; [|done].
    destruct (nodes st !! received) as [src|]; [|done].
    destruct (negb (length (_dv src) =? used)); [by intros [= <-]|].
    destruct (_dv src !! pos) as [item|].
    + destruct (Router.relax link_cost sender (_dv r, changed) item) as [dv changed'].
      intros [= <-]. cbn [nodes set_phase set_node]. by apply (insert_same_links _ _ r).
    + intros [= <-]. by rewrite perform_all_nodes.
Qed.

(** X11. The topology is static: in every state a running network can
    reach, every router object has the identity, the name and the links it
    had when [Network.dvr_start] was called; only tables change. *)
Theorem topology_is_static nodes0 st :
  reachable nodes0 st →
  map self (nodes st) = map self nodes0 ∧ map _links (nodes st) = map _links nodes0.
Proof.
  induction 1 as [|st a st' _ [IH1 IH2] Hstep]; [done|].
  apply step_topology in Hstep as [-> ->]. done.
Qed.

Lemma topology_is_static_witness :
  let st := after Line4.network Line4.schedule in
  map _dv (nodes st) ≠ map _dv Line4.network ∧
  map self (nodes st) = map self Line4.network ∧
  map _links (nodes st) = map _links Line4.network.
Proof.
  cbn zeta. split; [by vm_compute|].
  apply (topology_is_static Line4.network), after_reachable.
Defined.

(** X12. A thread writes to the router its link leads to and to no other:
    whatever step thread [t] takes, every other router object, the sender
    whose dictionary the thread reads included, is left as it was. *)
Theorem thread_writes_its_destination_only st t th st' i :
  threads st !! t = Some th → i ≠ dest th →
  step st (Wake t) = Some st' ∨ step st (Enter t) = Some st' ∨ step st (Iter t) = Some st' →
  nodes st' !! i = nodes st !! i.
Proof.
  intros Ht Hne [Hstep|[Hstep|Hstep]]; simpl in Hstep; revert Hstep.
  - unfold wake. rewrite Ht. destruct (t_phase th); try done.
    by destruct (_cost (t_link th) <? 0)%Z; intros [= <-].
  - unfold enter. rewrite Ht. destruct (t_phase th); try done.
    destruct (nodes st !! dest th) as [r|]; [|done].
    destruct (held st (dest th)); [done|].
    destruct (negb (Dict.mem (_name r) (_dv r))); [by intros [= <-]|].
    destruct (t_data th) as [sender received].
    destruct (Dict.get sender (_dv r)) as [[link_cost hop]|]; [|by intros [= <-]].
    destruct (nodes st !! received); [|done]. by intros [= <-].
  - unfold iter. rewrite Ht. destruct (t_phase th); try done.
    destruct (t_data th) as [sender received].
    destruct (nodes st !! dest th) as [r|] eqn:Hr; [|done].
    destruct (nodes st !! received) as [src|]; [|done].
    destruct (negb (length (_dv src) =? used)); [by intros [= <-]|].
    destruct (_dv src !! pos) as [item|].
    + destruct (Router.relax link_cost sender (_dv r, changed) item) as [dv changed'].
      intros [= <-]. cbn [nodes set_phase set_node]. by apply list_lookup_insert_ne.
    + intros [= <-]. by rewrite perform_all_nodes.
Qed.

(** On the triangle: A reads the third item of the table of B and stores
    the route to C through B; the table of B is as it was. *)
Lemma thread_writes_its_destination_only_witness :
  let st := after Triangle.network (take 7 Triangle.later) in
  let st' := after Triangle.network Triangle.later in
  dest <$> threads st !! 2 = Some 0 ∧ t_data <$> threads st !! 2 = Some ("B", 1) ∧
  _dv <$> nodes st !! 0
    = Some [("A", (0%Z, None)); ("B", (1%Z, Some "B")); ("C", (5%Z, Some "C"))] ∧
  _dv <$> nodes st' !! 0
    = Some [("A", (0%Z, None)); ("B", (1%Z, Some "B")); ("C", (2%Z, Some "B"))] ∧
  nodes st' !! 1 = nodes st !! 1.
Proof.
  cbn zeta. split_and!; [by vm_compute..|].
  eapply (thread_writes_its_destination_only _ 2); [by vm_compute|by vm_compute|].
  right. right. by vm_compute.
Defined.

(** *** A link of negative cost *)

Lemma negative_perform i evs : ∀ st,
  Forall (λ th, (_cost (t_link th) < 0)%Z →
            t_phase th = Sleeping
            ∨ t_phase th = Died (ValueError "sleep length must be non-negative"))
    (threads st) →
  Forall (λ th, (_cost (t_link th) < 0)%Z →
            t_phase th = Sleeping
            ∨ t_phase th = Died (ValueError "sleep length must be non-negative"))
    (threads (foldl (perform i) st evs)).
Proof.
  intros st. apply perform_all_threads; [|by left].
  intros th Hth. unfold notify. destruct (t_phase th) eqn:Hp; try (by rewrite Hp).
  destruct (dest th =? i); intros Hneg; destruct (Hth Hneg); congruence.
Qed.

(** X13. A link of negative cost delivers nothing: [time.sleep] raises
    [ValueError] on a negative argument, so the thread started by
    [Link.send] on such a link is asleep or dead in every state the network
    can reach, and never calls [receive]. *)
Theorem negative_cost_never_delivers nodes0 st t th :
  reachable nodes0 st → threads st !! t = Some th → (_cost (t_link th) < 0)%Z →
  t_phase th = Sleeping
  ∨ t_phase th = Died (ValueError "sleep length must be non-negative").
Proof.
  intros Hreach. revert t th.
  assert (Forall (λ th, (_cost (t_link th) < 0)%Z →
            t_phase th = Sleeping
            ∨ t_phase th = Died (ValueError "sleep length must be non-negative"))
            (threads st)) as Hall; [|intros t th Ht; by apply (proj1 (Forall_lookup _ _) Hall t th)].
  induction Hreach as [|st a st' _ IH Hstep]; [constructor|].
  destruct a as [|t|t|t]; simpl in Hstep; revert Hstep.
  - unfold start. destruct (nodes st !! started st) as [r|]; [|done].
    destruct (held st (started st)); [done|].
    destruct (Router.dvr_start r) as [r' evs]. intros [= <-].
    by apply negative_perform.
  - unfold wake. destruct (threads st !! t) as [th|] eqn:Ht; [|done].
    destruct (t_phase th) eqn:Hp; try done.
    destruct (Z.ltb_spec (_cost (t_link th)) 0); intros [= <-]; simpl;
      apply Forall_alter; try done; intros th0 Ht0 _ Hneg; [by right|].
    assert (th0 = th) as -> by congruence. simpl in Hneg. lia.
  - assert (∀ p th, threads st !! t = Some th → t_phase th = Arrived →
              Forall (λ th, (_cost (t_link th) < 0)%Z →
                t_phase th = Sleeping
                ∨ t_phase th = Died (ValueError "sleep length must be non-negative"))
                (threads (set_phase st t p))) as Hset.
    { intros p th Ht Hp. simpl. apply Forall_alter; [done|].
      intros th0 Ht0 Hth0 Hneg. assert (th0 = th) as -> by congruence.
      destruct (Hth0 Hneg); congruence. }
    unfold enter. destruct (threads st !! t) as [th|] eqn:Ht; [|done].
    destruct (t_phase th) eqn:Hp; try done.
    destruct (nodes st !! dest th) as [r|]; [|done].
    destruct (held st (dest th)); [done|].
    destruct (negb (Dict.mem (_name r) (_dv r))); [intros [= <-]; by eapply Hset|].
    destruct (t_data th) as [sender received].
    destruct (Dict.get sender (_dv r)) as [[link_cost hop]|];
      [|intros [= <-]; by eapply Hset].
    destruct (nodes st !! received); [|done]. intros [= <-]. by eapply Hset.
  - assert (∀ p nodes' th link_cost changed pos used,
              threads st !! t = Some th → t_phase th = Iterating link_cost changed pos used →
              Forall (λ th, (_cost (t_link th) < 0)%Z →
                t_phase th = Sleeping
                ∨ t_phase th = Died (ValueError "sleep length must be non-negative"))
                (threads (set_phase (set_node st nodes'.1 nodes'.2) t p))) as Hset.
    { intros p nodes' th link_cost changed pos used Ht Hp. simpl.
      apply Forall_alter; [done|].
      intros th0 Ht0 Hth0 Hneg. assert (th0 = th) as -> by congruence.
      destruct (Hth0 Hneg); congruence. }
    unfold iter. destruct (threads st !! t) as [th|] eqn:Ht; [|done].
    destruct (t_phase th) eqn:Hp; try done.
    destruct (t_data th) as [sender received].
    destruct (nodes st !! dest th) as [r|] eqn:Hr; [|done].
    destruct (nodes st !! received) as [src|]; [|done].
    destruct (negb (length (_dv src) =? used)).
    { intros [= <-]. by eapply (Hset _ (0, r)). }
    destruct (_dv src !! pos) as [item|].
    + destruct (Router.relax link_cost sender (_dv r, changed) item) as [dv changed'].
      intros [= <-]. by eapply (Hset _ (dest th, Router.with_dv r dv)).
    + intros [= <-]. apply negative_perform. by eapply (Hset _ (0, r)).
Qed.

(** Two routers and a link of cost -3: the thread that carries the table
    of A dies when its sleep is due, and the table of B keeps its two
    entries. *)
Lemma negative_cost_never_delivers_witness :
  let st := after (Network.init ["A"; "B"] [Some (-3)%Z]) [Start; Start; Wake 0] in
  (t_phase <$> threads st !! 0 = Some Sleeping
   ∨ t_phase <$> threads st !! 0
     = Some (Died (ValueError "sleep length must be non-negative"))) ∧
  step st (Enter 0) = None.
Proof.
  cbn zeta. split; [|by vm_compute].
  destruct (threads (after (Network.init ["A"; "B"] [Some (-3)%Z]) [Start; Start; Wake 0]) !! 0)
    as [th|] eqn:Ht; [|by vm_compute in Ht].
  destruct (negative_cost_never_delivers (Network.init ["A"; "B"] [Some (-3)%Z])
              _ 0 th (after_reachable _ _) Ht) as [Hp|Hp].
  - vm_compute in Ht. injection Ht as <-. by vm_compute.
  - left. simpl. by rewrite Hp.
  - right. simpl. by rewrite Hp.
Defined.

(** *** The main thread: [Network.dvr_start] *)

Lemma perform_stdout i lines : ∀ st,
  foldl (perform i) st (map Stdout lines)
  = {| nodes := nodes st; threads := threads st; console := console st ++ lines;
       started := started st; clock := clock st |}.
Proof.
  induction lines as [|line lines IH]; intros st; simpl.
  - destruct st. simpl. by rewrite app_nil_r.
  - rewrite IH. simpl. by rewrite <- app_assoc.
Qed.

Lemma perform_sends i data links : ∀ st,
  foldl (perform i) st (map (λ link, Link.send link data) links)
  = {| nodes := nodes st;
       threads := threads st
         ++ map (λ link, {| t_link := link; t_data := data;
                            t_due := (clock st + _cost link)%Z; t_phase := Sleeping |}) links;
       console := console st; started := started st; clock := clock st |}.
Proof.
  induction links as [|link links IH]; intros st; simpl.
  - destruct st. simpl. by rewrite app_nil_r.
  - rewrite IH. simpl. by rewrite <- app_assoc.
Qed.

Lemma notify_asleep i ths :
  Forall (λ th, t_phase th = Sleeping) ths → map (notify i) ths = ths.
Proof.
  induction 1 as [|th ths Hth _ IH]; [done|]. simpl. rewrite IH. f_equal.
  unfold notify. by rewrite Hth.
Qed.

Lemma held_asleep st i :
  Forall (λ th, t_phase th = Sleeping) (threads st) → held st i = false.
Proof.
  unfold held. induction 1 as [|th ths Hth _ IH]; [done|]. simpl. rewrite IH.
  unfold iterating. by rewrite Hth.
Qed.

(** [dvr_start] on the next router while every thread is asleep. *)
Lemma start_asleep st r :
  nodes st !! started st = Some r →
  Forall (λ th, t_phase th = Sleeping) (threads st) →
  start st
  = Some {| nodes := <[started st := (Router.dvr_start r).1]> (nodes st);
            threads := threads st
              ++ map (λ link, {| t_link := link; t_data := (_name r, oid (self r));
                                 t_due := (clock st + _cost link)%Z;
                                 t_phase := Sleeping |}) (_links r);
            console := console st ++ log_dv (_name r) (Dict.set (_name r) (0%Z, None) (_dv r));
            started := S (started st); clock := clock st |}.
Proof.
  intros Hr Hths. unfold start. rewrite Hr, held_asleep by done.
  unfold Router.dvr_start. cbn zeta. rewrite !foldl_app, perform_stdout.
  unfold Router._broadcast_dv. rewrite perform_sends. cbn. f_equal. f_equal.
  apply notify_asleep, Forall_app. split; [done|]. by apply Forall_fmap, Forall_true.
Qed.

Lemma starts_run rest : ∀ st done,
  nodes st = map (λ r, (Router.dvr_start r).1) done ++ rest →
  started st = length done →
  Forall (λ th, t_phase th = Sleeping) (threads st) →
  run st (replicate (length rest) Start)
  = Some {| nodes := map (λ r, (Router.dvr_start r).1) (done ++ rest);
            threads := threads st
              ++ flat_map (λ r, map (λ link,
                     {| t_link := link; t_data := (_name r, oid (self r));
                        t_due := (clock st + _cost link)%Z; t_phase := Sleeping |})
                     (_links r)) rest;
            console := console st
              ++ flat_map (λ r, log_dv (_name r) (Dict.set (_name r) (0%Z, None) (_dv r))) rest;
            started := length (done ++ rest); clock := clock st |}.
Proof.
  induction rest as [|r rest IH]; intros st done Hnodes Hstarted Hths.
  - destruct st. simpl in *. subst. by rewrite !app_nil_r.
  - cbn [length replicate run step].
    assert (nodes st !! started st = Some r) as Hr.
    { rewrite Hnodes, Hstarted, lookup_app_r by (by rewrite length_map).
      by rewrite length_map, Nat.sub_diag. }
    rewrite (start_asleep st r Hr Hths).
    rewrite (IH _ (done ++ [r])); cbn [nodes threads console started clock].
    + f_equal. rewrite <- !app_assoc. done.
    + rewrite Hnodes, Hstarted, map_app, <- app_assoc.
      rewrite insert_app_r_alt by (by rewrite length_map).
      by rewrite length_map, Nat.sub_diag.
    + rewrite length_app, Hstarted. simpl. lia.
    + apply Forall_app. split; [done|]. by apply Forall_fmap, Forall_true.
Qed.

(** X14. [Network.dvr_start], run before any datagram arrives, starts the
    routers in the order of the node list and always returns: when it is
    done every router has the table [Router.dvr_start] gives it, one thread
    is asleep for every link of every router, in the order of the routers
    and of their links, each holding the name and the dictionary of its
    sender and due after the cost of its link, and the console holds the
    start logs of the routers, one after the other. *)
Theorem network_dvr_start nodes0 :
  run (boot nodes0) (replicate (length nodes0) Start)
  = Some {| nodes := map (λ r, (Router.dvr_start r).1) nodes0;
            threads :=
              flat_map (λ r, map (λ link,
                  {| t_link := link; t_data := (_name r, oid (self r));
                     t_due := _cost link; t_phase := Sleeping |})
                  (_links r)) nodes0;
            console :=
              flat_map (λ r, log_dv (_name r) (Dict.set (_name r) (0%Z, None) (_dv r)))
                nodes0;
            started := length nodes0; clock := 0 |}.
Proof. by rewrite (starts_run nodes0 (boot nodes0) []). Qed.

(** *** The steps, read backwards *)

Lemma start_inv st st' :
  start st = Some st' →
  ∃ r, nodes st !! started st = Some r ∧ held st (started st) = false ∧
    st' = foldl (perform (started st))
            {| nodes := <[started st := (Router.dvr_start r).1]> (nodes st);
               threads := threads st; console := console st;
               started := S (started st); clock := clock st |}
            (Router.dvr_start r).2.
Proof.
  unfold start. destruct (nodes st !! started st) as [r|] eqn:Hr; [|done].
  destruct (held st (started st)) eqn:Hheld; [done|].
  destruct (Router.dvr_start r) as [r' evs] eqn:Hs. intros [= <-]. exists r.
  by rewrite Hs.
Qed.

Lemma wake_inv st t st' :
  wake st t = Some st' →
  ∃ th, threads st !! t = Some th ∧ t_phase th = Sleeping ∧
    nodes st' = nodes st ∧ started st' = started st ∧
    threads st'
    = alter (with_phase
               (if (_cost (t_link th) <? 0)%Z
                then Died (ValueError "sleep length must be non-negative")
                else Arrived)) t (threads st).
Proof.
  unfold wake. destruct (threads st !! t) as [th|] eqn:Ht; [|done].
  destruct (t_phase th) eqn:Hp; try done. intros Hst'. exists th.
  by destruct (_cost (t_link th) <? 0)%Z; injection Hst' as <-.
Qed.

Lemma enter_inv st t st' :
  enter st t = Some st' →
  ∃ th r p, threads st !! t = Some th ∧ t_phase th = Arrived ∧
    nodes st !! dest th = Some r ∧ held st (dest th) = false ∧
    st' = set_phase st t p ∧
    ((Dict.mem (_name r) (_dv r) = false ∧ p = Waiting) ∨
     (Dict.mem (_name r) (_dv r) = true ∧ Dict.get (t_data th).1 (_dv r) = None ∧
      p = Died (KeyError (t_data th).1)) ∨
     (Dict.mem (_name r) (_dv r) = true ∧
      ∃ link_cost hop src,
        Dict.get (t_data th).1 (_dv r) = Some (link_cost, hop) ∧
        nodes st !! (t_data th).2 = Some src ∧
        p = Iterating link_cost false 0 (length (_dv src)))).
Proof.
  unfold enter. destruct (threads st !! t) as [th|] eqn:Ht; [|done].
  destruct (t_phase th) eqn:Hp; try done.
  destruct (nodes st !! dest th) as [r|] eqn:Hr; [|done].
  destruct (held st (dest th)) eqn:Hheld; [done|].
  destruct (Dict.mem (_name r) (_dv r)) eqn:Hmem; simpl.
  2:{ intros [= <-]. exists th, r, Waiting. split_and!; [done..|]. by left. }
  destruct (t_data th) as [sender received] eqn:Hdata. simpl.
  destruct (Dict.get sender (_dv r)) as [[link_cost hop]|] eqn:Hget.
  2:{ intros [= <-]. exists th, r, (Died (KeyError sender)). rewrite Hdata.
      split_and!; [done..|]. right. left. done. }
  destruct (nodes st !! received) as [src|] eqn:Hsrc; [|done]. intros [= <-].
  exists th, r, (Iterating link_cost false 0 (length (_dv src))). rewrite Hdata.
  split_and!; [done..|]. right. right. split; [done|]. by exists link_cost, hop, src.
Qed.

Lemma iter_inv st t st' :
  iter st t = Some st' →
  ∃ th link_cost changed pos used r src,
    threads st !! t = Some th ∧ t_phase th = Iterating link_cost changed pos used ∧
    nodes st !! dest th = Some r ∧ nodes st !! (t_data th).2 = Some src ∧
    ((length (_dv src) ≠ used ∧
      st' = set_phase st t (Died (RuntimeError "dictionary changed size during iteration"))) ∨
     (∃ item, _dv src !! pos = Some item ∧
        let st1 := Router.relax link_cost (t_data th).1 (_dv r, changed) item in
        st' = set_phase (set_node st (dest th) (Router.with_dv r st1.1)) t
                (Iterating link_cost st1.2 (S pos) used)) ∨
     (_dv src !! pos = None ∧
      st' = foldl (perform (dest th)) (set_phase st t Finished)
              (Router.after_loop r changed))).
Proof.
  unfold iter. destruct (threads st !! t) as [th|] eqn:Ht; [|done].
  destruct (t_phase th) eqn:Hp; try done.
  destruct (t_data th) as [sender received] eqn:Hdata. cbn [fst snd].
  destruct (nodes st !! dest th) as [r|] eqn:Hr; [|done].
  destruct (nodes st !! received) as [src|] eqn:Hsrc; [|done].
  destruct (Nat.eqb_spec (length (_dv src)) used) as [Hlen|Hlen]; cbn [negb].
  - destruct (_dv src !! pos) as [item|] eqn:Hitem.
    + destruct (Router.relax link_cost sender (_dv r, changed) item) as [dv changed'] eqn:Hrel.
      cbn beta iota. intros [= <-]. exists th, link_cost, changed, pos, used, r, src. rewrite Hdata. cbn [fst snd].
      split_and!; [done..|]. right. left. exists item. split; [done|]. by rewrite Hrel.
    + intros [= <-]. exists th, link_cost, changed, pos, used, r, src. rewrite Hdata. cbn [fst snd].
      split_and!; [done..|]. right. right. done.
  - intros [= <-]. exists th, link_cost, changed, pos, used, r, src. rewrite Hdata. cbn [fst snd].
    split_and!; [done..|]. by left.
Qed.

(** *** What the threads carry *)

Lemma same_topology_lookup (nodes nodes' : list Router) i r :
  map self nodes' = map self nodes → map _links nodes' = map _links nodes →
  nodes' !! i = Some r →
  ∃ r0, nodes !! i = Some r0 ∧ self r0 = self r ∧ _links r0 = _links r.
Proof.
  intros Hself Hlinks Hi.
  change (self <$> nodes' = self <$> nodes) in Hself.
  change (_links <$> nodes' = _links <$> nodes) in Hlinks.
  apply (f_equal (λ l, l !! i)) in Hself, Hlinks.
  cbv beta in Hself, Hlinks.
  rewrite !list_lookup_fmap, Hi in Hself. rewrite !list_lookup_fmap, Hi in Hlinks.
  destruct (nodes !! i) as [r0|]; [|done]. simpl in *.
  exists r0. split_and!; congruence.
Qed.

Lemma reachable_node nodes0 st i r :
  reachable nodes0 st → nodes st !! i = Some r →
  ∃ r0, nodes0 !! i = Some r0 ∧ self r0 = self r ∧ _links r0 = _links r.
Proof.
  intros Hreach. revert i r.
  induction Hreach as [|st a st' _ IH Hstep]; intros i r Hi; [by exists r|].
  apply step_topology in Hstep as [Hself Hlinks].
  destruct (same_topology_lookup _ _ _ _ Hself Hlinks Hi) as (r1 & H1 & <- & <-).
  by apply IH.
Qed.

Lemma reachable_length nodes0 st : reachable nodes0 st → length (nodes st) = length nodes0.
Proof.
  induction 1 as [|st a st' _ IH Hstep]; [done|].
  apply step_topology in Hstep as [Hself _]. apply (f_equal length) in Hself.
  rewrite !length_map in Hself. congruence.
Qed.

Lemma perform_all_spawned (P : thread → Prop) i evs : ∀ st,
  (∀ th, P th → P (notify i th)) →
  (∀ link data due, Spawn link data ∈ evs →
     P {| t_link := link; t_data := data; t_due := due; t_phase := Sleeping |}) →
  Forall P (threads st) → Forall P (threads (foldl (perform i) st evs)).
Proof.
  induction evs as [|ev evs IH]; intros st Hnotify Hnew Hths; [done|]. simpl.
  apply IH; [done| |].
  - intros link data due Hin. by apply Hnew, list_elem_of_further.
  - destruct ev; simpl; [done| |].
    + apply Forall_app. split; [done|]. apply Forall_singleton, Hnew, list_elem_of_here.
    + apply Forall_fmap. eapply Forall_impl; [done|]. intros th. apply Hnotify.
Qed.

Lemma broadcast_spawn r link data :
  Spawn link data ∈ Router._broadcast_dv r →
  link ∈ _links r ∧ data = (_name r, oid (self r)).
Proof.
  unfold Router._broadcast_dv. intros (l & [= -> ->] & Hl)%list_elem_of_fmap. done.
Qed.

Lemma dvr_start_spawn r link data :
  Spawn link data ∈ (Router.dvr_start r).2 →
  link ∈ _links r ∧ data = (_name r, oid (self r)).
Proof.
  unfold Router.dvr_start. cbn [snd].
  intros [Hin|[Hin|Hin]%elem_of_app]%elem_of_app.
  - by apply list_elem_of_fmap in Hin as (line & [=] & _).
  - by apply broadcast_spawn in Hin.
  - by apply list_elem_of_singleton in Hin.
Qed.

Lemma after_loop_spawn r changed link data :
  Spawn link data ∈ Router.after_loop r changed →
  link ∈ _links r ∧ data = (_name r, oid (self r)).
Proof.
  unfold Router.after_loop. destruct changed; [|by intros ?%elem_of_nil].
  intros [Hin|Hin]%elem_of_app.
  - by apply list_elem_of_fmap in Hin as (line & [=] & _).
  - by apply broadcast_spawn in Hin.
Qed.

Lemma notify_link i th : t_link (notify i th) = t_link th.
Proof.
  unfold notify. destruct (t_phase th); try done. by destruct (dest th =? i).
Qed.

Lemma notify_data i th : t_data (notify i th) = t_data th.
Proof.
  unfold notify. destruct (t_phase th); try done. by destruct (dest th =? i).
Qed.

(** A property of the link and of the datagram of a thread that holds of
    what every router broadcasts holds of every thread. *)
Lemma carried_reachable (Q : Link → Datagram → Prop) nodes0 st :
  (∀ i r link, nodes0 !! i = Some r → link ∈ _links r →
     Q link (_name r, oid (self r))) →
  reachable nodes0 st → Forall (λ th, Q (t_link th) (t_data th)) (threads st).
Proof.
  intros HQ Hreach.
  assert (∀ st i r link, reachable nodes0 st → nodes st !! i = Some r →
            link ∈ _links r → Q link (_name r, oid (self r))) as Hnow.
  { intros st0 i r link Hst0 Hi Hl.
    destruct (reachable_node _ _ _ _ Hst0 Hi) as (r0 & H0 & Hself & Hlinks).
    unfold _name. rewrite <- Hself. apply (HQ i r0); [done|]. by rewrite Hlinks. }
  induction Hreach as [|st a st' Hreach IH Hstep]; [constructor|].
  destruct a as [|t|t|t]; simpl in Hstep.
  - apply start_inv in Hstep as (r & Hr & _ & ->).
    apply perform_all_spawned; [| |done].
    + intros th. by rewrite notify_link, notify_data.
    + intros link data due [Hl ->]%dvr_start_spawn. simpl. by eapply Hnow.
  - apply wake_inv in Hstep as (th & Ht & _ & _ & _ & ->).
    by apply Forall_alter.
  - apply enter_inv in Hstep as (th & r & p & Ht & _ & _ & _ & -> & _).
    by apply Forall_alter.
  - apply iter_inv in Hstep
      as (th & link_cost & changed & pos & used & r & src & Ht & _ & Hr & _ & Hcase).
    destruct Hcase as [[_ ->]|[(item & _ & ->)|[_ ->]]].
    + by apply Forall_alter.
    + by apply Forall_alter.
    + apply perform_all_spawned; [| |by apply Forall_alter].
      * intros th0. by rewrite notify_link, notify_data.
      * intros link data due [Hl ->]%after_loop_spawn. simpl. by eapply Hnow.
Qed.

(** X15. Every datagram in flight is a broadcast: in every state a
    running network can reach, every thread runs [_send] of a link of some
    router of the network, with the tuple of the name of that router and its
    dictionary. *)
Theorem threads_carry_broadcasts nodes0 st t th :
  reachable nodes0 st → threads st !! t = Some th →
  ∃ i r, nodes0 !! i = Some r ∧ t_link th ∈ _links r
         ∧ t_data th = (_name r, oid (self r)).
Proof.
  intros Hreach Ht.
  apply (proj1 (Forall_lookup _ _)
           (carried_reachable
              (λ link data, ∃ i r, nodes0 !! i = Some r ∧ link ∈ _links r
                                   ∧ data = (_name r, oid (self r)))
              nodes0 st (λ i r link Hi Hl, ex_intro _ i (ex_intro _ r (conj Hi (conj Hl eq_refl))))
              Hreach) t th Ht).
Qed.

(** On the line of four routers, thread 7 is started by the broadcast S
    makes from inside [receive]: it runs on the link of S to R. *)
Lemma threads_carry_broadcasts_witness :
  let st := after Line4.network Line4.schedule in
  ∃ th, threads st !! 7 = Some th ∧
    ∃ i r, Line4.network !! i = Some r ∧ t_link th ∈ _links r
           ∧ t_data th = (_name r, oid (self r)).
Proof.
  cbn zeta.
  destruct (threads (after Line4.network Line4.schedule) !! 7) as [th|] eqn:Ht;
    [|by vm_compute in Ht].
  exists th. split; [done|].
  exact (threads_carry_broadcasts Line4.network _ 7 th (after_reachable _ _) Ht).
Defined.

(** *** How a step changes a router *)

(** After a step a router is as it was, or it has been started, or a
    thread inside its [receive] has been through one item. *)
Lemma step_nodes st a st' i r' :
  step st a = Some st' → nodes st' !! i = Some r' →
  nodes st !! i = Some r' ∨
  (a = Start ∧ i = started st ∧
   ∃ r, nodes st !! i = Some r ∧ r' = (Router.dvr_start r).1) ∨
  (∃ t th link_cost changed pos used r src item,
     a = Iter t ∧ threads st !! t = Some th ∧
     t_phase th = Iterating link_cost changed pos used ∧ dest th = i ∧
     nodes st !! i = Some r ∧ nodes st !! (t_data th).2 = Some src ∧
     _dv src !! pos = Some item ∧
     r' = Router.with_dv r (Router.relax link_cost (t_data th).1 (_dv r, changed) item).1).
Proof.
  intros Hstep Hi. destruct a as [|t|t|t]; simpl in Hstep.
  - apply start_inv in Hstep as (r & Hr & _ & ->).
    rewrite perform_all_nodes in Hi. cbn [nodes] in Hi.
    destruct (decide (i = started st)) as [->|Hne].
    + rewrite list_lookup_insert_eq in Hi by (by eapply lookup_lt_Some).
      injection Hi as <-. right. left. eauto.
    + rewrite list_lookup_insert_ne in Hi by done. by left.
  - apply wake_inv in Hstep as (th & _ & _ & Hnodes & _). left. congruence.
  - apply enter_inv in Hstep as (th & r & p & _ & _ & _ & _ & -> & _). by left.
  - apply iter_inv in Hstep
      as (th & link_cost & changed & pos & used & r & src & Ht & Hp & Hr & Hsrc & Hcase).
    destruct Hcase as [[_ ->]|[(item & Hitem & ->)|[_ ->]]].
    + by left.
    + cbn [nodes set_phase set_node] in Hi.
      destruct (decide (i = dest th)) as [->|Hne].
      * rewrite list_lookup_insert_eq in Hi by (by eapply lookup_lt_Some).
        injection Hi as <-. right. right.
        exists t, th, link_cost, changed, pos, used, r, src, item. done.
      * rewrite list_lookup_insert_ne in Hi by done. by left.
    + rewrite perform_all_nodes in Hi. by left.
Qed.

Lemma discover_link_mem links : ∀ dv l,
  l ∈ links → Dict.mem (ref_name (_destination l)) (foldl Router.discover dv links) = true.
Proof.
  induction links as [|link links IH]; intros dv l Hin; [by apply elem_of_nil in Hin|].
  apply elem_of_cons in Hin as [->|Hin]; simpl; [|by apply IH].
  apply discover_mem. unfold Router.discover. simpl. apply mem_true.
  eexists. apply get_set_eq.
Qed.

Lemma held_true st i :
  held st i = true →
  ∃ t th, threads st !! t = Some th ∧ iterating th = true ∧ dest th = i.
Proof.
  unfold held. intros (th & Hin & Hth)%existsb_exists.
  apply list_elem_of_In, list_elem_of_lookup in Hin as [t Ht].
  apply andb_prop in Hth as [Hit Hd%Nat.eqb_eq]. eauto.
Qed.

Lemma iter_can st t th r src :
  threads st !! t = Some th → iterating th = true →
  nodes st !! dest th = Some r → nodes st !! (t_data th).2 = Some src →
  ∃ st', step st (Iter t) = Some st'.
Proof.
  intros Ht Hit Hr Hsrc. simpl. unfold iter. rewrite Ht.
  unfold iterating in Hit. destruct (t_phase th); try done.
  destruct (t_data th) as [sender received]. simpl in Hsrc. rewrite Hr, Hsrc.
  destruct (negb (length (_dv src) =? used)); [eauto|].
  destruct (_dv src !! pos) as [item|]; [|eauto].
  destruct (Router.relax link_cost sender (_dv r, changed) item). eauto.
Qed.

Lemma forallb_false_lookup {A : Type} (p : A → bool) (l : list A) :
  forallb p l = false → ∃ i x, l !! i = Some x ∧ p x = false.
Proof.
  induction l as [|y l IH]; [done|]. simpl. destruct (p y) eqn:Hy; simpl.
  - intros (i & x & Hi & Hx)%IH. by exists (S i), x.
  - intros _. by exists 0, y.
Qed.

Lemma relax_values (P : Entry → Prop) link_cost sender dv changed item :
  (∀ cost, P (cost, Some sender)) →
  Forall (λ item, P item.2) dv →
  Forall (λ item, P item.2) (Router.relax link_cost sender (dv, changed) item).1.
Proof.
  intros Hnew Hdv. destruct item as [node_name [cost next_hop]]. simpl.
  destruct (Dict.get node_name dv) as [[known hop]|]; simpl; [|by apply Forall_set].
  destruct (link_cost + cost <? known)%Z; simpl; [by apply Forall_set|done].
Qed.

Lemma discover_values (P : Entry → Prop) links : ∀ dv,
  Forall (λ l, P (_cost l, Some (ref_name (_destination l)))) links →
  Forall (λ item, P item.2) dv →
  Forall (λ item, P item.2) (foldl Router.discover dv links).
Proof.
  induction links as [|link links IH]; intros dv Hlinks Hdv; [done|].
  apply Forall_cons in Hlinks as [Hlink Hlinks]. simpl. apply IH; [done|].
  unfold Router.discover. simpl. by apply Forall_set.
Qed.

(** *** Networks wired as [Network.__init__] wires them

    The routers have empty tables, the identity of each is its place in the
    node list, and every link has a link back. *)
Section Wired.
Variable nodes0 : list Router.
Hypothesis fresh : Forall (λ r, _dv r = []) nodes0.
Hypothesis own_oid : ∀ i r, nodes0 !! i = Some r → oid (self r) = i.
Hypothesis duplex : ∀ i r l, nodes0 !! i = Some r → l ∈ _links r →
  ∃ r' l', nodes0 !! oid (_destination l) = Some r' ∧ l' ∈ _links r'
           ∧ _destination l' = self r.

(** A thread finds the router it is sent to and the dictionary it is
    given, and that router has a link to a router of the name it is given. *)
Lemma thread_ends st t th :
  reachable nodes0 st → threads st !! t = Some th →
  ∃ r src back,
    nodes st !! dest th = Some r ∧ nodes st !! (t_data th).2 = Some src ∧
    back ∈ _links r ∧ ref_name (_destination back) = (t_data th).1.
Proof.
  intros Hreach Ht.
  pose proof (carried_reachable
    (λ link data, ∃ r0 back,
       is_Some (nodes0 !! data.2) ∧ nodes0 !! oid (_destination link) = Some r0 ∧
       back ∈ _links r0 ∧ ref_name (_destination back) = data.1) nodes0 st) as Hall.
  cbv beta in Hall.
  assert (∃ r0 back, is_Some (nodes0 !! (t_data th).2)
            ∧ nodes0 !! dest th = Some r0 ∧ back ∈ _links r0
            ∧ ref_name (_destination back) = (t_data th).1)
    as (r0 & back & Hsrc0 & Hr0 & Hback & Hname).
  { apply (proj1 (Forall_lookup _ _) (Hall
      (λ i r link Hi Hl,
         match duplex i r link Hi Hl with
         | ex_intro _ r' (ex_intro _ l' (conj H1 (conj H2 H3))) =>
             ex_intro _ r' (ex_intro _ l'
               (conj (eq_ind_r (λ k, is_Some (nodes0 !! k)) (mk_is_Some _ _ Hi) (own_oid i r Hi))
                  (conj H1 (conj H2 (f_equal ref_name H3)))))
         end) Hreach) t th Ht). }
  pose proof (reachable_length _ _ Hreach) as Hlen.
  destruct (lookup_lt_is_Some_2 (nodes st) (dest th)) as [r Hr].
  { rewrite Hlen. by eapply lookup_lt_Some. }
  destruct (lookup_lt_is_Some_2 (nodes st) (t_data th).2) as [src Hsrc].
  { rewrite Hlen. by apply lookup_lt_is_Some_1. }
  destruct (reachable_node _ _ _ _ Hreach Hr) as (r0' & Hr0' & _ & Hlinks).
  exists r, src, back. split_and!; [done..| |done].
  rewrite <- Hlinks. congruence.
Qed.

Lemma neighbours_known st i r :
  reachable nodes0 st → nodes st !! i = Some r → Dict.mem (_name r) (_dv r) = true →
  Forall (λ l, Dict.mem (ref_name (_destination l)) (_dv r) = true) (_links r).
Proof.
  intros Hreach. revert i r.
  induction Hreach as [|st a st' Hreach IH Hstep]; intros i r' Hi Hmem.
  { simpl in Hi. by rewrite (proj1 (Forall_lookup _ _) fresh i r' Hi) in Hmem. }
  destruct (step_nodes _ _ _ _ _ Hstep Hi)
    as [Hold|[(-> & -> & r & Hr & ->)
             |(t & th & lc & ch & pos & used & r & src & item
               & -> & Ht & Hp & <- & Hr & Hsrc & Hitem & ->)]].
  - by eapply IH.
  - apply Forall_forall. intros l Hl. by apply discover_link_mem.
  - pose proof (inv_reachable _ _ fresh Hreach) as (_ & _ & Hself & Hths).
    pose proof (proj1 (Forall_lookup _ _) Hths t th Ht) as Hg.
    unfold gated in Hg. rewrite Hp in Hg.
    eapply Forall_impl; [exact (IH _ _ Hr (Hself _ _ Hg Hr))|].
    intros l Hl. cbn [Router.with_dv _dv]. by apply relax_mem.
Qed.

Lemma no_key_error_reachable st :
  reachable nodes0 st →
  Forall (λ th, ∀ key, t_phase th ≠ Died (KeyError key)) (threads st).
Proof.
  assert (∀ i th, (∀ key, t_phase th ≠ Died (KeyError key)) →
            ∀ key, t_phase (notify i th) ≠ Died (KeyError key)) as Hnotify.
  { intros i th Hth key. unfold notify. destruct (t_phase th) eqn:Hp; rewrite ?Hp; try done.
    destruct (dest th =? i); simpl; by rewrite ?Hp. }
  induction 1 as [|st a st' Hreach IH Hstep]; [constructor|].
  destruct a as [|t|t|t]; simpl in Hstep.
  - apply start_inv in Hstep as (r & Hr & _ & ->).
    apply perform_all_threads; [by apply Hnotify|done|done].
  - apply wake_inv in Hstep as (th & Ht & _ & _ & _ & ->).
    apply Forall_alter; [done|]. intros th0 _ _ key. simpl.
    by destruct (_cost (t_link th) <? 0)%Z.
  - apply enter_inv in Hstep as (th & r & p & Ht & _ & Hr & _ & -> & Hcase).
    apply Forall_alter; [done|]. intros th0 Ht0 _ key. simpl.
    destruct Hcase as [[_ ->]|[(Hmem & Hget & _)|(_ & lc & hop & src & _ & _ & ->)]];
      [done| |done].
    destruct (thread_ends st t th Hreach Ht) as (r1 & src & back & Hr1 & _ & Hback & Hname).
    assert (r1 = r) as -> by congruence.
    pose proof (neighbours_known st _ r Hreach Hr Hmem) as Hknown.
    apply (proj1 (Forall_forall _ _) Hknown) in Hback. rewrite Hname in Hback.
    unfold Dict.mem in Hback. by rewrite Hget in Hback.
  - apply iter_inv in Hstep
      as (th & link_cost & changed & pos & used & r & src & Ht & _ & Hr & _ & Hcase).
    destruct Hcase as [[_ ->]|[(item & _ & ->)|[_ ->]]].
    + apply Forall_alter; [done|]. by intros.
    + apply Forall_alter; [done|]. by intros.
    + apply perform_all_threads; [by apply Hnotify|done|].
      apply Forall_alter; [done|]. by intros.
Qed.

Lemma progress_reachable st :
  reachable nodes0 st → quiescent st = false → ∃ a st', step st a = Some st'.
Proof.
  intros Hreach Hq.
  pose proof (inv_reachable _ _ fresh Hreach) as (Hlen & _ & _ & Hths).
  destruct (decide (started st < length (nodes st))) as [Hlt|Hge].
  { apply lookup_lt_is_Some_2 in Hlt as [r Hr]. exists Start. simpl. unfold start.
    rewrite Hr. destruct (held st (started st)) eqn:Hheld.
    - apply held_true in Hheld as (t & th & Ht & Hit & Hd).
      pose proof (proj1 (Forall_lookup _ _) Hths t th Ht) as Hg.
      unfold gated in Hg. unfold iterating in Hit. destruct (t_phase th); try done. lia.
    - destruct (Router.dvr_start r). eauto. }
  assert (started st = length (nodes st)) as Hall by lia.
  unfold quiescent in Hq. rewrite Hall, Nat.eqb_refl in Hq. simpl in Hq.
  apply forallb_false_lookup in Hq as (t & th & Ht & Hover).
  destruct (thread_ends st t th Hreach Ht) as (r & src & back & Hr & Hsrc & _).
  unfold over in Hover. destruct (t_phase th) eqn:Hp; try done.
  - exists (Wake t). simpl. unfold wake. rewrite Ht, Hp.
    destruct (_cost (t_link th) <? 0)%Z; eauto.
  - destruct (held st (dest th)) eqn:Hheld.
    + apply held_true in Hheld as (t' & th' & Ht' & Hit' & Hd').
      destruct (thread_ends st t' th' Hreach Ht') as (r' & src' & _ & Hr' & Hsrc' & _).
      exists (Iter t'). by eapply iter_can.
    + exists (Enter t). simpl. unfold enter. rewrite Ht, Hp, Hr, Hheld.
      destruct (negb (Dict.mem (_name r) (_dv r))); [eauto|].
      destruct (t_data th) as [sender received]. simpl in Hsrc. rewrite Hsrc.
      destruct (Dict.get sender (_dv r)) as [[link_cost hop]|]; eauto.
  - pose proof (proj1 (Forall_lookup _ _) Hths t th Ht) as Hg.
    unfold gated in Hg. rewrite Hp in Hg. apply lookup_lt_Some in Hr. lia.
  - exists (Iter t). eapply iter_can; [done| |done..]. unfold iterating. by rewrite Hp.
Qed.

Lemma next_hops_reachable st i r :
  reachable nodes0 st → nodes st !! i = Some r →
  Forall (λ item, ∀ hop, item.2.2 = Some hop →
            ∃ l, l ∈ _links r ∧ ref_name (_destination l) = hop) (_dv r).
Proof.
  intros Hreach. revert i r.
  induction Hreach as [|st a st' Hreach IH Hstep]; intros i r' Hi.
  { simpl in Hi. by rewrite (proj1 (Forall_lookup _ _) fresh i r' Hi). }
  destruct (step_nodes _ _ _ _ _ Hstep Hi)
    as [Hold|[(-> & -> & r & Hr & ->)
             |(t & th & lc & ch & pos & used & r & src & item
               & -> & Ht & Hp & <- & Hr & Hsrc & Hitem & ->)]].
  - by eapply IH.
  - cbn [Router.dvr_start fst Router._find_neighbors Router.with_dv _dv _links].
    apply (discover_values
             (λ v, ∀ hop, v.2 = Some hop →
                ∃ l, l ∈ _links r ∧ ref_name (_destination l) = hop)).
    + apply Forall_forall. intros l Hl hop [= <-]. eauto.
    + apply (Forall_set
               (λ v : Entry, ∀ hop, v.2 = Some hop →
                  ∃ l, l ∈ _links r ∧ ref_name (_destination l) = hop));
        [by apply (IH _ _ Hr)|done].
  - cbn [Router.with_dv _dv _links].
    destruct (thread_ends st t th Hreach Ht) as (r1 & _ & back & Hr1 & _ & Hback & Hname).
    assert (r1 = r) as -> by congruence.
    apply (relax_values
             (λ v, ∀ hop, v.2 = Some hop →
                ∃ l, l ∈ _links r ∧ ref_name (_destination l) = hop)).
    + intros cost hop [= <-]. eauto.
    + by apply (IH _ _ Hr).
Qed.

End Wired.

(** *** The network [Network.__init__] builds, running *)

Lemma init_fresh node_names costs :
  Forall (λ r, _dv r = []) (Network.init node_names costs).
Proof.
  apply Forall_lookup. intros i r Hi.
  assert (i < length node_names) as Hlt.
  { rewrite <- (init_length node_names costs). by eapply lookup_lt_Some. }
  apply lookup_lt_is_Some_2 in Hlt as [name Hname].
  rewrite (init_lookup _ costs _ _ Hname) in Hi. by injection Hi as <-.
Qed.

Lemma init_own_oid node_names costs i r :
  Network.init node_names costs !! i = Some r → oid (self r) = i.
Proof.
  intros Hi.
  assert (i < length node_names) as Hlt.
  { rewrite <- (init_length node_names costs). by eapply lookup_lt_Some. }
  apply lookup_lt_is_Some_2 in Hlt as [name Hname].
  rewrite (init_lookup _ costs _ _ Hname) in Hi. by injection Hi as <-.
Qed.

Lemma init_duplex node_names costs i r l :
  Network.init node_names costs !! i = Some r → l ∈ _links r →
  ∃ r' l', Network.init node_names costs !! oid (_destination l) = Some r'
           ∧ l' ∈ _links r' ∧ _destination l' = self r.
Proof.
  intros Hi Hl.
  destruct (init_links_elem _ _ _ _ _ Hi Hl)
    as (name & _ & _ & q & a & b & c & Hq & Hcq & Hc & Hcase).
  destruct (init_links_intro _ _ _ _ _ _ Hq Hcq Hc)
    as (ra & rb & Hra & Hsa & Hrb & Hsb & Hab & Hba).
  destruct Hcase as [[-> ->]|[-> ->]]; simpl; eauto.
Qed.

(** X16. On a network built by [Network.__init__], whatever the names and
    the costs and however the threads are scheduled, [self._dv[sender]] in
    [receive] never raises [KeyError]: a router that lets a thread past
    [wait] has been through [_find_neighbors], and the sender of every
    datagram it is given is at the other end of one of its links. *)
Theorem receive_finds_its_sender node_names costs st t th key :
  reachable (Network.init node_names costs) st → threads st !! t = Some th →
  t_phase th ≠ Died (KeyError key).
Proof.
  intros Hreach Ht.
  apply (proj1 (Forall_lookup _ _)
           (no_key_error_reachable _ (init_fresh node_names costs)
              (init_own_oid node_names costs) (init_duplex node_names costs) st Hreach)
           t th Ht).
Qed.

(** On the line of four routers the thread that carries the table of S to
    R dies, of the [RuntimeError] of the iterator. *)
Lemma receive_finds_its_sender_witness :
  ∃ th, threads (after Line4.network Line4.schedule) !! 3 = Some th ∧
        t_data th = ("S", 2) ∧ over th = true ∧ t_phase th ≠ Died (KeyError "S").
Proof.
  destruct (threads (after Line4.network Line4.schedule) !! 3) as [th|] eqn:Ht;
    [|by vm_compute in Ht].
  exists th. split; [done|].
  pose proof Ht as Hth. vm_compute in Hth. injection Hth as <-.
  split; [done|]. split; [done|].
  exact (receive_finds_its_sender Line4.node_names Line4.costs _ 3 _ "S"
           (after_reachable _ _) Ht).
Defined.

(** X17. A network built by [Network.__init__] never deadlocks: in every
    state it can reach, some thread can take a step unless the main thread
    has started every router and every thread has returned or died, in
    which case none can.  In particular a thread left in [wait] is always
    woken by the [notify_all] of the [dvr_start] it waits for, and a thread
    that finds the lock taken finds it held by a thread that can go on. *)
Theorem running_network_never_deadlocks node_names costs st :
  reachable (Network.init node_names costs) st →
  quiescent st = false ↔ ∃ a st', step st a = Some st'.
Proof.
  intros Hreach. split.
  - apply (progress_reachable _ (init_fresh node_names costs)
             (init_own_oid node_names costs) (init_duplex node_names costs) st Hreach).
  - intros (a & st' & Hstep). destruct (quiescent st) eqn:Hq; [|done].
    by rewrite (quiescent_stuck st a Hq) in Hstep.
Qed.

(** With two routers: the thread that carries the table of A waits in
    [receive] of B, which has not been started; the main thread can go on. *)
Lemma running_network_never_deadlocks_witness :
  let st := after Pair.network [Start; Wake 0; Enter 0] in
  t_phase <$> threads st !! 0 = Some Waiting ∧
  (quiescent st = false ↔ ∃ a st', step st a = Some st').
Proof.
  cbn zeta. split; [by vm_compute|].
  apply (running_network_never_deadlocks ["A"; "B"] [Some 5%Z]), after_reachable.
Defined.

(** X18. Every next hop is a neighbour: in every state a network built by
    [Network.__init__] can reach, the next hop recorded for a destination
    is the name of the router at the other end of one of the router's own
    links. *)
Theorem next_hops_are_neighbours node_names costs st i r destination cost hop :
  reachable (Network.init node_names costs) st → nodes st !! i = Some r →
  (destination, (cost, Some hop)) ∈ _dv r →
  ∃ l, l ∈ _links r ∧ ref_name (_destination l) = hop.
Proof.
  intros Hreach Hi Hin.
  pose proof (next_hops_reachable _ (init_fresh node_names costs)
                (init_own_oid node_names costs) (init_duplex node_names costs)
                st i r Hreach Hi) as Hall.
  by apply (proj1 (Forall_forall _ _) Hall _ Hin hop).
Qed.

(** On the triangle, once A has read the table of B: its route to C goes
    through B, and A has a link to B. *)
Lemma next_hops_are_neighbours_witness :
  ∃ r, nodes (after Triangle.network Triangle.later) !! 0 = Some r ∧
       ("C", (2%Z, Some "B")) ∈ _dv r ∧
       ∃ l, l ∈ _links r ∧ ref_name (_destination l) = "B".
Proof.
  destruct (nodes (after Triangle.network Triangle.later) !! 0) as [r|] eqn:Hr;
    [|by vm_compute in Hr].
  exists r. split; [done|].
  pose proof Hr as Hr'. vm_compute in Hr'. injection Hr' as <-.
  assert (("C", (2%Z, Some "B")) ∈
            [("A", (0%Z, @None string)); ("B", (1%Z, Some "B")); ("C", (2%Z, Some "B"))])
    as Hin by (apply list_elem_of_lookup; by exists 2).
  split; [exact Hin|].
  exact (next_hops_are_neighbours Triangle.node_names Triangle.costs _ 0 _ "C" 2%Z "B"
           (after_reachable _ _) Hr Hin).
Defined.

(** *** The entry of a router for itself, in a running network *)
Section SelfEntry.
Variable nodes0 : list Router.
Hypothesis fresh : Forall (λ r, _dv r = []) nodes0.
Hypothesis sound_links : ∀ i r, nodes0 !! i = Some r →
  Forall (λ link, ref_name (_destination link) ≠ _name r) (_links r) ∧
  Forall (λ link, (0 ≤ _cost link)%Z) (_links r).

Lemma self_entry_reachable st :
  reachable nodes0 st →
  (∀ i r, nodes st !! i = Some r →
     Forall (λ item : string * Entry, (0 ≤ item.2.1)%Z) (_dv r) ∧
     (Dict.mem (_name r) (_dv r) = true →
      Dict.get (_name r) (_dv r) = Some (0%Z, None))) ∧
  Forall (λ th, match t_phase th with
                | Iterating link_cost _ _ _ => (0 ≤ link_cost)%Z
                | _ => True
                end) (threads st).
Proof.
  assert (∀ i th,
            match t_phase th with
            | Iterating link_cost _ _ _ => (0 ≤ link_cost)%Z | _ => True end →
            match t_phase (notify i th) with
            | Iterating link_cost _ _ _ => (0 ≤ link_cost)%Z | _ => True end) as Hnotify.
  { intros i th. unfold notify. destruct (t_phase th) eqn:Hp; rewrite ?Hp; try done.
    by destruct (dest th =? i); simpl; rewrite ?Hp. }
  induction 1 as [|st a st' Hreach [IHn IHt] Hstep].
  { split; [|constructor]. intros i r Hi. simpl in Hi.
    by rewrite (proj1 (Forall_lookup _ _) fresh i r Hi). }
  split.
  - intros i r' Hi.
    destruct (step_nodes _ _ _ _ _ Hstep Hi)
      as [Hold|[(-> & -> & r & Hr & ->)
               |(t & th & lc & ch & pos & used & r & src & item
                 & -> & Ht & Hp & <- & Hr & Hsrc & Hitem & ->)]].
    + by apply (IHn i).
    + destruct (reachable_node _ _ _ _ Hreach Hr) as (r0 & H0 & Hself & Hlinks).
      destruct (sound_links _ _ H0) as [Hnames Hcosts].
      rewrite Hlinks in Hnames, Hcosts. unfold _name in Hnames. rewrite Hself in Hnames.
      cbn [Router.dvr_start fst Router._find_neighbors Router.with_dv _dv _links _name self].
      split.
      * apply find_neighbors_nonneg; [done|].
        apply (Forall_set (λ v : Entry, (0 ≤ v.1)%Z)); [by apply (IHn _ _ Hr)|done].
      * intros _. rewrite find_neighbors_get_other by done. apply get_set_eq.
    + pose proof (inv_reachable _ _ fresh Hreach) as (_ & _ & Hself & Hths).
      pose proof (proj1 (Forall_lookup _ _) Hths t th Ht) as Hg.
      unfold gated in Hg. rewrite Hp in Hg.
      pose proof (proj1 (Forall_lookup _ _) IHt t th Ht) as Hlc.
      cbv beta in Hlc. rewrite Hp in Hlc.
      destruct (IHn _ _ Hr) as [Hnn Hown]. specialize (Hown (Hself _ _ Hg Hr)).
      destruct (IHn _ _ Hsrc) as [Hsrcnn _].
      pose proof (proj1 (Forall_lookup _ _) Hsrcnn pos item Hitem) as Hitemnn.
      destruct (relax_self (_name r) lc (t_data th).1 (_dv r) ch item Hlc Hitemnn Hown Hnn)
        as [Hget Hnn']. by split.
  - destruct a as [|t|t|t]; simpl in Hstep.
    + apply start_inv in Hstep as (r & Hr & _ & ->).
      apply perform_all_threads; [by apply Hnotify|done|done].
    + apply wake_inv in Hstep as (th & Ht & _ & _ & _ & ->).
      apply Forall_alter; [done|]. intros th0 _ _. simpl.
      by destruct (_cost (t_link th) <? 0)%Z.
    + apply enter_inv in Hstep as (th & r & p & Ht & _ & Hr & _ & -> & Hcase).
      apply Forall_alter; [done|]. intros th0 Ht0 _. simpl.
      destruct Hcase as [[_ ->]|[(_ & _ & ->)|(_ & lc & hop & src & Hget & _ & ->)]];
        [done..|].
      destruct (IHn _ _ Hr) as [Hnn _]. apply get_Some_elem in Hget.
      by apply (proj1 (Forall_forall _ _) Hnn _ Hget).
    + apply iter_inv in Hstep
        as (th & link_cost & changed & pos & used & r & src & Ht & Hp & Hr & _ & Hcase).
      pose proof (proj1 (Forall_lookup _ _) IHt t th Ht) as Hlc.
      cbv beta in Hlc. rewrite Hp in Hlc.
      destruct Hcase as [[_ ->]|[(item & _ & ->)|[_ ->]]].
      * apply Forall_alter; [done|]. by intros.
      * apply Forall_alter; [done|]. by intros.
      * apply perform_all_threads; [by apply Hnotify|done|].
        apply Forall_alter; [done|]. by intros.
Qed.

End SelfEntry.

(** X19. The entry of a router for itself, under any schedule.  On a
    network built from distinct names and positive costs, in every state
    the running network can reach, every router the main thread has started
    holds cost [0] and next hop [None] for its own name, and no table holds
    a negative cost. *)
Theorem self_entry_in_every_state node_names costs st i r :
  NoDup node_names →
  Forall (λ cost, match cost with Some c => (0 < c)%Z | None => True end) costs →
  reachable (Network.init node_names costs) st → nodes st !! i = Some r →
  (i < started st → Dict.get (_name r) (_dv r) = Some (0%Z, None)) ∧
  Forall (λ item, (0 ≤ item.2.1)%Z) (_dv r).
Proof.
  intros Hnames Hcosts Hreach Hi.
  assert (∀ j r0, Network.init node_names costs !! j = Some r0 →
            Forall (λ link, ref_name (_destination link) ≠ _name r0) (_links r0) ∧
            Forall (λ link, (0 ≤ _cost link)%Z) (_links r0)) as Hsound.
  { intros j r0 Hj.
    destruct (constructed_routers_well_formed node_names costs r0 Hnames Hcosts)
      as (H1 & H2 & _); [apply list_elem_of_lookup; eauto|].
    split; [done|]. eapply Forall_impl; [exact H2|]. intros link. simpl. lia. }
  destruct (self_entry_reachable _ (init_fresh node_names costs) Hsound st Hreach)
    as [Hnodes _].
  destruct (Hnodes i r Hi) as [Hnn Hown]. split; [|done].
  intros Hlt. apply Hown.
  by destruct (inv_reachable _ _ (init_fresh node_names costs) Hreach) as (_ & _ & Hself & _);
    apply (Hself i r).
Qed.

(** On the triangle, once A has read the table of B. *)
Lemma self_entry_in_every_state_witness :
  ∃ r, nodes (after Triangle.network Triangle.later) !! 0 = Some r ∧
       _name r = "A" ∧
       (0 < started (after Triangle.network Triangle.later) →
        Dict.get (_name r) (_dv r) = Some (0%Z, None)) ∧
       Forall (λ item, (0 ≤ item.2.1)%Z) (_dv r).
Proof.
  destruct (nodes (after Triangle.network Triangle.later) !! 0) as [r|] eqn:Hr;
    [|by vm_compute in Hr].
  exists r. split; [done|]. split.
  { pose proof Hr as Hr'. vm_compute in Hr'. by injection Hr' as <-. }
  apply (self_entry_in_every_state Triangle.node_names Triangle.costs _ 0 r).
  - apply (bool_decide_unpack _). by vm_compute.
  - unfold Triangle.costs. by repeat constructor.
  - apply after_reachable.
  - exact Hr.
Defined.

(** *** Costs along a run *)

Lemma step_cost_le st a st' i r destination cost hop :
  inv st → step st a = Some st' →
  nodes st !! i = Some r → Dict.get destination (_dv r) = Some (cost, hop) →
  ∃ r' cost' hop',
    nodes st' !! i = Some r' ∧ Dict.get destination (_dv r') = Some (cost', hop')
    ∧ (cost' ≤ cost)%Z.
Proof.
  intros (_ & Hfresh & _ & _) Hstep Hi Hget.
  destruct (lookup_lt_is_Some_2 (nodes st') i) as [r' Hi'].
  { pose proof (step_topology _ _ _ Hstep) as [Hself _].
    apply (f_equal length) in Hself. rewrite !length_map in Hself.
    rewrite Hself. by eapply lookup_lt_Some. }
  exists r'.
  destruct (step_nodes _ _ _ _ _ Hstep Hi')
    as [Hold|[(-> & -> & r1 & Hr1 & ->)
             |(t & th & lc & ch & pos & used & r1 & src & item
               & -> & Ht & Hp & <- & Hr1 & Hsrc & Hitem & ->)]].
  - assert (r' = r) as -> by congruence. exists cost, hop. split_and!; [done..|lia].
  - rewrite (Hfresh (started st) r) in Hget by done. done.
  - assert (r1 = r) as -> by congruence. cbn [Router.with_dv _dv].
    destruct (relax_cost_le lc (t_data th).1 (_dv r) ch item destination cost hop Hget)
      as (cost' & hop' & Hget' & Hle).
    by exists cost', hop'.
Qed.

(** X20. Costs never increase, under any schedule.  From any state a
    network that started with empty tables can reach, along any run of the
    threads, a router that holds a cost for a destination goes on holding
    one, and it is at most the cost it held. *)
Theorem costs_never_increase_in_any_run nodes0 st schedule st' i r destination cost hop :
  Forall (λ r, _dv r = []) nodes0 → reachable nodes0 st →
  run st schedule = Some st' →
  nodes st !! i = Some r → Dict.get destination (_dv r) = Some (cost, hop) →
  ∃ r' cost' hop',
    nodes st' !! i = Some r' ∧ Dict.get destination (_dv r') = Some (cost', hop')
    ∧ (cost' ≤ cost)%Z.
Proof.
  intros Hfresh Hreach. revert st Hreach r cost hop.
  induction schedule as [|a schedule IH]; intros st Hreach r cost hop; simpl.
  - intros [= <-] Hi Hget. exists r, cost, hop. split_and!; [done..|lia].
  - destruct (step st a) as [st1|] eqn:Hstep; [|done]. intros Hrun Hi Hget.
    destruct (step_cost_le _ _ _ _ _ _ _ _ (inv_reachable _ _ Hfresh Hreach) Hstep Hi Hget)
      as (r1 & cost1 & hop1 & Hi1 & Hget1 & Hle1).
    destruct (IH st1 (reachable_step _ _ _ _ Hreach Hstep) r1 cost1 hop1 Hrun Hi1 Hget1)
      as (r' & cost' & hop' & Hi' & Hget' & Hle').
    exists r', cost', hop'. split_and!; [done..|lia].
Qed.

(** On the triangle: A holds cost 5 for C when the routers have started,
    and cost 2 once it has read the table of B. *)
Lemma costs_never_increase_in_any_run_witness :
  ∃ r, nodes (after Triangle.network Triangle.sent) !! 0 = Some r ∧
       Dict.get "C" (_dv r) = Some (5%Z, Some "C") ∧
       ∃ r' cost' hop',
         nodes (after Triangle.network Triangle.later) !! 0 = Some r' ∧
         Dict.get "C" (_dv r') = Some (cost', hop') ∧ (cost' ≤ 5)%Z.
Proof.
  destruct (nodes (after Triangle.network Triangle.sent) !! 0) as [r|] eqn:Hr;
    [|by vm_compute in Hr].
  exists r.
  assert (Dict.get "C" (_dv r) = Some (5%Z, Some "C")) as Hget.
  { pose proof Hr as Hr'. vm_compute in Hr'. by injection Hr' as <-. }
  split; [done|]. split; [done|].
  apply (costs_never_increase_in_any_run Triangle.network
           (after Triangle.network Triangle.sent)
           [Wake 2; Enter 2; Iter 2; Iter 2; Iter 2] _ 0 r "C" 5%Z (Some "C")).
  - apply (bool_decide_unpack _). by vm_compute.
  - apply after_reachable.
  - by vm_compute.
  - exact Hr.
  - exact Hget.
Defined.

(** On the triangle: the thread that carries the table of B has arrived at
    A; run on its own it leaves A as [Router.receive] does, with the route
    to C through B. *)
Lemma whole_is_receive_witness :
  let st := after Triangle.network (Triangle.sent ++ [Wake 2]) in
  ∃ r src r' evs,
    nodes st !! 0 = Some r ∧ nodes st !! 1 = Some src ∧
    Router.receive r ("B", _dv src) = Returned (r', evs) ∧
    _dv r' = [("A", (0%Z, None)); ("B", (1%Z, Some "B")); ("C", (2%Z, Some "B"))] ∧
    run st (whole 2 (length (_dv src)))
    = Some (foldl (perform 0) (set_phase (set_node st 0 r') 2 Finished) evs).
Proof.
  cbn zeta.
  destruct (threads (after Triangle.network (Triangle.sent ++ [Wake 2])) !! 2)
    as [th|] eqn:Ht; [|by vm_compute in Ht].
  destruct (nodes (after Triangle.network (Triangle.sent ++ [Wake 2])) !! 0)
    as [r|] eqn:Hr; [|by vm_compute in Hr].
  destruct (nodes (after Triangle.network (Triangle.sent ++ [Wake 2])) !! 1)
    as [src|] eqn:Hsrc; [|by vm_compute in Hsrc].
  pose proof Ht as Ht'. vm_compute in Ht'. injection Ht' as <-.
  pose proof Hr as Hr'. vm_compute in Hr'. injection Hr' as <-.
  pose proof Hsrc as Hsrc'. vm_compute in Hsrc'. injection Hsrc' as <-.
  eexists _, _, _, _. split; [done|]. split; [done|]. split; [reflexivity|].
  split; [reflexivity|].
  apply (whole_is_receive _ 2 _ _ _ "B" 1 _ _ Ht eq_refl eq_refl Hr Hsrc);
    [done|by vm_compute|reflexivity].
Defined.

End Scheduling.

(** ** A call of [receive] among the other threads *)
Section Returning.
Import Sim.
Implicit Types (st : state) (th : thread) (ev : event) (evs : list event).

Lemma perform_all_thread i evs : ∀ st t th,
  threads st !! t = Some th → t_phase th ≠ Waiting →
  threads (foldl (perform i) st evs) !! t = Some th.
Proof.
  induction evs as [|ev evs IH]; intros st t th Ht Hp; [done|]. simpl.
  apply IH; [|done]. destruct ev; simpl; [done| |].
  - by apply lookup_app_l_Some.
  - change (map (notify i) (threads st)) with (notify i <$> threads st).
    rewrite list_lookup_fmap, Ht. simpl. f_equal. unfold notify.
    by destruct (t_phase th).
Qed.

(** A step of another thread, or of the main thread, leaves a thread that
    does not wait as it is. *)
Lemma step_thread_frame st a st' t th :
  step st a = Some st' → threads st !! t = Some th → t_phase th ≠ Waiting →
  match a with Start => True | Wake t' | Enter t' | Iter t' => t' ≠ t end →
  threads st' !! t = Some th.
Proof.
  intros Hstep Ht Hp Ha. destruct a as [|t'|t'|t']; simpl in Hstep.
  - apply start_inv in Hstep as (r & _ & _ & ->). by apply perform_all_thread.
  - apply wake_inv in Hstep as (th' & _ & _ & _ & _ & Hths).
    by rewrite Hths, list_lookup_alter_ne.
  - apply enter_inv in Hstep as (th' & r & p & _ & _ & _ & _ & -> & _). simpl.
    by rewrite list_lookup_alter_ne.
  - apply iter_inv in Hstep
      as (th' & lc & ch & pos & used & r & src & _ & _ & _ & _ & Hcase).
    destruct Hcase as [[_ ->]|[(item & _ & ->)|[_ ->]]].
    + simpl. by rewrite list_lookup_alter_ne.
    + simpl. by rewrite list_lookup_alter_ne.
    + apply perform_all_thread; [|done]. simpl. by rewrite list_lookup_alter_ne.
Qed.

Lemma iter_or_not (a : action) t : a = Iter t ∨ a ≠ Iter t.
Proof.
  destruct a as [|t'|t'|t']; try (by right).
  destruct (decide (t' = t)) as [->|Hne]; [by left|right; congruence].
Qed.

(** A thread inside the loop takes no step but a turn of the loop. *)
Lemma iterating_acts st a st' t th :
  step st a = Some st' → threads st !! t = Some th → iterating th = true →
  a ≠ Iter t →
  match a with Start => True | Wake t' | Enter t' | Iter t' => t' ≠ t end.
Proof.
  intros Hstep Ht Hit Ha. unfold iterating in Hit.
  destruct a as [|t'|t'|t']; [done|..]; intros ->; simpl in Hstep.
  - apply wake_inv in Hstep as (th' & Ht' & Hp' & _).
    assert (th' = th) as -> by congruence. by rewrite Hp' in Hit.
  - apply enter_inv in Hstep as (th' & r & p & Ht' & Hp' & _).
    assert (th' = th) as -> by congruence. by rewrite Hp' in Hit.
  - done.
Qed.

Lemma over_stays st a st' t th :
  step st a = Some st' → threads st !! t = Some th → over th = true →
  threads st' !! t = Some th.
Proof.
  intros Hstep Ht Hover. unfold over in Hover.
  apply (step_thread_frame st a st' t th Hstep Ht); [by destruct (t_phase th)|].
  destruct a as [|t'|t'|t']; [done|..]; intros ->; simpl in Hstep.
  - apply wake_inv in Hstep as (th' & Ht' & Hp' & _).
    assert (th' = th) as -> by congruence. by rewrite Hp' in Hover.
  - apply enter_inv in Hstep as (th' & r & p & Ht' & Hp' & _).
    assert (th' = th) as -> by congruence. by rewrite Hp' in Hover.
  - apply iter_inv in Hstep as (th' & lc & ch & pos & used & r & src & Ht' & Hp' & _).
    assert (th' = th) as -> by congruence. by rewrite Hp' in Hover.
Qed.

Lemma over_run schedule : ∀ st st' t th,
  run st schedule = Some st' → threads st !! t = Some th → over th = true →
  threads st' !! t = Some th.
Proof.
  induction schedule as [|a schedule IH]; intros st st' t th; simpl.
  - by intros [= <-].
  - destruct (step st a) as [st1|] eqn:Hstep; [|done]. intros Hrun Ht Hover.
    eapply IH; [done| |done]. by eapply over_stays.
Qed.

(** After a turn of its loop a thread is in the loop, or it is over. *)
Lemma iter_self st t st' th :
  step st (Iter t) = Some st' → threads st !! t = Some th →
  ∃ p, threads st' !! t = Some (with_phase p th) ∧
       (iterating (with_phase p th) = true ∨ over (with_phase p th) = true).
Proof.
  intros Hstep Ht. simpl in Hstep.
  apply iter_inv in Hstep
    as (th' & lc & ch & pos & used & r & src & Ht' & Hp' & _ & _ & Hcase).
  assert (th' = th) as -> by congruence.
  destruct Hcase as [[_ ->]|[(item & _ & ->)|[_ ->]]].
  - eexists. simpl. rewrite list_lookup_alter_eq, Ht. simpl. split; [done|]. by right.
  - eexists. simpl. rewrite list_lookup_alter_eq, Ht. simpl. split; [done|]. by left.
  - exists Finished. split; [|by right].
    apply perform_all_thread; [|done]. simpl. by rewrite list_lookup_alter_eq, Ht.
Qed.

Lemma reachable_locked nodes0 st :
  Forall (λ r, _dv r = []) nodes0 → reachable nodes0 st →
  inv st ∧ exclusive (threads st).
Proof.
  intros Hfresh Hreach. split; [by eapply inv_reachable|].
  induction Hreach as [|st a st' _ IH Hstep]; [|by eapply exclusive_step].
  intros t1 t2 th1 th2 H1. done.
Qed.

Lemma step_length st a st' : step st a = Some st' → length (nodes st') = length (nodes st).
Proof.
  intros [Hself _]%step_topology. apply (f_equal length) in Hself.
  by rewrite !length_map in Hself.
Qed.

(** While a thread is inside the loop of [receive] of a router, no step
    but its own writes to that router. *)
Lemma node_frame nodes0 st a st' t th :
  Forall (λ r, _dv r = []) nodes0 → reachable nodes0 st →
  step st a = Some st' → threads st !! t = Some th → iterating th = true →
  a ≠ Iter t → nodes st' !! dest th = nodes st !! dest th.
Proof.
  intros Hfresh Hreach Hstep Ht Hit Ha.
  destruct (reachable_locked _ _ Hfresh Hreach) as [(_ & _ & _ & Hths) Hex].
  pose proof (proj1 (Forall_lookup _ _) Hths t th Ht) as Hg. unfold gated in Hg.
  destruct (nodes st' !! dest th) as [r'|] eqn:Hr'.
  - destruct (step_nodes _ _ _ _ _ Hstep Hr')
      as [Hold|[(-> & Hd & _)
               |(t' & th' & lc & ch & pos & used & r & src & item
                 & -> & Ht' & Hp' & Hd' & _)]]; [done|..].
    + unfold iterating in Hit. destruct (t_phase th); try done. lia.
    + assert (t' = t) as ->; [|done].
      apply (Hex t' t th' th Ht' Ht); [|done..]. unfold iterating. by rewrite Hp'.
  - symmetry. apply lookup_ge_None. rewrite <- (step_length _ _ _ Hstep).
    by apply lookup_ge_None.
Qed.

Lemma set_keys_more {V : Type} k (v : V) d :
  ∃ more, Dict.keys (Dict.set k v d) = Dict.keys d ++ more.
Proof.
  destruct (Dict.get k d) as [v'|] eqn:Hg.
  - exists []. rewrite app_nil_r. apply keys_set_present. unfold Dict.mem. by rewrite Hg.
  - exists [k]. by apply keys_set_absent.
Qed.

Lemma discover_keys_more links : ∀ dv,
  ∃ more, Dict.keys (foldl Router.discover dv links) = Dict.keys dv ++ more.
Proof.
  induction links as [|link links IH]; intros dv; [exists []; by rewrite app_nil_r|].
  cbn [foldl]. destruct (IH (Router.discover dv link)) as [more1 ->].
  destruct (set_keys_more (ref_name (_destination link))
              (_cost link, Some (ref_name (_destination link))) dv) as [more2 Hm].
  exists (more2 ++ more1). rewrite app_assoc. f_equal. exact Hm.
Qed.

(** No step removes or moves a key of any table. *)
Lemma step_keys st a st' i r r' :
  step st a = Some st' → nodes st !! i = Some r → nodes st' !! i = Some r' →
  ∃ more, Dict.keys (_dv r') = Dict.keys (_dv r) ++ more.
Proof.
  intros Hstep Hr Hr'.
  destruct (step_nodes _ _ _ _ _ Hstep Hr')
    as [Hold|[(-> & -> & r0 & Hr0 & ->)
             |(t' & th' & lc & ch & pos & used & r0 & src & item
               & -> & Ht' & Hp' & Hd' & Hr0 & _ & _ & ->)]].
  - assert (r' = r) as -> by congruence. exists []. by rewrite app_nil_r.
  - assert (r0 = r) as -> by congruence.
    cbn [Router.dvr_start fst Router._find_neighbors Router.with_dv _dv _links].
    destruct (discover_keys_more (_links r) (Dict.set (_name r) (0%Z, None) (_dv r)))
      as [more1 ->].
    destruct (set_keys_more (_name r) (0%Z, @None string) (_dv r)) as [more2 Hm].
    exists (more2 ++ more1). rewrite app_assoc. f_equal. exact Hm.
  - assert (r0 = r) as -> by congruence. cbn [Router.with_dv _dv].
    rewrite relax_keys. eauto.
Qed.

Lemma take_more {A : Type} (l more : list A) n (items : list A) :
  items = take n l → length items = n → take n (l ++ more) = items.
Proof.
  intros -> Hlen. rewrite length_take in Hlen. apply take_app_le. lia.
Qed.

(** One step on, a thread that is still inside the loop has read the same
    items, or one more. *)
Lemma reading_step nodes0 st a st' t th r items :
  Forall (λ r, _dv r = []) nodes0 → reachable nodes0 st →
  step st a = Some st' → reading nodes0 st t th r items →
  iterating <$> threads st' !! t = Some true →
  ∃ items', reading nodes0 st' t th r items'.
Proof.
  intros Hfresh Hreach Hstep
    (lc & hop & changed & used & src & dv & Ht & Hmem & Hget & Hfold & Hr & Hsrc
     & Hkeys & Hprov) Hstill.
  assert (is_Some (nodes st' !! (t_data th).2)) as [src' Hsrc'].
  { apply lookup_lt_is_Some_2. rewrite (step_length _ _ _ Hstep).
    by eapply lookup_lt_Some. }
  destruct (step_keys _ _ _ _ _ _ Hstep Hsrc Hsrc') as [more Hmore].
  destruct (iter_or_not a t) as [->|Ha].
  - simpl in Hstep. pose proof Hstep as Hstep0. apply iter_inv in Hstep
      as (th0 & lc0 & ch0 & pos0 & used0 & r0 & src0 & Ht0 & Hp0 & Hr0 & Hsrc0 & Hcase).
    rewrite Ht in Ht0. injection Ht0 as <-. cbn in Hp0, Hr0, Hsrc0.
    injection Hp0 as <- <- <- <-.
    change (dest (with_phase _ th)) with (dest th) in *.
    rewrite Hr in Hr0. injection Hr0 as <-. rewrite Hsrc in Hsrc0. injection Hsrc0 as <-.
    destruct Hcase as [[_ ->]|[(item & Hitem & ->)|[_ ->]]].
    + simpl in Hstill. by rewrite list_lookup_alter_eq, Ht in Hstill.
    + exists (items ++ [item]). cbn [Router.with_dv _dv t_data with_phase] in *.
      destruct (Router.relax lc (t_data th).1 (dv, changed) item) as [dv1 ch1] eqn:Hrel.
      exists lc, hop, ch1, used, src', dv1. split_and!; [|done|done| | |done| |].
      * cbn [threads set_phase set_node]. rewrite list_lookup_alter_eq, Ht.
        rewrite length_app, Nat.add_1_r. done.
      * by rewrite foldl_app, Hfold.
      * cbn [nodes set_phase set_node].
        rewrite list_lookup_insert_eq by (by eapply lookup_lt_Some). done.
      * rewrite map_app, length_app, Nat.add_1_r, Hmore. cbn [map].
        rewrite take_app_le.
        2:{ apply lookup_lt_Some in Hitem. unfold Dict.keys. rewrite length_map. lia. }
        assert (Dict.keys (_dv src) !! length items = Some item.1) as Hk.
        { exact (list_lookup_fmap_Some_2 fst _ _ _ Hitem). }
        by rewrite (take_S_r _ _ _ Hk), <- Hkeys.
      * apply Forall_app. split; [done|]. apply Forall_singleton.
        exists st, src. split_and!; [done..|]. by eapply list_elem_of_lookup_2.
    + rewrite (perform_all_thread _ _ _ t (with_phase Finished th)) in Hstill; [done| |done].
      simpl. by rewrite list_lookup_alter_eq, Ht.
  - exists items, lc, hop, changed, used, src', dv.
    split_and!; [|done|done|done| |done| |done].
    + eapply step_thread_frame; [done..|]. by eapply iterating_acts.
    + rewrite <- Hr.
      by apply (node_frame nodes0 st a st' t
                  (with_phase (Iterating lc changed (length items) used) th)).
    + rewrite Hmore. symmetry. apply take_more; [done|]. by rewrite length_map.
Qed.

Lemma reading_run nodes0 t th r schedule : ∀ st st' items,
  Forall (λ r, _dv r = []) nodes0 → reachable nodes0 st →
  run st schedule = Some st' → reading nodes0 st t th r items →
  iterating <$> threads st' !! t = Some true →
  ∃ items', reading nodes0 st' t th r items'.
Proof.
  induction schedule as [|a schedule IH]; intros st st' items Hfresh Hreach; simpl.
  - intros [= <-]. eauto.
  - destruct (step st a) as [st1|] eqn:Hstep; [|done]. intros Hrun Hread Hstill.
    assert (iterating <$> threads st1 !! t = Some true) as Hstill1.
    { destruct Hread as (lc & hop & changed & used & src & dv & Ht & _).
      destruct (iter_or_not a t) as [->|Ha].
      - destruct (iter_self _ _ _ _ Hstep Ht) as (p & Ht1 & [Hit|Hover]).
        + by rewrite Ht1; simpl; rewrite Hit.
        + rewrite (over_run _ _ _ _ _ Hrun Ht1 Hover) in Hstill. simpl in Hstill.
          unfold over in Hover. unfold iterating in Hstill.
          by destruct (t_phase (with_phase p (with_phase _ th))).
      - rewrite (step_thread_frame st a st1 t _ Hstep Ht); [done|done|].
        by eapply iterating_acts. }
    destruct (reading_step _ _ _ _ _ _ _ _ Hfresh Hreach Hstep Hread Hstill1)
      as [items1 Hread1].
    eapply IH; [done| |done..]. by eapply reachable_step.
Qed.

(** A thread that gets into the loop has read nothing yet. *)
Lemma reading_enter nodes0 st t th r st1 :
  reachable nodes0 st → threads st !! t = Some th → nodes st !! dest th = Some r →
  step st (Enter t) = Some st1 → iterating <$> threads st1 !! t = Some true →
  reading nodes0 st1 t th r [].
Proof.
  intros Hreach Ht Hr Hstep Hin. simpl in Hstep.
  apply enter_inv in Hstep as (th0 & r0 & p & Ht0 & Hp0 & Hr0 & Hheld & -> & Hcase).
  assert (th0 = th) as -> by congruence. assert (r0 = r) as -> by congruence.
  simpl in Hin. rewrite list_lookup_alter_eq, Ht in Hin. simpl in Hin.
  destruct Hcase as [[_ ->]|[(_ & _ & ->)|(Hmem & lc & hop & src & Hget & Hsrc & ->)]];
    [done..|].
  exists lc, hop, false, (length (_dv src)), src, (_dv r).
  split_and!; [|done..| |done|done|constructor].
  - simpl. by rewrite list_lookup_alter_eq, Ht.
  - simpl. by rewrite with_dv_id.
Qed.

(** X24. A call of [receive] that returns, however the threads are
    scheduled.  A thread gets into the loop of [receive] of a router it
    finds as [r]; the threads run in any order, the sender of the datagram
    may write to its dictionary; a turn of the loop of the thread ends the
    loop.  Then the router is left as [Router.receive] leaves [r], and the
    effects are those [Router.receive] gives, on the list of the items the
    loop has read: a list with the keys of the dictionary of the sender, in
    their order, of items that were in that dictionary when they were
    read. *)
Theorem receive_that_returns nodes0 st t th r st1 schedule st2 st3 :
  Forall (λ r, _dv r = []) nodes0 → reachable nodes0 st →
  threads st !! t = Some th → nodes st !! dest th = Some r →
  step st (Enter t) = Some st1 → iterating <$> threads st1 !! t = Some true →
  run st1 schedule = Some st2 →
  step st2 (Iter t) = Some st3 → t_phase <$> threads st3 !! t = Some Finished →
  ∃ items src r' evs,
    nodes st2 !! (t_data th).2 = Some src ∧
    map fst items = Dict.keys (_dv src) ∧
    Forall (λ item, ∃ st0 src0, reachable nodes0 st0 ∧
                      nodes st0 !! (t_data th).2 = Some src0 ∧ item ∈ _dv src0) items ∧
    Router.receive r ((t_data th).1, items) = Returned (r', evs) ∧
    nodes st3 !! dest th = Some r' ∧
    st3 = foldl (perform (dest th)) (set_phase st2 t Finished) evs.
Proof.
  intros Hfresh Hreach Ht Hr Henter Hin Hrun Hlast Hfin.
  pose proof (reading_enter _ _ _ _ _ _ Hreach Ht Hr Henter Hin) as Hread.
  assert (iterating <$> threads st2 !! t = Some true) as Hstill.
  { simpl in Hlast. apply iter_inv in Hlast
      as (th2 & lc & ch & pos & used & r2 & src2 & Ht2 & Hp2 & _).
    rewrite Ht2. simpl. unfold iterating. by rewrite Hp2. }
  destruct (reading_run _ _ _ _ _ _ _ _ Hfresh (reachable_step _ _ _ _ Hreach Henter)
              Hrun Hread Hstill)
    as (items & lc & hop & changed & used & src & dv & Ht2 & Hmem & Hget & Hfold & Hr2
        & Hsrc & Hkeys & Hprov).
  simpl in Hlast. apply iter_inv in Hlast
    as (th0 & lc0 & ch0 & pos0 & used0 & r0 & src0 & Ht0 & Hp0 & Hr0 & Hsrc0 & Hcase).
  rewrite Ht2 in Ht0. injection Ht0 as <-. cbn in Hp0, Hr0, Hsrc0.
  injection Hp0 as <- <- <- <-.
  change (dest (with_phase _ th)) with (dest th) in *.
  rewrite Hr2 in Hr0. injection Hr0 as <-. rewrite Hsrc in Hsrc0. injection Hsrc0 as <-.
  destruct Hcase as [[_ ->]|[(item & Hitem & ->)|[Hend ->]]].
  - simpl in Hfin. by rewrite list_lookup_alter_eq, Ht2 in Hfin.
  - simpl in Hfin. by rewrite list_lookup_alter_eq, Ht2 in Hfin.
  - exists items, src, (Router.with_dv r dv),
      (Router.after_loop (Router.with_dv r dv) changed).
    split_and!; [done| |done| | |done].
    + rewrite Hkeys. apply take_ge. apply lookup_ge_None in Hend.
      unfold Dict.keys. by rewrite length_map.
    + pose proof (receive_returns r _ items lc hop Hmem Hget) as Hrecv.
      cbn zeta in Hrecv. by rewrite Hfold in Hrecv.
    + by rewrite perform_all_nodes.
Qed.

(** X25. A call of [receive] that the iterator ends, however the threads
    are scheduled.  A thread gets into the loop of [receive] of a router it
    finds as [r]; the threads run in any order; a turn of the loop of the
    thread raises.  Then the router is left as a delivery of the items read
    so far leaves [r], items that were in the dictionary of the sender when
    they were read and carry its first keys; and the call has no effect:
    nothing is written to the console and no thread is started. *)
Theorem receive_that_dies nodes0 st t th r st1 schedule st2 st3 e :
  Forall (λ r, _dv r = []) nodes0 → reachable nodes0 st →
  threads st !! t = Some th → nodes st !! dest th = Some r →
  step st (Enter t) = Some st1 → iterating <$> threads st1 !! t = Some true →
  run st1 schedule = Some st2 →
  step st2 (Iter t) = Some st3 → t_phase <$> threads st3 !! t = Some (Died e) →
  ∃ items src,
    nodes st2 !! (t_data th).2 = Some src ∧
    map fst items = take (length items) (Dict.keys (_dv src)) ∧
    Forall (λ item, ∃ st0 src0, reachable nodes0 st0 ∧
                      nodes st0 !! (t_data th).2 = Some src0 ∧ item ∈ _dv src0) items ∧
    nodes st3 !! dest th = Some (Router.deliver r ((t_data th).1, items)) ∧
    st3 = set_phase st2 t (Died e).
Proof.
  intros Hfresh Hreach Ht Hr Henter Hin Hrun Hlast Hfin.
  pose proof (reading_enter _ _ _ _ _ _ Hreach Ht Hr Henter Hin) as Hread.
  assert (iterating <$> threads st2 !! t = Some true) as Hstill.
  { simpl in Hlast. apply iter_inv in Hlast
      as (th2 & lc & ch & pos & used & r2 & src2 & Ht2 & Hp2 & _).
    rewrite Ht2. simpl. unfold iterating. by rewrite Hp2. }
  destruct (reading_run _ _ _ _ _ _ _ _ Hfresh (reachable_step _ _ _ _ Hreach Henter)
              Hrun Hread Hstill)
    as (items & lc & hop & changed & used & src & dv & Ht2 & Hmem & Hget & Hfold & Hr2
        & Hsrc & Hkeys & Hprov).
  simpl in Hlast. apply iter_inv in Hlast
    as (th0 & lc0 & ch0 & pos0 & used0 & r0 & src0 & Ht0 & Hp0 & Hr0 & Hsrc0 & Hcase).
  rewrite Ht2 in Ht0. injection Ht0 as <-. cbn in Hp0, Hr0, Hsrc0.
  injection Hp0 as <- <- <- <-.
  change (dest (with_phase _ th)) with (dest th) in *.
  rewrite Hr2 in Hr0. injection Hr0 as <-. rewrite Hsrc in Hsrc0. injection Hsrc0 as <-.
  destruct Hcase as [[_ ->]|[(item & Hitem & ->)|[Hend ->]]].
  - simpl in Hfin. rewrite list_lookup_alter_eq, Ht2 in Hfin. injection Hfin as <-.
    exists items, src. split_and!; [done..| |done].
    assert (Router.receive r ((t_data th).1, items)
            = Returned (Router.with_dv r dv,
                        Router.after_loop (Router.with_dv r dv) changed)) as Hrecv.
    { pose proof (receive_returns r _ items lc hop Hmem Hget) as Hrecv.
      cbn zeta in Hrecv. by rewrite Hfold in Hrecv. }
    unfold Router.deliver. rewrite Hrecv. exact Hr2.
  - simpl in Hfin. by rewrite list_lookup_alter_eq, Ht2 in Hfin.
  - rewrite (perform_all_thread _ _ _ t (with_phase Finished th)) in Hfin; [done| |done].
    simpl. by rewrite list_lookup_alter_eq, Ht2.
Qed.

(** On the triangle.  The datagram of A arrives at C, which enters
    [receive] and reads two items; A meanwhile reads the table of B and
    lowers its cost to C from 5 to 2, in place; C reads the third item and
    returns. *)
Lemma receive_that_returns_witness :
  let before := after Triangle.network (Triangle.sent ++ [Wake 1; Wake 2]) in
  let entered := after Triangle.network (Triangle.sent ++ [Wake 1; Wake 2; Enter 1]) in
  let last := after Triangle.network
                (Triangle.sent ++ [Wake 1; Wake 2; Enter 1; Iter 1; Iter 1]
                 ++ whole 2 3 ++ [Iter 1]) in
  let returned := after Triangle.network
                    (Triangle.sent ++ [Wake 1; Wake 2; Enter 1; Iter 1; Iter 1]
                     ++ whole 2 3 ++ [Iter 1; Iter 1]) in
  payload entered ("A", 0)
    = Some [("A", (0%Z, None)); ("B", (1%Z, Some "B")); ("C", (5%Z, Some "C"))] ∧
  payload last ("A", 0)
    = Some [("A", (0%Z, None)); ("B", (1%Z, Some "B")); ("C", (2%Z, Some "B"))] ∧
  ∃ r, nodes before !! 2 = Some r ∧
  ∃ items src r' evs,
    nodes last !! 0 = Some src ∧
    map fst items = Dict.keys (_dv src) ∧
    Forall (λ item, ∃ st0 src0, reachable Triangle.network st0 ∧
                      nodes st0 !! 0 = Some src0 ∧ item ∈ _dv src0) items ∧
    Router.receive r ("A", items) = Returned (r', evs) ∧
    nodes returned !! 2 = Some r' ∧
    returned = foldl (perform 2) (set_phase last 1 Finished) evs.
Proof.
  cbn zeta. split; [by vm_compute|]. split; [by vm_compute|].
  destruct (nodes (after Triangle.network (Triangle.sent ++ [Wake 1; Wake 2])) !! 2)
    as [r|] eqn:Hr; [|by vm_compute in Hr].
  exists r. split; [done|].
  apply (receive_that_returns Triangle.network
           (after Triangle.network (Triangle.sent ++ [Wake 1; Wake 2])) 1
           {| t_link := {| _cost := 5; _destination := {| oid := 2; ref_name := "C" |} |};
              t_data := ("A", 0); t_due := 5; t_phase := Arrived |}
           r
           (after Triangle.network (Triangle.sent ++ [Wake 1; Wake 2; Enter 1]))
           ([Iter 1; Iter 1] ++ whole 2 3 ++ [Iter 1])
           (after Triangle.network
              (Triangle.sent ++ [Wake 1; Wake 2; Enter 1; Iter 1; Iter 1]
               ++ whole 2 3 ++ [Iter 1]))
           (after Triangle.network
              (Triangle.sent ++ [Wake 1; Wake 2; Enter 1; Iter 1; Iter 1]
               ++ whole 2 3 ++ [Iter 1; Iter 1]))).
  - apply (bool_decide_unpack _). by vm_compute.
  - apply after_reachable.
  - by vm_compute.
  - exact Hr.
  - by vm_compute.
  - by vm_compute.
  - by vm_compute.
  - by vm_compute.
  - by vm_compute.
Defined.

(** On the line of four routers, in the run of [Cut.schedule]: R has read
    one item of the table of S when the iterator raises. *)
Lemma receive_that_dies_witness :
  let before := after Line4.network Cut.arrived in
  let last := after Line4.network (Cut.entered ++ [Iter 3] ++ whole 2 3) in
  let ended := after Line4.network Cut.schedule in
  ∃ r, nodes before !! 1 = Some r ∧
  ∃ items src,
    nodes last !! 2 = Some src ∧
    map fst items = take (length items) (Dict.keys (_dv src)) ∧
    Forall (λ item, ∃ st0 src0, reachable Line4.network st0 ∧
                      nodes st0 !! 2 = Some src0 ∧ item ∈ _dv src0) items ∧
    nodes ended !! 1 = Some (Router.deliver r ("S", items)) ∧
    ended = set_phase last 3
              (Died (RuntimeError "dictionary changed size during iteration")).
Proof.
  cbn zeta.
  destruct (nodes (after Line4.network Cut.arrived) !! 1)
    as [r|] eqn:Hr; [|by vm_compute in Hr].
  exists r. split; [done|].
  apply (receive_that_dies Line4.network (after Line4.network Cut.arrived) 3
           {| t_link := {| _cost := 1; _destination := {| oid := 1; ref_name := "R" |} |};
              t_data := ("S", 2); t_due := 1; t_phase := Arrived |}
           r
           (after Line4.network Cut.entered) ([Iter 3] ++ whole 2 3)
           (after Line4.network (Cut.entered ++ [Iter 3] ++ whole 2 3))
           (after Line4.network Cut.schedule)).
  - apply (bool_decide_unpack _). by vm_compute.
  - apply after_reachable.
  - by vm_compute.
  - exact Hr.
  - by vm_compute.
  - by vm_compute.
  - by vm_compute.
  - by vm_compute.
  - by vm_compute.
Defined.

End Returning.
